(** * go-chd: CHD minimal perfect hashing and the constant DB built on it

    A shallow embedding of the Go package [chd] (chd.go, marshal.go,
    bitvector.go, dbwriter.go, dbreader.go, mmap.go) as executable Rocq
    definitions.  Unsigned 64-bit words are [Z] values in [0, 2^64) with the
    wrap-around of Go written out; byte slices are [list Z] of values in
    [0, 256); Go maps that are iterated are association lists in insertion
    order; the runtime's panics are an explicit outcome.  The host is
    little-endian (endian_le.go): the [toLittleEndian*] helpers are the
    identity there and slices reinterpreted by mmap.go read little-endian. *)

From Stdlib Require Import ZArith List Bool QArith Qround Qabs Permutation Lia.
Import ListNotations.
Open Scope Z_scope.

(** ** Go runtime: results, panics, 64-bit words *)

Inductive err :=
| ErrDupKey            (* chd: duplicate key *)
| ErrInvalidLoad       (* chd: invalid load factor *)
| ErrNoMPH             (* chd: No MPH after _MaxSeed tries *)
| ErrMPHFail           (* failed to build MPH *)
| ErrFrozen            (* DB already frozen *)
| ErrValueTooLarge     (* value is larger than 2^32-1 bytes *)
| ErrExists            (* key exists in DB *)
| ErrNoKey             (* No such key *)
| ErrVersion           (* chd: no support to un-marshal version *)
| ErrPartialSeeds      (* chd: partial seeds of size ... *)
| ErrSeedSize          (* chd: unknown seed-size *)
| ErrTooSmall          (* file too small or corrupted *)
| ErrBadMagic          (* bad file magic *)
| ErrCorruptHeader0    (* corrupt header0 *)
| ErrCorruptHeader1    (* corrupt header1 *)
| ErrChecksum          (* checksum failure *)
| ErrUnmarshal (e : err) (* can't unmarshal hash table: ... *)
| ErrCorruptRecord     (* corrupted record at off ... *)
| ErrIO                (* io.EOF, io.ErrUnexpectedEOF, Seek errors *).

Inductive panic_kind :=
| PanicIndex      (* runtime error: index out of range *)
| PanicSlice      (* runtime error: slice bounds out of range *)
| PanicMakeslice  (* runtime error: makeslice: len out of range *).

(** The result of a Go call: a value, an [error] return, or a panic. *)
Inductive outcome (A : Type) :=
| Ok (a : A)
| Err (e : err)
| Panic (p : panic_kind).
Arguments Ok {A} a.
Arguments Err {A} e.
Arguments Panic {A} p.

Definition bind {A B} (m : outcome A) (k : A -> outcome B) : outcome B :=
  match m with
  | Ok a => k a
  | Err e => Err e
  | Panic p => Panic p
  end.

Notation "x <- m ;; k" := (bind m (fun x => k))
  (at level 61, m at next level, right associativity).

Definition W64 : Z := 2 ^ 64.
Definition u64 (x : Z) : Z := x mod W64.
Definition add64 (a b : Z) : Z := u64 (a + b).
Definition sub64 (a b : Z) : Z := u64 (a - b).
Definition mul64 (a b : Z) : Z := u64 (a * b).
(** Go's [^x] on a uint64. *)
Definition not64 (x : Z) : Z := Z.lxor x (W64 - 1).
Definition rotl64 (x : Z) (n : Z) : Z :=
  Z.lor (u64 (Z.shiftl x n)) (Z.shiftr x (64 - n)).
Definition rotr64 (x : Z) (n : Z) : Z := rotl64 x (64 - n).

(** Go slice indexing [l[i]] and assignment [l[i] = v]. *)
Definition go_index {A} (l : list A) (i : Z) : outcome A :=
  if (0 <=? i) && (i <? Z.of_nat (length l)) then
    match nth_error l (Z.to_nat i) with
    | Some a => Ok a
    | None => Panic PanicIndex
    end
  else Panic PanicIndex.

Fixpoint set_nth {A} (l : list A) (n : nat) (v : A) : list A :=
  match l, n with
  | [], _ => []
  | _ :: t, O => v :: t
  | x :: t, S n' => x :: set_nth t n' v
  end.

Definition go_set {A} (l : list A) (i : Z) (v : A) : outcome (list A) :=
  if (0 <=? i) && (i <? Z.of_nat (length l)) then Ok (set_nth l (Z.to_nat i) v)
  else Panic PanicIndex.

(** Go slice expression [b[lo:hi]]. *)
Definition go_slice {A} (b : list A) (lo hi : Z) : outcome (list A) :=
  if (0 <=? lo) && (lo <=? hi) && (hi <=? Z.of_nat (length b)) then
    Ok (firstn (Z.to_nat (hi - lo)) (skipn (Z.to_nat lo) b))
  else Panic PanicSlice.

(** ** Byte encodings (encoding/binary, and mmap.go on a little-endian host) *)

Fixpoint le_bytes (n : nat) (x : Z) : list Z :=
  match n with
  | O => []
  | S n' => (x mod 256) :: le_bytes n' (x / 256)
  end.

Fixpoint le_value (bs : list Z) : Z :=
  match bs with
  | [] => 0
  | b :: t => b + 256 * le_value t
  end.

Definition be_bytes (n : nat) (x : Z) : list Z := rev (le_bytes n x).
Definition be_value (bs : list Z) : Z := le_value (rev bs).

Definition le64 := le_bytes 8.
Definition le32 := le_bytes 4.
Definition be64 := be_bytes 8.

Fixpoint chunks (n : nat) (fuel : nat) (bs : list Z) : list (list Z) :=
  match fuel with
  | O => []
  | S f =>
      if Nat.ltb (length bs) n then []
      else firstn n bs :: chunks n f (skipn n bs)
  end.

(** [bsToUint64Slice] / [bsToUint32Slice]: [len(b)/8] (resp. [/4]) words;
    trailing bytes are dropped. *)
Definition bsToUint64Slice (b : list Z) : list Z :=
  map le_value (chunks 8 (length b) b).
Definition bsToUint32Slice (b : list Z) : list Z :=
  map le_value (chunks 4 (length b) b).
(** [u64sToByteSlice] / [u32sToByteSlice]. *)
Definition u64sToByteSlice (v : list Z) : list Z := concat (map le64 v).
Definition u32sToByteSlice (v : list Z) : list Z := concat (map le32 v).

(** The 16-bit conversions of the reinterpreting helpers (mmap_unsafe.go):
    [bsToUint16Slice] and [u16sToByteSlice]. *)
Definition le16 := le_bytes 2.
Definition bsToUint16Slice (b : list Z) : list Z :=
  map le_value (chunks 2 (length b) b).
Definition u16sToByteSlice (v : list Z) : list Z := concat (map le16 v).

(** endian_be.go (built on ppc64, mips, mips64 only): the byte swaps that
    turn a word loaded on a big-endian host into the little-endian value
    the file stores. *)
Definition toLittleEndianUint64 (v : Z) : Z :=
  Z.lor (Z.lor (Z.lor (Z.shiftl (Z.land v 0x00000000000000ff) 56)
                      (Z.shiftl (Z.land v 0x000000000000ff00) 40))
               (Z.lor (Z.shiftl (Z.land v 0x0000000000ff0000) 24)
                      (Z.shiftl (Z.land v 0x00000000ff000000) 8)))
        (Z.lor (Z.lor (Z.shiftr (Z.land v 0x000000ff00000000) 8)
                      (Z.shiftr (Z.land v 0x0000ff0000000000) 24))
               (Z.lor (Z.shiftr (Z.land v 0x00ff000000000000) 40)
                      (Z.shiftr (Z.land v 0xff00000000000000) 56))).

Definition toLittleEndianUint32 (v : Z) : Z :=
  Z.lor (Z.lor (Z.shiftl (Z.land v 0x000000ff) 24) (Z.shiftl (Z.land v 0x0000ff00) 8))
        (Z.lor (Z.shiftr (Z.land v 0x00ff0000) 8) (Z.shiftr (Z.land v 0xff000000) 24)).

Definition toLittleEndianUint16 (v : Z) : Z :=
  Z.lor (Z.shiftl (Z.land v 0x00ff) 8) (Z.shiftr (Z.land v 0xff00) 8).

(** ** chd.go: the hash primitive *)

Definition mix (h : Z) : Z :=
  let h1 := Z.lxor h (Z.shiftr h 23) in
  let h2 := mul64 h1 (Z.of_N 0x2127599bf4325c37) in
  Z.lxor h2 (Z.shiftr h2 47).

Definition rhash (seed key sz : Z) : Z :=
  let m := Z.of_N 0x880355f21e6d1965 in
  let h := add64 key (not64 seed) in
  let h := Z.lxor h (mix h) in
  let h := mul64 h m in
  Z.land h (sub64 sz 1).

Definition nextpow2 (n : Z) : Z :=
  let n := sub64 n 1 in
  let n := Z.lor n (Z.shiftr n 1) in
  let n := Z.lor n (Z.shiftr n 2) in
  let n := Z.lor n (Z.shiftr n 4) in
  let n := Z.lor n (Z.shiftr n 8) in
  let n := Z.lor n (Z.shiftr n 16) in
  let n := Z.lor n (Z.shiftr n 32) in
  add64 n 1.

(** ** Library hashes the DB relies on *)

(** github.com/dchest/siphash: SipHash-2-4 keyed by a 16-byte key, 64-bit sum. *)
Module SipHash.

Definition round (v : Z * Z * Z * Z) : Z * Z * Z * Z :=
  let '(v0, v1, v2, v3) := v in
  let v0 := add64 v0 v1 in let v1 := rotl64 v1 13 in let v1 := Z.lxor v1 v0 in
  let v0 := rotl64 v0 32 in
  let v2 := add64 v2 v3 in let v3 := rotl64 v3 16 in let v3 := Z.lxor v3 v2 in
  let v0 := add64 v0 v3 in let v3 := rotl64 v3 21 in let v3 := Z.lxor v3 v0 in
  let v2 := add64 v2 v1 in let v1 := rotl64 v1 17 in let v1 := Z.lxor v1 v2 in
  let v2 := rotl64 v2 32 in
  (v0, v1, v2, v3).

Definition compress (v : Z * Z * Z * Z) (m : Z) : Z * Z * Z * Z :=
  let '(v0, v1, v2, v3) := v in
  let '(v0, v1, v2, v3) := round (round (v0, v1, v2, Z.lxor v3 m)) in
  (Z.lxor v0 m, v1, v2, v3).

Fixpoint absorb (fuel : nat) (v : Z * Z * Z * Z) (msg : list Z) (len : Z)
  : Z * Z * Z * Z :=
  match fuel with
  | O => v
  | S f =>
      if Nat.leb 8 (length msg) then
        absorb f (compress v (le_value (firstn 8 msg))) (skipn 8 msg) len
      else
        (* last block: the remaining bytes, then the length in the top byte *)
        compress v (le_value msg + Z.shiftl (len mod 256) 56)
  end.

Definition sum64 (key msg : list Z) : Z :=
  let k0 := le_value (firstn 8 key) in
  let k1 := le_value (firstn 8 (skipn 8 key)) in
  let v := (Z.lxor k0 (Z.of_N 0x736f6d6570736575),
            Z.lxor k1 (Z.of_N 0x646f72616e646f6d),
            Z.lxor k0 (Z.of_N 0x6c7967656e657261),
            Z.lxor k1 (Z.of_N 0x7465646279746573)) in
  let '(v0, v1, v2, v3) := absorb (S (length msg)) v msg (Z.of_nat (length msg)) in
  let '(v0, v1, v2, v3) := round (round (round (round (v0, v1, Z.lxor v2 255, v3)))) in
  Z.lxor (Z.lxor v0 v1) (Z.lxor v2 v3).

End SipHash.

(** crypto/sha512: SHA-512/256 (FIPS 180-4), the DB's metadata checksum. *)
Module Sha512_256.

Definition K : list Z := [
  0x428a2f98d728ae22; 0x7137449123ef65cd; 0xb5c0fbcfec4d3b2f; 0xe9b5dba58189dbbc;
  0x3956c25bf348b538; 0x59f111f1b605d019; 0x923f82a4af194f9b; 0xab1c5ed5da6d8118;
  0xd807aa98a3030242; 0x12835b0145706fbe; 0x243185be4ee4b28c; 0x550c7dc3d5ffb4e2;
  0x72be5d74f27b896f; 0x80deb1fe3b1696b1; 0x9bdc06a725c71235; 0xc19bf174cf692694;
  0xe49b69c19ef14ad2; 0xefbe4786384f25e3; 0x0fc19dc68b8cd5b5; 0x240ca1cc77ac9c65;
  0x2de92c6f592b0275; 0x4a7484aa6ea6e483; 0x5cb0a9dcbd41fbd4; 0x76f988da831153b5;
  0x983e5152ee66dfab; 0xa831c66d2db43210; 0xb00327c898fb213f; 0xbf597fc7beef0ee4;
  0xc6e00bf33da88fc2; 0xd5a79147930aa725; 0x06ca6351e003826f; 0x142929670a0e6e70;
  0x27b70a8546d22ffc; 0x2e1b21385c26c926; 0x4d2c6dfc5ac42aed; 0x53380d139d95b3df;
  0x650a73548baf63de; 0x766a0abb3c77b2a8; 0x81c2c92e47edaee6; 0x92722c851482353b;
  0xa2bfe8a14cf10364; 0xa81a664bbc423001; 0xc24b8b70d0f89791; 0xc76c51a30654be30;
  0xd192e819d6ef5218; 0xd69906245565a910; 0xf40e35855771202a; 0x106aa07032bbd1b8;
  0x19a4c116b8d2d0c8; 0x1e376c085141ab53; 0x2748774cdf8eeb99; 0x34b0bcb5e19b48a8;
  0x391c0cb3c5c95a63; 0x4ed8aa4ae3418acb; 0x5b9cca4f7763e373; 0x682e6ff3d6b2b8a3;
  0x748f82ee5defb2fc; 0x78a5636f43172f60; 0x84c87814a1f0ab72; 0x8cc702081a6439ec;
  0x90befffa23631e28; 0xa4506cebde82bde9; 0xbef9a3f7b2c67915; 0xc67178f2e372532b;
  0xca273eceea26619c; 0xd186b8c721c0c207; 0xeada7dd6cde0eb1e; 0xf57d4f7fee6ed178;
  0x06f067aa72176fba; 0x0a637dc5a2c898a6; 0x113f9804bef90dae; 0x1b710b35131c471b;
  0x28db77f523047d84; 0x32caab7b40c72493; 0x3c9ebe0a15c9bebc; 0x431d67c49c100d4c;
  0x4cc5d4becb3e42b6; 0x597f299cfc657e2a; 0x5fcb6fab3ad6faec; 0x6c44198c4a475817].

Definition IV : list Z := [
  0x22312194fc2bf72c; 0x9f555fa3c84c64c2; 0x2393b86b6f53b151; 0x963877195940eabd;
  0x96283ee2a88effe3; 0xbe5e1e2553863992; 0x2b0199fc2c85b8aa; 0x0eb72ddc81c52ca2].

Definition s0 x := Z.lxor (Z.lxor (rotr64 x 1) (rotr64 x 8)) (Z.shiftr x 7).
Definition s1 x := Z.lxor (Z.lxor (rotr64 x 19) (rotr64 x 61)) (Z.shiftr x 6).
Definition S0 x := Z.lxor (Z.lxor (rotr64 x 28) (rotr64 x 34)) (rotr64 x 39).
Definition S1 x := Z.lxor (Z.lxor (rotr64 x 14) (rotr64 x 18)) (rotr64 x 41).

(** The message schedule, built newest-first from the 16 block words. *)
Fixpoint schedule (n : nat) (rw : list Z) : list Z :=
  match n with
  | O => rw
  | S n' =>
      let w t := nth t rw 0 in
      schedule n' (add64 (add64 (s1 (w 1%nat)) (w 6%nat))
                         (add64 (s0 (w 14%nat)) (w 15%nat)) :: rw)
  end.

Definition step (st : list Z) (kw : Z * Z) : list Z :=
  match st with
  | [a; b; c; d; e; f; g; h] =>
      let ch := Z.lxor (Z.land e f) (Z.land (not64 e) g) in
      let maj := Z.lxor (Z.lxor (Z.land a b) (Z.land a c)) (Z.land b c) in
      let t1 := add64 (add64 (add64 h (S1 e)) (add64 ch (fst kw))) (snd kw) in
      let t2 := add64 (S0 a) maj in
      [add64 t1 t2; a; b; c; add64 d t1; e; f; g]
  | _ => st
  end.

Definition block (st : list Z) (blk : list Z) : list Z :=
  let ws := map be_value (chunks 8 16 blk) in
  let w := rev (schedule 64 (rev ws)) in
  let st' := fold_left step (combine K w) st in
  map (fun p => add64 (fst p) (snd p)) (combine st st').

Definition pad (msg : list Z) : list Z :=
  let l := length msg in
  let zeros := (((111 + 128) - (l mod 128)) mod 128)%nat in
  msg ++ [128] ++ repeat 0 zeros ++ be_bytes 16 (8 * Z.of_nat l).

Definition digest (msg : list Z) : list Z :=
  let p := pad msg in
  let st := fold_left block (chunks 128 (length p) p) IV in
  concat (map (be_bytes 8) (firstn 4 st)).

End Sha512_256.

(** ** bitvector.go *)

Record bitVector := mkBV { bv : list Z }.

Definition newBitVector (size : Z) : bitVector :=
  let sz := add64 size 63 in
  let sz := Z.land sz (not64 63) in
  mkBV (repeat 0 (Z.to_nat (sz / 64))).

Definition bv_Set (b : bitVector) (i : Z) : outcome bitVector :=
  w <- go_index (bv b) (i / 64);;
  v <- go_set (bv b) (i / 64) (Z.lor w (Z.shiftl 1 (i mod 64)));;
  Ok (mkBV v).

Definition bv_IsSet (b : bitVector) (i : Z) : outcome bool :=
  w <- go_index (bv b) (i / 64);;
  Ok (Z.land 1 (Z.shiftr w (i mod 64)) =? 1).

Definition bv_Reset (b : bitVector) : bitVector := mkBV (map (fun _ => 0) (bv b)).

(** [b.Merge(x)]: [v[i] |= z] for every word [z] of [x]. *)
Fixpoint merge_words (v x : list Z) : outcome (list Z) :=
  match x, v with
  | [], _ => Ok v
  | z :: x', w :: v' => r <- merge_words v' x';; Ok (Z.lor w z :: r)
  | _ :: _, [] => Panic PanicIndex
  end.

Definition bv_Merge (b x : bitVector) : outcome bitVector :=
  v <- merge_words (bv b) (bv x);; Ok (mkBV v).

(** [Size()] and [Words()]. *)
Definition bv_Size (b : bitVector) : Z := Z.of_nat (length (bv b)) * 64.
Definition bv_Words (b : bitVector) : Z := Z.of_nat (length (bv b)).

(** [Clear(i)]: [v[i/64] &= ^(1 << (i % 64))]. *)
Definition bv_Clear (b : bitVector) (i : Z) : outcome bitVector :=
  w <- go_index (bv b) (i / 64);;
  v <- go_set (bv b) (i / 64) (Z.land w (not64 (Z.shiftl 1 (i mod 64))));;
  Ok (mkBV v).

(** Bit [j] of the vector: the bit [IsSet] reads, with every bit past the
    last word taken as clear. *)
Definition bv_bit (b : bitVector) (j : Z) : bool :=
  Z.testbit (nth (Z.to_nat (j / 64)) (bv b) 0) (j mod 64).

(** ** chd.go: builder, Freeze, Find *)

Definition _MaxSeed : Z := 1000000.

(** [ChdBuilder.data] is a Go map used as a set; it is kept as the list of
    keys in insertion order, which is also the order [range] visits them
    here (Go's order is random; nothing below depends on it except the
    order of keys inside a bucket, which no seed test depends on). *)
Record ChdBuilder := mkBuilder { data : list Z }.

Definition New : ChdBuilder := mkBuilder [].

Definition Add (c : ChdBuilder) (key : Z) : outcome ChdBuilder :=
  if existsb (Z.eqb key) (data c) then Err ErrDupKey
  else Ok (mkBuilder (data c ++ [key])).

Record bucket := mkBucket { slot : Z; keys : list Z }.

Record Chd := mkChd { seeds : list Z; tries : Z }.

Definition Len (c : Chd) : Z := Z.of_nat (length (seeds c)).

Definition qlt (a b : Q) : bool := negb (Qle_bool b a).

(** *** float64 arithmetic on the values of the floats

    A finite float64 is the rational it denotes.  [round53] rounds a
    rational to the nearest rational with a 53-bit significand, ties to the
    even significand: the rounding of IEEE 754 binary64 arithmetic.  The
    exponent range is left unbounded: nothing below depends on it, since a
    value that would overflow to +Inf and a finite value of 2^64 or more
    convert to the same uint64, and a value in the subnormal range truncates
    to 0 either way. *)

(** The rational [2^e] for any integer [e]. *)
Definition pow2Q (e : Z) : Q :=
  if 0 <=? e then inject_Z (2 ^ e) else (1 / inject_Z (2 ^ (- e)))%Q.

(** Rounding to the nearest integer, ties to even. *)
Definition Qround_even (y : Q) : Z :=
  let f := Qfloor y in
  let r := (y - inject_Z f)%Q in
  if qlt r (1#2) then f
  else if qlt (1#2) r then f + 1
  else if Z.even f then f else f + 1.

Definition round53 (x : Q) : Q :=
  let p := Z.abs (Qnum x) in
  let q := Zpos (Qden x) in
  if p =? 0 then 0 else
  (* [2^e] is the unit of the last place: [|x| / 2^e] lies in [2^52, 2^53). *)
  let e := Z.log2 p - Z.log2 q - 52 in
  let e := if qlt (Qabs x / pow2Q e)%Q (inject_Z (2 ^ 52)) then e - 1 else e in
  let r := (inject_Z (Qround_even (Qabs x / pow2Q e)) * pow2Q e)%Q in
  if Qnum x <? 0 then Qopp r else r.

(** [float64(n)] for an integer [n]. *)
Definition float64_of_int (n : Z) : Q := round53 (inject_Z n).

(** [a / b] on float64 values; [None] is +Inf, -Inf or NaN, the results of a
    division by zero. *)
Definition f64_div (a b : Q) : option Q :=
  if Qeq_bool b 0 then None else Some (round53 (a / b)%Q).

(** Truncation toward zero. *)
Definition Qtrunc (x : Q) : Z := if qlt x 0 then Qceiling x else Qfloor x.

(** [uint64(x)] for a float64 [x] as the amd64 compiler emits it: below
    [2^63] the truncating conversion to int64 (CVTTSD2SQ), whose result for
    a value out of the int64 range, an infinity or NaN is the pattern
    [0x8000000000000000]; from [2^63] on (and for NaN) the same conversion of
    [x - 2^63] with the top bit set.  The subtraction is exact for
    [x <= 2^64] and leaves any larger [x] above [2^63]. *)
Definition f64_to_u64 (x : option Q) : Z :=
  match x with
  | None => 2 ^ 63
  | Some x =>
      if qlt x (inject_Z (2 ^ 63)) then
        let t := Qtrunc x in
        if (- 2 ^ 63 <=? t) && (t <? 2 ^ 63) then u64 t else 2 ^ 63
      else
        let t := Qtrunc (x - inject_Z (2 ^ 63))%Q in
        if t <? 2 ^ 63 then Z.lor t (2 ^ 63) else 2 ^ 63
  end.

(** [uint64(float64(n) / load)], where the rational [load] is the value of
    the float64 argument.  A zero load gives +Inf (or NaN for [n = 0]),
    which converts to [2^63]. *)
Definition float_quot_u64 (n : Z) (load : Q) : Z :=
  f64_to_u64 (f64_div (float64_of_int n) load).

(** [make([]T, m)] for [T] of [esize] bytes: Go refuses lengths whose size
    exceeds maxAlloc (2^48 on amd64). *)
Definition go_make {A} (esize m : Z) (zero : A) : outcome (list A) :=
  if 2 ^ 48 <? esize * m then Panic PanicMakeslice else Ok (repeat zero (Z.to_nat m)).

Definition add_to_bucket (m : Z) (bs : outcome (list bucket)) (key : Z)
  : outcome (list bucket) :=
  bs <- bs;;
  let j := rhash 0 key m in
  b <- go_index bs j;;
  go_set bs j (mkBucket j (keys b ++ [key])).

(** [sort.Sort(buckets)] with [Less(i, j) = len(b[i].keys) > len(b[j].keys)]:
    buckets by decreasing size.  Go's sort is not stable; this insertion
    sort keeps equal-size buckets in slot order, one of the orders Go may
    produce. *)
Fixpoint insert_bucket (b : bucket) (bs : list bucket) : list bucket :=
  match bs with
  | [] => [b]
  | b' :: bs' =>
      if Nat.ltb (length (keys b')) (length (keys b)) then b :: bs
      else b' :: insert_bucket b bs'
  end.

Definition sort_buckets (bs : list bucket) : list bucket :=
  fold_right insert_bucket [] bs.

(** The inner loop over [b.keys] for one seed [s]: [true] when every key
    found a free slot (all marked in [bOcc]), [false] at [goto nextSeed]. *)
Fixpoint place_keys (s m : Z) (occ bOcc : bitVector) (ks : list Z)
  : outcome (bool * bitVector) :=
  match ks with
  | [] => Ok (true, bOcc)
  | key :: ks' =>
      let h := rhash s key m in
      a <- bv_IsSet occ h;;
      if a then Ok (false, bOcc) else
      b <- bv_IsSet bOcc h;;
      if b then Ok (false, bOcc) else
      bOcc <- bv_Set bOcc h;;
      place_keys s m occ bOcc ks'
  end.

(** [for s := uint64(1); s < _MaxSeed; s++ { ... }] for one bucket; [fuel]
    counts the seeds left. *)
Fixpoint try_seeds (fuel : nat) (s m : Z) (b : bucket)
  (occ bOcc : bitVector) (sds : list Z) (tr : Z)
  : outcome (bitVector * bitVector * list Z * Z) :=
  match fuel with
  | O => Err ErrNoMPH
  | S f =>
      r <- place_keys s m occ (bv_Reset bOcc) (keys b);;
      let '(ok, bOcc) := r in
      if ok then
        occ <- bv_Merge occ bOcc;;
        sds <- go_set sds (slot b) s;;
        Ok (occ, bOcc, sds, tr)
      else try_seeds f (s + 1) m b occ bOcc sds (tr + 1)
  end.

Fixpoint place_buckets (bs : list bucket) (m : Z)
  (occ bOcc : bitVector) (sds : list Z) (tr : Z) : outcome (list Z * Z) :=
  match bs with
  | [] => Ok (sds, tr)
  | b :: bs' =>
      r <- try_seeds (Z.to_nat (_MaxSeed - 1)) 1 m b occ bOcc sds tr;;
      let '(occ, bOcc, sds, tr) := r in
      place_buckets bs' m occ bOcc sds tr
  end.

Definition Freeze (c : ChdBuilder) (load : Q) : outcome Chd :=
  if qlt load 0 || qlt 1 load then Err ErrInvalidLoad else
  let m := float_quot_u64 (Z.of_nat (length (data c))) load in
  let m := nextpow2 m in
  bs <- go_make 32 m (mkBucket 0 []);;
  sds <- go_make 8 m 0;;
  bs <- fold_left (add_to_bucket m) (data c) (Ok bs);;
  let occ := newBitVector m in
  let bOcc := newBitVector m in
  r <- place_buckets (sort_buckets bs) m occ bOcc sds 0;;
  Ok (mkChd (fst r) (snd r)).

Definition Find (c : Chd) (k : Z) : outcome Z :=
  let m := Len c in
  let h := rhash 0 k m in
  s <- go_index (seeds c) h;;
  Ok (rhash s k m).

(** [New()] followed by [Add] of each key in turn. *)
Definition build (ks : list Z) : outcome ChdBuilder :=
  fold_left (fun c k => c <- c;; Add c k) ks (Ok New).

(** ** marshal.go: the serialized Chd *)

Definition _ChdHeaderSize : Z := 8.

(** [MarshalBinary]: the bytes written and their count.  The seeds are the
    [[]uint64] of chd.go, reinterpreted by [u64sToByteSlice]. *)
Definition MarshalBinary (c : Chd) : list Z * Z :=
  let x := [1; 0; 0; 0; 0; 0; 0; 0] in
  let bs := u64sToByteSlice (seeds c) in
  (x ++ bs, Z.of_nat (length bs) + 8).

Definition UnmarshalBinaryMmap (buf : list Z) : outcome Chd :=
  hdr <- go_slice buf 0 _ChdHeaderSize;;
  v <- go_index hdr 0;;
  if negb (v =? 1) then Err ErrVersion else
  Ok (mkChd (bsToUint64Slice (skipn 8 buf)) 0).

(** marshal.go, the variant of the same file that stores the seeds as
    [[]uint32]: the same 8-byte header, then 4 bytes per seed. *)
Module Marshal32.

Definition MarshalBinary (c : Chd) : list Z * Z :=
  let x := [1; 0; 0; 0; 0; 0; 0; 0] in
  let bs := u32sToByteSlice (seeds c) in
  (x ++ bs, Z.of_nat (length bs) + 8).

Definition UnmarshalBinaryMmap (buf : list Z) : outcome Chd :=
  hdr <- go_slice buf 0 _ChdHeaderSize;;
  v <- go_index hdr 0;;
  if negb (v =? 1) then Err ErrVersion else
  Ok (mkChd (bsToUint32Slice (skipn 8 buf)) 0).

End Marshal32.

(** ** chd.go, current revision (the copy in the repository's Makefile)

    The revision of chd.go that dbreader.go is built against: the builder
    draws a 64-bit salt that [rhash] mixes in, every bucket knows its own
    slot, the seeds are [uint32] narrowed at the end to the smallest width
    that holds the largest one, and the marshalled form has a 16-byte
    header with the seed width and the salt. *)
Module Salted.

Definition _MaxSeed : Z := 65536 * 2.

(** [ChdBuilder{data, salt}]; the key set is kept as in the first revision,
    and the salt field is [bsalt] here, [salt] being the field of [Chd]. *)
Record ChdBuilder := mkBuilder { data : list Z; bsalt : Z }.

(** [New()]: [r] is the value [rand64()] reads from crypto/rand. *)
Definition New (r : Z) : outcome ChdBuilder := Ok (mkBuilder [] r).

Definition Add (c : ChdBuilder) (key : Z) : outcome ChdBuilder :=
  if existsb (Z.eqb key) (data c) then Err ErrDupKey
  else Ok (mkBuilder (data c ++ [key]) (bsalt c)).

(** [New()] with the random value [r], then [Add] of each key in turn. *)
Definition build (r : Z) (ks : list Z) : outcome ChdBuilder :=
  fold_left (fun c k => c <- c;; Add c k) ks (New r).

Definition rhash (seed key sz salt : Z) : Z :=
  let m := Z.of_N 0x880355f21e6d1965 in
  let h := key in
  let h := mul64 h m in
  let h := Z.lxor h (mix salt) in
  let h := mul64 h m in
  let h := Z.lxor h (mix seed) in
  let h := mul64 h m in
  Z.land (mix h) (sub64 sz 1).

(** The [seeder] interface and its three implementations. *)
Inductive seeder :=
| u8Seeder (seeds : list Z)
| u16Seeder (seeds : list Z)
| u32Seeder (seeds : list Z).

Definition newU8 (v : list Z) : seeder := u8Seeder (map (fun a => Z.land a 0xff) v).
Definition newU16 (v : list Z) : seeder := u16Seeder (map (fun a => Z.land a 0xffff) v).
Definition newU32 (v : list Z) : seeder := u32Seeder v.

Definition seeds_of (u : seeder) : list Z :=
  match u with u8Seeder l | u16Seeder l | u32Seeder l => l end.

(** [seed(v)]: [uint32(u.seeds[v])]. *)
Definition seed_at (u : seeder) (v : Z) : outcome Z := go_index (seeds_of u) v.

Definition seed_length (u : seeder) : Z := Z.of_nat (length (seeds_of u)).

Definition seedsize (u : seeder) : Z :=
  match u with u8Seeder _ => 1 | u16Seeder _ => 2 | u32Seeder _ => 4 end.

(** [marshal(w)]: the bytes handed to [writeAll]. *)
Definition marshal (u : seeder) : list Z :=
  match u with
  | u8Seeder l => l
  | u16Seeder l => u16sToByteSlice l
  | u32Seeder l => u32sToByteSlice l
  end.

Definition makeSeeds (s : list Z) (max : Z) : seeder :=
  if max <? 256 then newU8 s
  else if max <? 65536 then newU16 s
  else newU32 s.

Record Chd := mkChd { seed : seeder; salt : Z; tries : Z }.

Definition SeedSize (c : Chd) : Z := seedsize (seed c).

Definition Len (c : Chd) : Z := seed_length (seed c).

(** [for i := range buckets { b.slot = uint64(i) }] *)
Fixpoint set_slots (i : Z) (bs : list bucket) : list bucket :=
  match bs with
  | [] => []
  | b :: bs' => mkBucket i (keys b) :: set_slots (i + 1) bs'
  end.

Definition add_to_bucket (m salt : Z) (bs : outcome (list bucket)) (key : Z)
  : outcome (list bucket) :=
  bs <- bs;;
  let j := rhash 0 key m salt in
  b <- go_index bs j;;
  go_set bs j (mkBucket (slot b) (keys b ++ [key])).

Fixpoint place_keys (s m salt : Z) (occ bOcc : bitVector) (ks : list Z)
  : outcome (bool * bitVector) :=
  match ks with
  | [] => Ok (true, bOcc)
  | key :: ks' =>
      let h := rhash s key m salt in
      a <- bv_IsSet occ h;;
      if a then Ok (false, bOcc) else
      b <- bv_IsSet bOcc h;;
      if b then Ok (false, bOcc) else
      bOcc <- bv_Set bOcc h;;
      place_keys s m salt occ bOcc ks'
  end.

(** [for s := uint32(1); s < _MaxSeed; s++ { ... }] for one bucket, with
    [maxseed] raised to [s] when the bucket takes seed [s]. *)
Fixpoint try_seeds (fuel : nat) (s m salt : Z) (b : bucket)
  (occ bOcc : bitVector) (sds : list Z) (maxseed tr : Z)
  : outcome (bitVector * bitVector * list Z * Z * Z) :=
  match fuel with
  | O => Err ErrNoMPH
  | S f =>
      r <- place_keys s m salt occ (bv_Reset bOcc) (keys b);;
      let '(ok, bOcc) := r in
      if ok then
        occ <- bv_Merge occ bOcc;;
        sds <- go_set sds (slot b) s;;
        let maxseed := if maxseed <? s then s else maxseed in
        Ok (occ, bOcc, sds, maxseed, tr)
      else try_seeds f (s + 1) m salt b occ bOcc sds maxseed (tr + 1)
  end.

Fixpoint place_buckets (bs : list bucket) (m salt : Z)
  (occ bOcc : bitVector) (sds : list Z) (maxseed tr : Z) : outcome (list Z * Z * Z) :=
  match bs with
  | [] => Ok (sds, maxseed, tr)
  | b :: bs' =>
      r <- try_seeds (Z.to_nat (_MaxSeed - 1)) 1 m salt b occ bOcc sds maxseed tr;;
      let '(occ, bOcc, sds, maxseed, tr) := r in
      place_buckets bs' m salt occ bOcc sds maxseed tr
  end.

Definition Freeze (c : ChdBuilder) (load : Q) : outcome Chd :=
  if qlt load 0 || qlt 1 load then Err ErrInvalidLoad else
  let m := float_quot_u64 (Z.of_nat (length (data c))) load in
  let m := nextpow2 m in
  bs <- go_make 32 m (mkBucket 0 []);;
  sds <- go_make 4 m 0;;
  let bs := set_slots 0 bs in
  bs <- fold_left (add_to_bucket m (bsalt c)) (data c) (Ok bs);;
  let occ := newBitVector m in
  let bOcc := newBitVector m in
  r <- place_buckets (sort_buckets bs) m (bsalt c) occ bOcc sds 0 0;;
  let '(sds, maxseed, tries) := r in
  Ok (mkChd (makeSeeds sds maxseed) (bsalt c) tries).

Definition Find (c : Chd) (k : Z) : outcome Z :=
  let m := Len c in
  let h := rhash 0 k m (salt c) in
  s <- seed_at (seed c) h;;
  Ok (rhash s k m (salt c)).

Definition _ChdHeaderSize : Z := 16.

(** [MarshalBinary]: the bytes written and their count. *)
Definition MarshalBinary (c : Chd) : list Z * Z :=
  let x := [1; SeedSize c; 0; 0; 0; 0; 0; 0] ++ le64 (salt c) in
  let bs := marshal (seed c) in
  (x ++ bs, 16 + Z.of_nat (length bs)).

Definition UnmarshalBinaryMmap (buf : list Z) : outcome Chd :=
  hdr <- go_slice buf 0 _ChdHeaderSize;;
  v <- go_index hdr 0;;
  if negb (v =? 1) then Err ErrVersion else
  size <- go_index hdr 1;;
  let salt := le_value (skipn 8 hdr) in
  let vals := skipn (Z.to_nat _ChdHeaderSize) buf in
  if size =? 1 then Ok (mkChd (u8Seeder vals) salt 0)
  else if size =? 2 then
    if negb (Z.of_nat (length vals) mod 2 =? 0) then Err ErrPartialSeeds
    else Ok (mkChd (u16Seeder (bsToUint16Slice vals)) salt 0)
  else if size =? 4 then
    if negb (Z.of_nat (length vals) mod 4 =? 0) then Err ErrPartialSeeds
    else Ok (mkChd (u32Seeder (bsToUint32Slice vals)) salt 0)
  else Err ErrSeedSize.

End Salted.

(** ** dbwriter.go *)

(** [type value struct { off uint64; vlen uint32 }] *)
Module Value.
Record value := mk { off : Z; vlen : Z }.
End Value.

Definition magic : list Z := [67; 72; 68; 66]. (* "CHDB" *)

Module Writer.

(** The file being written is its contents [fd]; the writes of the source
    append at the end of it, except the final header write at offset 0. *)
Record DBWriter := mk {
  fd : list Z;
  bb : ChdBuilder;
  keymap : list (Z * Value.value);
  salt : list Z;
  off : Z;
  frozen : bool }.

(** [NewDBWriter]: [salt] is [randbytes(16)]. *)
Definition NewDBWriter (salt : list Z) : outcome DBWriter :=
  Ok (mk (repeat 0 64) New [] salt 64 false).

Definition with_fd (w : DBWriter) (fd' : list Z) (off' : Z) : DBWriter :=
  mk fd' (bb w) (keymap w) (salt w) off' (frozen w).

Definition writeRecord (w : DBWriter) (val : list Z) (o : Z) : DBWriter :=
  let c := be64 (SipHash.sum64 (salt w) (be64 o ++ val)) in
  with_fd w (fd w ++ c ++ val) (add64 (off w) (Z.of_nat (length val) + 8)).

Definition addRecord (w : DBWriter) (key : Z) (val : list Z)
  : outcome (bool * DBWriter) :=
  if 2 ^ 32 - 1 <? Z.of_nat (length val) then Err ErrValueTooLarge else
  if existsb (fun p => fst p =? key) (keymap w) then Err ErrExists else
  bb' <- Add (bb w) key;;
  let v := Value.mk (off w) (Z.of_nat (length val) mod 2 ^ 32) in
  let w := mk (fd w) bb' (keymap w ++ [(key, v)]) (salt w) (off w) (frozen w) in
  if (0 <? Z.of_nat (length val)) then Ok (true, writeRecord w val (Value.off v))
  else Ok (true, w).

Definition Add (w : DBWriter) (key : Z) (val : list Z) : outcome (bool * DBWriter) :=
  if frozen w then Err ErrFrozen else addRecord w key val.


(** [marshalOffsets]: the offset table ([offset[2i] = off],
    [offset[2i+1] = key] at [i = c.Find(key)]) and the value-length table,
    as the bytes written. *)
Definition place (c : Chd) (tb : outcome (list Z * list Z)) (kv : Z * Value.value)
  : outcome (list Z * list Z) :=
  tb <- tb;;
  let '(offset, vlen) := tb in
  let '(k, r) := kv in
  i <- Find c k;;
  vlen <- go_set vlen i (Value.vlen r);;
  let j := mul64 i 2 in
  offset <- go_set offset j (Value.off r);;
  offset <- go_set offset (add64 j 1) k;;
  Ok (offset, vlen).

Definition offset_tables (w : DBWriter) (c : Chd) : outcome (list Z * list Z) :=
  let n := Len c in
  fold_left (place c) (keymap w) (Ok (repeat 0 (Z.to_nat (2 * n)), repeat 0 (Z.to_nat n))).

Definition marshalOffsets (w : DBWriter) (c : Chd) : outcome (list Z * Z) :=
  tb <- offset_tables w c;;
  let n := Len c in
  Ok (u64sToByteSlice (fst tb) ++ u32sToByteSlice (snd tb), add64 (off w) (n * 20)).

(** The 64-byte header, all integers big-endian. *)
Definition header (w : DBWriter) (n offtbl : Z) : list Z :=
  magic ++ [0; 0; 0; 0] ++ salt w ++ be64 n ++ be64 offtbl
  ++ repeat 0 (64 - 24 - length (salt w)).

(** [Freeze(load)] with [os.Getpagesize() = pgsz]: the contents of the file
    renamed to its final name. *)
Definition Freeze (w : DBWriter) (load : Q) (pgsz : Z) : outcome (list Z) :=
  if frozen w then Err ErrFrozen else
  c <- match Freeze (bb w) load with
       | Ok c => Ok c
       | Err _ => Err ErrMPHFail
       | Panic p => Panic p
       end;;
  let pgsz_m1 := pgsz - 1 in
  let offtbl := Z.land (add64 (off w) pgsz_m1) (not64 pgsz_m1) in
  let '(fd1, off1) :=
    if off w <? offtbl then (fd w ++ repeat 0 (Z.to_nat (offtbl - off w)), offtbl)
    else (fd w, off w) in
  let ehdr := header w (Len c) offtbl in
  (* h: the bytes fed to the SHA-512/256 accumulator *)
  let h := ehdr in
  mo <- marshalOffsets (with_fd w fd1 off1) c;;
  let '(tb, off2) := mo in
  let fd2 := fd1 ++ tb in
  let h := h ++ tb in
  let offtbl := Z.land (add64 off2 7) (not64 7) in
  let '(fd3, h, off3) :=
    if off2 <? offtbl then
      let z := repeat 0 (Z.to_nat (offtbl - off2)) in (fd2 ++ z, h ++ z, offtbl)
    else (fd2, h, off2) in
  let '(cb, nw) := MarshalBinary c in
  let fd4 := fd3 ++ cb in
  let h := h ++ cb in
  let fd5 := fd4 ++ Sha512_256.digest h in
  Ok (ehdr ++ skipn 64 fd5).

(** [NewDBWriter], then [Add] of each pair in turn. *)
Definition add_all (salt : list Z) (kvs : list (Z * list Z)) : outcome DBWriter :=
  fold_left (fun w kv => w <- w;; r <- Add w (fst kv) (snd kv);; Ok (snd r))
    kvs (NewDBWriter salt).

(** [Len()]: the number of distinct keys added. *)
Definition Len (w : DBWriter) : Z := Z.of_nat (length (keymap w)).

(** The loop of [AddKeyVals] over the pairs [keys[i], vals[i]]: the count
    of records added, the error that stopped it if any, and the writer. *)
Fixpoint add_pairs (w : DBWriter) (kvs : list (Z * list Z)) (z : Z)
  : outcome (Z * option err * DBWriter) :=
  match kvs with
  | [] => Ok (z, None, w)
  | (k, v) :: kvs' =>
      match addRecord w k v with
      | Ok (ok, w') => add_pairs w' kvs' (if ok then z + 1 else z)
      | Err e => Ok (z, Some e, w)
      | Panic p => Panic p
      end
  end.

(** [AddKeyVals(keys, vals)]: the first [min(len(keys), len(vals))] pairs. *)
Definition AddKeyVals (w : DBWriter) (keys : list Z) (vals : list (list Z))
  : outcome (Z * option err * DBWriter) :=
  if frozen w then Ok (0, Some ErrFrozen, w) else add_pairs w (combine keys vals) 0.

End Writer.

(** ** dbreader.go *)

(** Modelled from the spec: the flag constant [_DB_KeysOnly] is not among
    the sources; the spec's "keys-only variant flag in the header" is taken
    as bit 0 of [flags].  The writer always stores [flags = 0], so no file it
    writes takes the keys-only paths. *)
Definition _DB_KeysOnly : Z := 1.

Module Reader.

(** The reader's file handle is the file's contents [fd] (the file is
    immutable once written; every read seeks to an absolute offset).  The
    [lru.ARCCache] is a bounded association list, newest first. *)
Record DBReader := mk {
  chd : Chd;
  cache : list (Z * list Z);
  cache_size : Z;
  flags : Z;
  offset : list Z;
  vlen : list Z;
  nkeys : Z;
  salt : list Z;
  offtbl : Z;
  fd : list Z }.

Definition cache_get (rd : DBReader) (k : Z) : option (list Z) :=
  match find (fun p => fst p =? k) (cache rd) with
  | Some p => Some (snd p)
  | None => None
  end.

Definition cache_add (rd : DBReader) (k : Z) (v : list Z) : DBReader :=
  mk (chd rd) (firstn (Z.to_nat (cache_size rd)) ((k, v) :: cache rd)) (cache_size rd)
    (flags rd) (offset rd) (vlen rd) (nkeys rd) (salt rd) (offtbl rd) (fd rd).

Definition keys_only (flags : Z) : bool := 0 <? Z.land flags _DB_KeysOnly.

(** [decodeHeader]: flags, salt, nkeys and offtbl. *)
Definition decodeHeader (b : list Z) (sz : Z) : outcome (Z * list Z * Z * Z) :=
  if negb (forallb (fun p => fst p =? snd p) (combine (firstn 4 b) magic)) then
    Err ErrBadMagic else
  let flags := be_value (firstn 4 (skipn 4 b)) in
  let salt := firstn 16 (skipn 8 b) in
  let nkeys := be_value (firstn 8 (skipn 24 b)) in
  let offtbl := be_value (firstn 8 (skipn 32 b)) in
  if (offtbl <? 64) || (u64 (sz - 32) <=? offtbl) then Err ErrCorruptHeader0 else
  Ok (flags, salt, nkeys, offtbl).

(** [verifyChecksum]: SHA-512/256 of the header and of [offtbl, sz-32)
    against the 32-byte trailer. *)
Definition verifyChecksum (fd hdrb : list Z) (offtbl sz : Z) : outcome unit :=
  let remsz := sz - offtbl - 32 in
  let meta := firstn (Z.to_nat remsz) (skipn (Z.to_nat offtbl) fd) in
  let expsum := skipn (Z.to_nat (sz - 32)) fd in
  if forallb (fun p => fst p =? snd p) (combine (Sha512_256.digest (hdrb ++ meta)) expsum)
  then Ok tt else Err ErrChecksum.

(** [NewDBReader(fn, cache)] on a file with contents [fd]; [syscall.Mmap]
    needs [offtbl] to be a multiple of the page size [pgsz]. *)
Definition NewDBReader (fd : list Z) (cache pgsz : Z) : outcome DBReader :=
  let cache := if cache <=? 0 then 128 else cache in
  let sz := Z.of_nat (length fd) in
  if sz <? 64 + 32 then Err ErrTooSmall else
  let hdrb := firstn 64 fd in
  hd <- decodeHeader hdrb sz;;
  let '(flags, salt, nkeys, offtbl) := hd in
  _ <- verifyChecksum fd hdrb offtbl sz;;
  let tblsz := if keys_only flags then mul64 nkeys 8 else mul64 nkeys (8 + 8 + 4) in
  if sz <? add64 (64 + 32) tblsz then Err ErrCorruptHeader1 else
  let mmapsz := sz - offtbl - 32 in
  if negb (offtbl mod pgsz =? 0) then Err ErrIO else
  let bs := firstn (Z.to_nat mmapsz) (skipn (Z.to_nat offtbl) fd) in
  let offsz := if keys_only flags then mul64 nkeys 8 else mul64 nkeys (8 + 8) in
  let vlensz := if keys_only flags then 0 else mul64 nkeys 4 in
  o <- go_slice bs 0 offsz;;
  vl <- (if 0 <? vlensz then
           x <- go_slice bs offsz (add64 offsz vlensz);; Ok (bsToUint32Slice x)
         else Ok []);;
  rest <- go_slice bs (add64 offsz vlensz) (Z.of_nat (length bs));;
  c <- match UnmarshalBinaryMmap rest with
       | Ok c => Ok c
       | Err e => Err (ErrUnmarshal e)
       | Panic p => Panic p
       end;;
  Ok (mk c [] cache flags (bsToUint64Slice o) vl nkeys salt offtbl fd).

(** [decodeRecord(off, vlen)]: seek to [off], read [vlen+8] bytes (a uint32
    sum), check the big-endian SipHash checksum in front of the value. *)
Definition decodeRecord (rd : DBReader) (off vlen : Z) : outcome (list Z) :=
  if 2 ^ 63 <=? off then Err ErrIO else        (* Seek: negative int64 offset *)
  let n := (vlen + 8) mod 2 ^ 32 in
  let sz := Z.of_nat (length (fd rd)) in
  if (0 <? n) && (sz <? off + n) then Err ErrIO else  (* io.ReadFull: EOF *)
  let data := firstn (Z.to_nat n) (skipn (Z.to_nat off) (fd rd)) in
  c <- go_slice data 0 8;;
  let csum := be_value c in
  let exp := SipHash.sum64 (salt rd) (be64 off ++ skipn 8 data) in
  if negb (csum =? exp) then Err ErrCorruptRecord else
  Ok (skipn 8 data).

(** [Find(key)]: the value, or an error; a successful read is cached. *)
Definition find_value (rd : DBReader) (key : Z) : outcome (list Z) :=
  i <- Find (chd rd) key;;
  if keys_only (flags rd) then
    hash <- go_index (offset rd) i;;
    if negb (hash =? key) then Err ErrNoKey else Ok []
  else
    let j := mul64 i 2 in
    hash <- go_index (offset rd) j;;
    if negb (hash =? key) then Err ErrNoKey else
    vlen <- go_index (vlen rd) i;;
    off <- go_index (offset rd) (add64 j 1);;
    decodeRecord rd off vlen.

Definition Find (rd : DBReader) (key : Z) : DBReader * outcome (list Z) :=
  match cache_get rd key with
  | Some v => (rd, Ok v)
  | None =>
      match find_value rd key with
      | Ok v => (cache_add rd key v, Ok v)
      | r => (rd, r)
      end
  end.

(** [Len()]: the number of keys the header records. *)
Definition Len (rd : DBReader) : Z := nkeys rd.

(** [Lookup(key)]: [(v, true)], or [(nil, false)] on any error; a nil slice
    is the empty list. *)
Definition Lookup (rd : DBReader) (key : Z) : DBReader * outcome (list Z * bool) :=
  let '(rd', r) := Find rd key in
  match r with
  | Ok v => (rd', Ok (v, true))
  | Err _ => (rd', Ok ([], false))
  | Panic p => (rd', Panic p)
  end.

End Reader.

(** ** Whole-database runs *)

(** [NewDBWriter], [Add] of every pair, [Freeze(load)]: the file written. *)
Definition write_db (salt : list Z) (kvs : list (Z * list Z)) (load : Q) (pgsz : Z)
  : outcome (list Z) :=
  w <- Writer.add_all salt kvs;; Writer.Freeze w load pgsz.

(** [NewDBReader] on the file written (cache of 128 entries). *)
Definition open_db (f : outcome (list Z)) (pgsz : Z) : outcome Reader.DBReader :=
  fd <- f;; Reader.NewDBReader fd 128 pgsz.

Definition salt0 : list Z := map Z.of_nat (seq 0 16).
Definition hello : list Z := [104; 101; 108; 108; 111].
Definition world : list Z := [119; 111; 114; 108; 100].

(** The databases the lemmas below open: two keys with the values "hello"
    and "world"; two keys with one-byte values; no key at all. *)
Definition db_hello : outcome (list Z) :=
  write_db salt0 [(0xdead, hello); (0xbeef, world)] (1#2) 4096.
Definition db_ab : outcome (list Z) :=
  write_db salt0 [(73, [97]); (33, [98])] (1#2) 4096.
Definition db_empty : outcome (list Z) := write_db salt0 [] (9#10) 4096.


(** The largest seed, 0 for none: the [maxseed] that the current [Freeze]
    keeps while it places the buckets. *)
Definition max_seed (s : list Z) : Z := fold_right Z.max 0 s.

(** The realization of [H(seed, key, m, salt)] that the spec's section 4.1
    gives, written from the spec to compare with the code's [Salted.rhash]. *)
Definition rhash_spec (seed key m salt : Z) : Z :=
  let c := Z.of_N 0x880355f21e6d1965 in
  let h := mul64 key c in
  let h := Z.lxor h (mix salt) in
  let h := mul64 h c in
  let h := Z.lxor h (mix seed) in
  let h := mul64 h c in
  Z.land (mix h) (sub64 m 1).

(** The bit-smearing cascade inside [nextpow2]. *)
Definition smear_step (x s : Z) : Z := Z.lor x (Z.shiftr x s).

Definition smear (x : Z) : Z :=
  smear_step (smear_step (smear_step (smear_step (smear_step (smear_step x 1) 2) 4) 8) 16) 32.

(** Bit [i] of the word after the steps so far is set iff one of the
    [r] bits from [i] upwards of [x] is. *)
Definition reach (x y r : Z) : Prop :=
  forall i, 0 <= i ->
    (Z.testbit y i = true <-> exists d, 0 <= d < r /\ Z.testbit x (i + d) = true).

(** ** Predicates of the lemmas on the writer, the byte encodings and SipHash *)

(** A byte value. *)
Definition is_byte (x : Z) : Prop := 0 <= x < 256.

(** What every [DBWriter] reached from [NewDBWriter] satisfies: the keys of
    [keymap] are those added to the [Chd] builder, in order, and [off] is the
    size of the file written so far. *)
Definition writer_inv (w : Writer.DBWriter) : Prop :=
  map fst (Writer.keymap w) = data (Writer.bb w) /\
  Writer.off w = Z.of_nat (length (Writer.fd w)) mod W64.

(** A uint64 value, and a SipHash state of four of them. *)
Definition in64 (x : Z) : Prop := 0 <= x < W64.

Definition in64_4 (v : Z * Z * Z * Z) : Prop :=
  let '(a, b, c, d) := v in in64 a /\ in64 b /\ in64 c /\ in64 d.

Ltac split4 := cbn [in64_4]; split; [ | split; [ | split]].

(** Decide the comparisons of a goal with [lia], then simplify the
    boolean connectives. *)
Ltac evalb :=
  repeat match goal with
  | |- context [?a <=? ?b] =>
      first [rewrite (proj2 (Z.leb_le a b)) by lia | rewrite (proj2 (Z.leb_gt a b)) by lia]
  | |- context [?a <? ?b] =>
      first [rewrite (proj2 (Z.ltb_lt a b)) by lia | rewrite (proj2 (Z.ltb_ge a b)) by lia]
  end;
  rewrite ?andb_true_l, ?andb_false_l, ?andb_true_r, ?andb_false_r, ?orb_false_l, ?orb_false_r.

(** ** Sanity checks of the library hashes and of [nextpow2] *)

Example nextpow2_ex : map nextpow2 [0; 1; 2; 3; 5; 1111] = [0; 1; 2; 4; 8; 2048].
Proof. vm_compute. reflexivity. Qed.

Example siphash_vector :
  SipHash.sum64 (map Z.of_nat (seq 0 16)) (map Z.of_nat (seq 0 15))
  = Z.of_N 0xa129ca6149be45e5.
Proof. vm_compute. reflexivity. Qed.

Example sha512_256_abc :
  Sha512_256.digest [97; 98; 99] =
  be_bytes 32 (Z.of_N 0x53048e2681941ef99b2e29b76b4c7dabe4c2d0c634fc6d46e0e2f13107e7af23).
Proof. vm_compute. reflexivity. Qed.
(** ** nextpow2 *)

Lemma nextpow2_smear n : nextpow2 n = add64 (smear (sub64 n 1)) 1.
Proof. reflexivity. Qed.

Lemma reach_start x : reach x x 1.
Proof.
  intros i Hi; split.
  - intros H. exists 0. rewrite Z.add_0_r. split; [lia | exact H].
  - intros [d [Hd H]]. assert (d = 0) by lia. subst d. rewrite Z.add_0_r in H. exact H.
Qed.

Lemma reach_step x y r : 0 < r -> reach x y r -> reach x (smear_step y r) (2 * r).
Proof.
  intros Hr Hy i Hi. unfold smear_step.
  rewrite Z.lor_spec, Z.shiftr_spec by lia.
  rewrite Bool.orb_true_iff, (Hy i Hi), (Hy (i + r)) by lia.
  split.
  - intros [[d [Hd H]] | [d [Hd H]]].
    + exists d. split; [lia | exact H].
    + exists (r + d). split; [lia | now rewrite Z.add_assoc].
  - intros [d [Hd H]].
    destruct (Z.lt_ge_cases d r).
    + left. exists d. split; [lia | exact H].
    + right. exists (d - r). split; [lia | ].
      replace (i + r + (d - r)) with (i + d) by lia. exact H.
Qed.

Lemma reach_smear x : reach x (smear x) 64.
Proof.
  unfold smear.
  change 64 with (2 * 32). apply reach_step; [lia | ].
  change 32 with (2 * 16). apply reach_step; [lia | ].
  change 16 with (2 * 8). apply reach_step; [lia | ].
  change 8 with (2 * 4). apply reach_step; [lia | ].
  change 4 with (2 * 2). apply reach_step; [lia | ].
  change 2 with (2 * 1). apply reach_step; [lia | ].
  apply reach_start.
Qed.

Lemma smear_ones x : 0 < x < 2 ^ 64 -> smear x = Z.ones (Z.log2 x + 1).
Proof.
  intros Hx.
  assert (Hlog : Z.log2 x < 64) by (apply Z.log2_lt_pow2; lia).
  assert (Hl0 : 0 <= Z.log2 x) by apply Z.log2_nonneg.
  apply Z.bits_inj'. intros i Hi.
  rewrite Z.testbit_ones_nonneg by lia.
  destruct (Z.ltb_spec i (Z.log2 x + 1)) as [Hlt | Hge].
  - apply (reach_smear x i Hi). exists (Z.log2 x - i). split; [lia | ].
    replace (i + (Z.log2 x - i)) with (Z.log2 x) by lia. apply Z.bit_log2. lia.
  - destruct (Z.testbit (smear x) i) eqn:E; [ | reflexivity].
    apply (reach_smear x i Hi) in E. destruct E as [d [Hd H]].
    rewrite Z.bits_above_log2 in H by lia. discriminate.
Qed.

Lemma smear_zero : smear 0 = 0.
Proof. reflexivity. Qed.

Lemma nextpow2_pow2 n :
  1 <= n <= 2 ^ 63 -> exists k, 0 <= k <= 63 /\ nextpow2 n = 2 ^ k /\ n <= 2 ^ k < 2 * n.
Proof.
  intros Hn. rewrite nextpow2_smear.
  assert (Hs : sub64 n 1 = n - 1) by (unfold sub64, u64, W64; apply Z.mod_small; lia).
  rewrite Hs.
  destruct (Z.eq_dec n 1) as [-> | Hn1].
  - exists 0. simpl. split; [lia | split; [reflexivity | lia]].
  - rewrite smear_ones by lia.
    assert (Hspec := Z.log2_spec (n - 1) ltac:(lia)).
    assert (Hk : Z.log2 (n - 1) < 63) by (apply Z.log2_lt_pow2; lia).
    assert (Hk0 : 0 <= Z.log2 (n - 1)) by apply Z.log2_nonneg.
    set (L := Z.log2 (n - 1)) in *.
    rewrite Z.pow_succ_r in Hspec by lia.
    assert (HL : 2 ^ (L + 1) = 2 * 2 ^ L) by (rewrite Z.pow_add_r by lia; lia).
    assert (2 ^ L <= 2 ^ 62) by (apply Z.pow_le_mono_r; lia).
    exists (L + 1). rewrite Z.ones_equiv, HL.
    split; [lia | split].
    + unfold add64, u64, W64. rewrite Z.add_1_r, Z.succ_pred.
      apply Z.mod_small. change (2 ^ 64) with (4 * 2 ^ 62). lia.
    + lia.
Qed.

(** ** Freeze keeps the seed table at the length it allocates *)

Lemma set_nth_length {A} (l : list A) n v : length (set_nth l n v) = length l.
Proof.
  revert n; induction l as [| x t IH]; intros [| n]; simpl; auto.
Qed.

Lemma go_set_length {A} (l l' : list A) i v : go_set l i v = Ok l' -> length l' = length l.
Proof.
  unfold go_set. destruct (_ && _); intros H; inversion H; subst.
  apply set_nth_length.
Qed.

Lemma go_make_ok {A} e m (z : A) l : go_make e m z = Ok l -> l = repeat z (Z.to_nat m).
Proof. unfold go_make. destruct (_ <? _); intros H; inversion H; reflexivity. Qed.

Lemma try_seeds_length fuel s m b occ bOcc sds tr occ' bOcc' sds' tr' :
  try_seeds fuel s m b occ bOcc sds tr = Ok (occ', bOcc', sds', tr') ->
  length sds' = length sds.
Proof.
  revert s occ bOcc tr.
  induction fuel as [| f IH]; intros s occ bOcc tr H; cbn [try_seeds] in H; [discriminate | ].
  destruct (place_keys s m occ (bv_Reset bOcc) (keys b)) as [[ok bo] | | ];
    cbn [bind] in H; try discriminate.
  destruct ok.
  - destruct (bv_Merge occ bo) as [o | | ]; cbn [bind] in H; try discriminate.
    destruct (go_set sds (slot b) s) as [l | | ] eqn:E; cbn [bind] in H; try discriminate.
    inversion H; subst. eapply go_set_length; eassumption.
  - eapply IH; eassumption.
Qed.

Lemma place_buckets_length bs m occ bOcc sds tr sds' tr' :
  place_buckets bs m occ bOcc sds tr = Ok (sds', tr') -> length sds' = length sds.
Proof.
  revert occ bOcc sds tr.
  induction bs as [| b bs IH]; intros occ bOcc sds tr H; cbn [place_buckets] in H.
  - inversion H; reflexivity.
  - destruct (try_seeds _ 1 m b occ bOcc sds tr) as [[[[o bo] l] t] | | ] eqn:E;
      cbn [bind] in H; try discriminate.
    rewrite (IH _ _ _ _ H). eapply try_seeds_length; eassumption.
Qed.

Lemma nextpow2_nonneg n : 0 <= nextpow2 n.
Proof.
  rewrite nextpow2_smear. unfold add64, u64, W64. apply Z.mod_pos_bound. lia.
Qed.

Lemma freeze_len c load ch :
  Freeze c load = Ok ch ->
  Len ch = nextpow2 (float_quot_u64 (Z.of_nat (length (data c))) load).
Proof.
  unfold Freeze. cbv zeta.
  destruct (_ || _); [discriminate | ].
  set (m := nextpow2 _).
  destruct (go_make 32 m _) as [bs | | ]; cbn [bind]; try discriminate.
  destruct (go_make 8 m 0) as [sds | | ] eqn:E2; cbn [bind]; try discriminate.
  destruct (fold_left _ _ _) as [bs' | | ]; cbn [bind]; try discriminate.
  destruct (place_buckets _ _ _ _ _ _) as [[sds' tr'] | | ] eqn:E3;
    cbn [bind]; try discriminate.
  intros H; inversion H; subst; clear H.
  unfold Len; cbn [seeds]. rewrite (place_buckets_length _ _ _ _ _ _ _ _ E3).
  apply go_make_ok in E2. subst sds. rewrite repeat_length.
  apply Z2Nat.id. apply nextpow2_nonneg.
Qed.

(** ** Machine-word facts about the hash primitive *)

Lemma not64_sub x : 0 <= x < W64 -> not64 x = W64 - 1 - x.
Proof.
  unfold not64, W64. intros Hx.
  assert (Ho : 2 ^ 64 - 1 = Z.ones 64) by reflexivity.
  rewrite Ho.
  assert (Hl : Z.land x (Z.lxor x (Z.ones 64)) = 0).
  { apply Z.bits_inj'. intros i Hi. rewrite Z.land_spec, Z.lxor_spec, Z.bits_0.
    destruct (Z.lt_ge_cases i 64) as [H | H].
    - rewrite Z.testbit_ones_nonneg by lia.
      rewrite (proj2 (Z.ltb_lt i 64) H).
      destruct (Z.testbit x i); reflexivity.
    - assert (Hb : Z.testbit x i = false).
      { apply Z.bits_above_log2; [lia | ].
        destruct (Z.eq_dec x 0) as [-> | ]; [simpl; lia | ].
        assert (Z.log2 x < 64) by (apply Z.log2_lt_pow2; lia). lia. }
      rewrite Hb. reflexivity. }
  apply Z.add_nocarry_lxor in Hl.
  rewrite <- Z.lxor_assoc, Z.lxor_nilpotent, Z.lxor_0_l in Hl. lia.
Qed.

(** [key + ^seed] only depends on [key - seed]. *)
Lemma rhash_shift seed key sz :
  0 <= seed < W64 - 1 -> rhash (seed + 1) (key + 1) sz = rhash seed key sz.
Proof.
  intros Hs. unfold rhash.
  assert (E : add64 (key + 1) (not64 (seed + 1)) = add64 key (not64 seed)).
  { rewrite !not64_sub by lia. unfold add64. f_equal. lia. }
  rewrite E. reflexivity.
Qed.

Lemma pow2_bound k : 0 <= k <= 63 -> 0 < 2 ^ k <= 2 ^ 63.
Proof.
  intros Hk. split; [apply Z.pow_pos_nonneg; lia | apply Z.pow_le_mono_r; lia].
Qed.

Lemma sub64_pow2 k : 0 <= k <= 63 -> sub64 (2 ^ k) 1 = Z.ones k.
Proof.
  intros Hk. pose proof (pow2_bound k Hk).
  unfold sub64, u64, W64. rewrite Z.mod_small.
  - rewrite Z.ones_equiv. lia.
  - change (2 ^ 64) with (2 * 2 ^ 63). lia.
Qed.

Lemma rhash_range seed key k : 0 <= k <= 63 -> 0 <= rhash seed key (2 ^ k) < 2 ^ k.
Proof.
  intros Hk. unfold rhash. cbv zeta.
  rewrite sub64_pow2, Z.land_ones by lia.
  apply Z.mod_pos_bound. apply Z.pow_pos_nonneg; lia.
Qed.

(** ** nextpow2 is zero or a power of two *)

Lemma nextpow2_zero_or_pow2 n :
  0 <= n < W64 -> nextpow2 n = 0 \/ exists k, 0 <= k <= 63 /\ nextpow2 n = 2 ^ k.
Proof.
  intros Hn. unfold W64 in Hn.
  destruct (Z.eq_dec n 0) as [-> | Hn0]; [left; reflexivity | ].
  destruct (Z.le_gt_cases n (2 ^ 63)) as [Hle | Hgt].
  - right. destruct (nextpow2_pow2 n ltac:(lia)) as [k [Hk [E _]]]. eauto.
  - left. rewrite nextpow2_smear.
    assert (Hs : sub64 n 1 = n - 1) by (unfold sub64, u64, W64; apply Z.mod_small; lia).
    rewrite Hs, smear_ones by lia.
    assert (Hl : Z.log2 (n - 1) = 63).
    { apply Z.log2_unique; [lia | ]. change (63 + 1) with 64. lia. }
    rewrite Hl. reflexivity.
Qed.

Lemma lor_bound a b n :
  0 < n -> 0 <= a < 2 ^ n -> 0 <= b < 2 ^ n -> 0 <= Z.lor a b < 2 ^ n.
Proof.
  intros Hn Ha Hb. split; [apply Z.lor_nonneg; lia | ].
  destruct (Z.eq_dec (Z.lor a b) 0) as [E | E]; [rewrite E; lia | ].
  apply Z.log2_lt_pow2; [pose proof (Z.lor_nonneg a b); lia | ].
  rewrite Z.log2_lor by lia. apply Z.max_lub_lt.
  - destruct (Z.eq_dec a 0) as [-> | Ha0]; [cbn; lia | apply Z.log2_lt_pow2; lia].
  - destruct (Z.eq_dec b 0) as [-> | Hb0]; [cbn; lia | apply Z.log2_lt_pow2; lia].
Qed.

Lemma Qtrunc_nonneg x : (0 <= x)%Q -> 0 <= Qtrunc x.
Proof.
  intros Hx. unfold Qtrunc.
  replace (qlt x 0) with false.
  - change 0 with (Qfloor 0). apply Qfloor_resp_le. exact Hx.
  - symmetry. unfold qlt. apply negb_false_iff, Qle_bool_iff. exact Hx.
Qed.

Lemma float_quot_u64_range n load : 0 <= float_quot_u64 n load < W64.
Proof.
  unfold float_quot_u64, f64_to_u64, W64.
  destruct (f64_div _ _) as [x | ]; [ | lia].
  destruct (qlt x (inject_Z (2 ^ 63))) eqn:Ex.
  - destruct (_ && _); [unfold u64, W64; apply Z.mod_pos_bound; lia | lia].
  - destruct (Z.ltb_spec (Qtrunc (x - inject_Z (2 ^ 63))) (2 ^ 63)) as [Ht | Ht]; [ | lia].
    assert (H0 : 0 <= Qtrunc (x - inject_Z (2 ^ 63))).
    { apply Qtrunc_nonneg. unfold qlt in Ex. apply negb_false_iff, Qle_bool_iff in Ex.
      apply (Qplus_le_l _ _ (inject_Z (2 ^ 63))). ring_simplify. exact Ex. }
    apply lor_bound; lia.
Qed.

(** ** Errors of the builder's Freeze *)

Lemma bind_err {A B} (m : outcome A) (k : A -> outcome B) e :
  bind m k = Err e -> m = Err e \/ exists a, m = Ok a /\ k a = Err e.
Proof. destruct m; cbn; intros H; [right; eauto | left; congruence | discriminate]. Qed.

Lemma go_index_noerr {A} (l : list A) i e : go_index l i <> Err e.
Proof. unfold go_index. destruct (_ && _); [destruct (nth_error _ _) | ]; discriminate. Qed.

Lemma go_set_noerr {A} (l : list A) i v e : go_set l i v <> Err e.
Proof. unfold go_set. destruct (_ && _); discriminate. Qed.

Lemma go_make_noerr {A} esize m (z : A) e : go_make esize m z <> Err e.
Proof. unfold go_make. destruct (_ <? _); discriminate. Qed.

Lemma bv_IsSet_noerr b i e : bv_IsSet b i <> Err e.
Proof.
  unfold bv_IsSet. intros H. apply bind_err in H as [H | [a [_ H]]].
  - eapply go_index_noerr; eassumption.
  - discriminate.
Qed.

Lemma bv_Set_noerr b i e : bv_Set b i <> Err e.
Proof.
  unfold bv_Set. intros H. apply bind_err in H as [H | [a [_ H]]].
  - eapply go_index_noerr; eassumption.
  - apply bind_err in H as [H | [v [_ H]]]; [eapply go_set_noerr; eassumption | discriminate].
Qed.

Lemma merge_words_noerr v x e : merge_words v x <> Err e.
Proof.
  revert v. induction x as [| z x IH]; intros [| w v] H; cbn in H; try discriminate.
  apply bind_err in H as [H | [r [_ H]]]; [eapply IH; eassumption | discriminate].
Qed.

Lemma bv_Merge_noerr b x e : bv_Merge b x <> Err e.
Proof.
  unfold bv_Merge. intros H. apply bind_err in H as [H | [v [_ H]]].
  - eapply merge_words_noerr; eassumption.
  - discriminate.
Qed.

Lemma place_keys_noerr s m occ bOcc ks e : place_keys s m occ bOcc ks <> Err e.
Proof.
  revert bOcc. induction ks as [| key ks IH]; intros bOcc H; cbn [place_keys] in H;
    [discriminate | ].
  apply bind_err in H as [H | [a [_ H]]]; [eapply bv_IsSet_noerr; eassumption | ].
  destruct a; [discriminate | ].
  apply bind_err in H as [H | [b [_ H]]]; [eapply bv_IsSet_noerr; eassumption | ].
  destruct b; [discriminate | ].
  apply bind_err in H as [H | [b' [_ H]]]; [eapply bv_Set_noerr; eassumption | ].
  eapply IH; eassumption.
Qed.

Lemma try_seeds_err fuel s m b occ bOcc sds tr e :
  try_seeds fuel s m b occ bOcc sds tr = Err e -> e = ErrNoMPH.
Proof.
  revert s occ bOcc tr.
  induction fuel as [| f IH]; intros s occ bOcc tr H; cbn [try_seeds] in H.
  - congruence.
  - apply bind_err in H as [H | [[ok bo] [_ H]]]; [now apply place_keys_noerr in H | ].
    destruct ok; [ | eapply IH; eassumption].
    apply bind_err in H as [H | [o [_ H]]]; [now apply bv_Merge_noerr in H | ].
    apply bind_err in H as [H | [l [_ H]]]; [now apply go_set_noerr in H | ].
    discriminate.
Qed.

Lemma place_buckets_err bs m occ bOcc sds tr e :
  place_buckets bs m occ bOcc sds tr = Err e -> e = ErrNoMPH.
Proof.
  revert occ bOcc sds tr.
  induction bs as [| b bs IH]; intros occ bOcc sds tr H; cbn [place_buckets] in H;
    [discriminate | ].
  apply bind_err in H as [H | [[[[o bo] l] t] [_ H]]].
  - eapply try_seeds_err; eassumption.
  - eapply IH; eassumption.
Qed.

Lemma add_to_bucket_noerr m ks (acc : outcome (list bucket)) e :
  (forall e', acc <> Err e') -> fold_left (add_to_bucket m) ks acc <> Err e.
Proof.
  revert acc. induction ks as [| key ks IH]; intros acc Hacc; cbn [fold_left]; [apply Hacc | ].
  apply IH. intros e' H. unfold add_to_bucket in H.
  apply bind_err in H as [H | [bs [_ H]]]; [eapply Hacc; eassumption | ].
  apply bind_err in H as [H | [b [_ H]]]; [eapply go_index_noerr; eassumption | ].
  eapply go_set_noerr; eassumption.
Qed.

(** Past the load check, the only error of [Freeze] is [ErrNoMPH]. *)
Lemma freeze_err c load e :
  Freeze c load = Err e ->
  (e = ErrInvalidLoad /\ (qlt load 0 || qlt 1 load) = true) \/ e = ErrNoMPH.
Proof.
  unfold Freeze. destruct (qlt load 0 || qlt 1 load); intros H; [left; split; congruence | right].
  cbv zeta in H.
  apply bind_err in H as [H | [bs [_ H]]]; [now apply go_make_noerr in H | ].
  apply bind_err in H as [H | [sds [_ H]]]; [now apply go_make_noerr in H | ].
  apply bind_err in H as [H | [bs' [_ H]]].
  - exfalso. revert H. apply add_to_bucket_noerr. intros e'; discriminate.
  - apply bind_err in H as [H | [r [_ H]]]; [eapply place_buckets_err; eassumption | ].
    discriminate.
Qed.

Lemma qlt_spec a b : qlt a b = true <-> (a < b)%Q.
Proof.
  unfold qlt. rewrite Bool.negb_true_iff. split.
  - intros H. apply Qnot_le_lt. intros Hle. apply Qle_bool_iff in Hle. congruence.
  - intros H. destruct (Qle_bool b a) eqn:E; [ | reflexivity].
    apply Qle_bool_iff in E. exfalso. apply (Qlt_not_le a b H E).
Qed.

(** ** Byte encodings *)

Lemma le_bytes_length n x : length (le_bytes n x) = n.
Proof. revert x; induction n as [| n IH]; intros x; cbn [le_bytes length]; auto. Qed.

Lemma le_value_bytes n x : le_value (le_bytes n x) = x mod 256 ^ Z.of_nat n.
Proof.
  revert x; induction n as [| n IH]; intros x.
  - cbn. now rewrite Z.mod_1_r.
  - cbn [le_bytes le_value]. rewrite IH, Nat2Z.inj_succ, Z.pow_succ_r by lia.
    rewrite Z.rem_mul_r by (try apply Z.pow_pos_nonneg; lia). reflexivity.
Qed.

Lemma chunks_length n fuel bs :
  (0 < n)%nat -> (length bs / n <= fuel)%nat -> length (chunks n fuel bs) = (length bs / n)%nat.
Proof.
  revert bs; induction fuel as [| f IH]; intros bs Hn Hf; cbn [chunks].
  - cbn. lia.
  - destruct (Nat.ltb_spec (length bs) n) as [Hlt | Hge].
    + cbn. symmetry. now apply Nat.div_small.
    + assert (E : (length bs / n = (length bs - n) / n + 1)%nat).
      { rewrite <- Nat.div_add by lia. f_equal. lia. }
      cbn [length]. rewrite IH; [ | lia | ].
      * rewrite length_skipn. lia.
      * rewrite length_skipn. lia.
Qed.

Lemma firstn_skipn_8 (l1 l2 : list Z) :
  length l1 = 8%nat -> firstn 8 (l1 ++ l2) = l1 /\ skipn 8 (l1 ++ l2) = l2.
Proof.
  intros H. rewrite <- H. split.
  - rewrite firstn_app, Nat.sub_diag, firstn_all. cbn. apply app_nil_r.
  - rewrite skipn_app, Nat.sub_diag, skipn_all. reflexivity.
Qed.

Lemma u64sToByteSlice_length s : length (u64sToByteSlice s) = (8 * length s)%nat.
Proof.
  induction s as [| x s IH]; [reflexivity | ].
  change (u64sToByteSlice (x :: s)) with (le64 x ++ u64sToByteSlice s).
  rewrite length_app, IH. unfold le64. rewrite le_bytes_length. cbn [length]. lia.
Qed.

Lemma chunks_u64s s fuel :
  (length s <= fuel)%nat -> chunks 8 fuel (u64sToByteSlice s) = map le64 s.
Proof.
  revert fuel; induction s as [| x s IH]; intros [| f] Hf; cbn [length] in Hf; try lia;
    try reflexivity.
  change (u64sToByteSlice (x :: s)) with (le64 x ++ u64sToByteSlice s).
  cbn [chunks].
  assert (Hl : length (le64 x) = 8%nat) by apply le_bytes_length.
  rewrite length_app, Hl.
  replace (Nat.ltb (8 + length (u64sToByteSlice s)) 8) with false
    by (symmetry; apply Nat.ltb_ge; lia).
  destruct (firstn_skipn_8 (le64 x) (u64sToByteSlice s) Hl) as [-> ->].
  rewrite IH by lia. reflexivity.
Qed.

Lemma unmarshal_header buf :
  (8 <= length buf)%nat ->
  UnmarshalBinaryMmap buf =
  if nth 0 buf 0 =? 1 then Ok (mkChd (bsToUint64Slice (skipn 8 buf)) 0) else Err ErrVersion.
Proof.
  intros Hl. destruct buf as [| b0 rest]; cbn [length] in Hl; [lia | ].
  unfold UnmarshalBinaryMmap, go_slice, _ChdHeaderSize.
  rewrite (proj2 (Z.leb_le 8 _)) by (cbn [length]; lia).
  change (Z.to_nat (8 - 0)) with 8%nat. change (Z.to_nat 0) with 0%nat. simpl.
  destruct (b0 =? 1); reflexivity.
Qed.

(** The [Chd] read back from the bytes [MarshalBinary] writes has the same
    seeds. *)
Lemma unmarshal_marshal c :
  Forall (fun s => 0 <= s < W64) (seeds c) ->
  UnmarshalBinaryMmap (fst (MarshalBinary c)) = Ok (mkChd (seeds c) 0).
Proof.
  intros Hs. unfold MarshalBinary. cbn [fst].
  rewrite unmarshal_header by (rewrite length_app; cbn [length]; lia).
  cbn [nth app skipn Z.eqb Pos.eqb]. unfold bsToUint64Slice.
  rewrite chunks_u64s by (rewrite u64sToByteSlice_length; lia).
  rewrite map_map. f_equal. f_equal.
  induction Hs as [| x s Hx Hs IH]; [reflexivity | ].
  cbn [map]. rewrite IH. f_equal.
  unfold le64. rewrite le_value_bytes. apply Z.mod_small. exact Hx.
Qed.

(** ** Runs that end in [Ok] *)

Lemma ok_intro {A} (o : outcome A) (P : A -> Prop) :
  match o with Ok r => P r | _ => False end -> exists r, o = Ok r /\ P r.
Proof. destruct o; [eauto | contradiction | contradiction]. Qed.

(** ** The reader on an empty seed table *)

Lemma go_index_nil {A} i : @go_index A [] i = Panic PanicIndex.
Proof.
  unfold go_index. destruct (_ && _); [destruct (Z.to_nat i) | ]; reflexivity.
Qed.

Lemma reader_find_empty rd k :
  seeds (Reader.chd rd) = [] -> Reader.cache rd = [] ->
  Reader.Find rd k = (rd, Panic PanicIndex).
Proof.
  intros Hs Hc. unfold Reader.Find, Reader.cache_get. rewrite Hc. cbn [find].
  unfold Reader.find_value, Find. rewrite Hs. rewrite go_index_nil. reflexivity.
Qed.

(** * The properties of the package *)

(** ** The database: writer and reader *)

(** C1: writing a database and reading it back does not return the values
    written.  The writer stores [offset[2i] = off] and [offset[2i+1] = key]
    (marshalOffsets); the reader takes the key from [offset[2i]] and the
    offset from [offset[2i+1]] (Find).  With the keys [0xdead] ("hello") and
    [0xbeef] ("world") at load 0.5, both keys land in distinct slots, and the
    reader answers [ErrNoKey] for both, since it compares each key with a
    record offset (77 and 64). *)
Theorem db_roundtrip_fails :
  exists rd, open_db db_hello 4096 = Ok rd /\
    Reader.offset rd = [0; 0; 77; 0xbeef; 64; 0xdead; 0; 0] /\
    Find (Reader.chd rd) 0xdead = Ok 2 /\
    Find (Reader.chd rd) 0xbeef = Ok 1 /\
    Reader.Find rd 0xdead = (rd, Err ErrNoKey) /\
    Reader.Find rd 0xbeef = (rd, Err ErrNoKey).
Proof.
  apply ok_intro. vm_compute. repeat split.
Qed.

(** C3: the reader's key check compares the requested key with
    [offset[2i]], which holds a record offset, not a key.  A key outside the
    database whose slot holds the offset equal to it is accepted: with the
    keys 73 ("a") and 33 ("b"), the foreign key 64 returns "b", while the
    two stored keys are refused. *)
Theorem foreign_key_accepted :
  exists rd, open_db db_ab 4096 = Ok rd /\
    Reader.offset rd = [73; 33; 0; 0; 0; 0; 64; 73] /\
    snd (Reader.Find rd 64) = Ok [98] /\
    snd (Reader.Lookup rd 64) = Ok ([98], true) /\
    Reader.Find rd 73 = (rd, Err ErrNoKey) /\
    Reader.Find rd 33 = (rd, Err ErrNoKey).
Proof.
  apply ok_intro. vm_compute. repeat split.
Qed.

(** C9: a database written with no key opens, and then every lookup
    panics: the seed table is empty, so [Chd.Find] indexes [seeds[h]] out of
    range for every key. *)
Theorem empty_db_lookup_panics :
  exists rd, open_db db_empty 4096 = Ok rd /\ seeds (Reader.chd rd) = [] /\
    forall k, Reader.Find rd k = (rd, Panic PanicIndex) /\
              Reader.Lookup rd k = (rd, Panic PanicIndex).
Proof.
  destruct (ok_intro (open_db db_empty 4096)
              (fun rd => seeds (Reader.chd rd) = [] /\ Reader.cache rd = []))
    as [rd [E [Hs Hc]]].
  { vm_compute. split; reflexivity. }
  exists rd. split; [exact E | split; [exact Hs | ]].
  intros k. pose proof (reader_find_empty rd k Hs Hc) as H.
  split; [exact H | ]. unfold Reader.Lookup. rewrite H. reflexivity.
Qed.

(** C10: [Lookup] turns every error of [Find] into [(nil, false)]: a
    missing key, a corrupt record and an I/O error all look the same. *)
Theorem lookup_hides_errors rd key rd' e :
  Reader.Find rd key = (rd', Err e) -> Reader.Lookup rd key = (rd', Ok ([], false)).
Proof. intros H. unfold Reader.Lookup. rewrite H. reflexivity. Qed.

Lemma lookup_hides_errors_witness :
  exists rd, open_db db_hello 4096 = Ok rd /\
    Reader.Find rd 77 = (rd, Err ErrIO) /\
    Reader.Lookup rd 77 = (rd, Ok ([], false)).
Proof.
  destruct (ok_intro (open_db db_hello 4096)
              (fun rd => Reader.Find rd 77 = (rd, Err ErrIO))) as [rd [E H]].
  { vm_compute. reflexivity. }
  exists rd. split; [exact E | split; [exact H | ]].
  exact (lookup_hides_errors rd 77 rd ErrIO H).
Defined.

(** ** The minimal perfect hash *)

(** C2: [Freeze] can return a table under which two keys collide.  The
    keys 1 and 2 both hash to bucket 0 of 8; the seed found for that bucket
    is later overwritten by the empty buckets, whose [slot] is left at 0 and
    which take seed 1 at once; seed 1 maps 1 and 2 to the same slot.  The
    buckets of the run have distinct sizes apart from the empty ones, which
    are all alike, so no order [sort.Sort] may choose changes the result. *)
Theorem mphf_collision :
  build [1; 2; 3] = Ok (mkBuilder [1; 2; 3]) /\
  Freeze (mkBuilder [1; 2; 3]) (1#2) = Ok (mkChd [1; 0; 0; 0; 0; 5; 0; 0] 5) /\
  Find (mkChd [1; 0; 0; 0; 0; 5; 0; 0] 5) 1 = Ok 0 /\
  Find (mkChd [1; 0; 0; 0; 0; 5; 0; 0] 5) 2 = Ok 0 /\
  Find (mkChd [1; 0; 0; 0; 0; 5; 0; 0] 5) 3 = Ok 3 /\
  rhash 0 1 8 = 0 /\ rhash 0 2 8 = 0 /\ rhash 1 1 8 = rhash 1 2 8.
Proof. vm_compute. repeat split. Qed.

(** C7: [Freeze] accepts the loads 1 and 0 ([load < 0 || load > 1] is the
    test).  At load 1 it builds a table; at load 0 the quotient is +Inf (or
    NaN for no key), converted to [2^63], and [make] panics. *)
Theorem freeze_load_bounds :
  Freeze (mkBuilder [1; 2; 3]) 1 = Ok (mkChd [1; 6; 0; 0] 7) /\
  Freeze (mkBuilder [1; 2; 3]) 0 = Panic PanicMakeslice /\
  Freeze (mkBuilder []) 0 = Panic PanicMakeslice.
Proof. vm_compute. repeat split. Qed.

(** [Freeze] fails with [ErrInvalidLoad] exactly when [load < 0] or
    [load > 1]; for a load in [[0, 1]] past that check, the only error it
    returns is [ErrNoMPH]. *)
Theorem freeze_invalid_load_iff c load :
  (Freeze c load = Err ErrInvalidLoad <-> (load < 0 \/ 1 < load)%Q) /\
  (forall e, (0 <= load <= 1)%Q -> Freeze c load = Err e -> e = ErrNoMPH).
Proof.
  split; [split | ].
  - intros H. destruct (freeze_err c load ErrInvalidLoad H) as [[_ Hq] | Hq];
      [ | discriminate].
    apply Bool.orb_true_iff in Hq as [Hq | Hq]; apply qlt_spec in Hq; auto.
  - intros Hq. unfold Freeze.
    replace (qlt load 0 || qlt 1 load) with true; [reflexivity | ].
    symmetry. apply Bool.orb_true_iff.
    destruct Hq as [Hq | Hq]; [left | right]; apply qlt_spec; exact Hq.
  - intros e [H0 H1] H. destruct (freeze_err c load e H) as [[_ Hq] | Hq]; [ | exact Hq].
    apply Bool.orb_true_iff in Hq as [Hq | Hq]; apply qlt_spec in Hq.
    + exfalso. apply (Qlt_not_le _ _ Hq H0).
    + exfalso. apply (Qlt_not_le _ _ Hq H1).
Qed.

(** Every index [Find] returns for a table [Freeze] built lies in
    [0, Len). *)
Theorem find_in_range c load ch k i :
  Freeze c load = Ok ch -> Find ch k = Ok i -> 0 <= i < Len ch.
Proof.
  intros Hf Hi. pose proof (freeze_len c load ch Hf) as E.
  destruct (nextpow2_zero_or_pow2 _ (float_quot_u64_range (Z.of_nat (length (data c))) load))
    as [H0 | [p [Hp Hpow]]].
  - rewrite H0 in E. unfold Len in E.
    destruct (seeds ch) eqn:Es; [ | cbn [length] in E; lia].
    unfold Find in Hi. rewrite Es, go_index_nil in Hi. discriminate.
  - rewrite Hpow in E. unfold Find in Hi. rewrite E in Hi.
    destruct (go_index (seeds ch) (rhash 0 k (2 ^ p))) as [s | | ]; cbn [bind] in Hi;
      try discriminate.
    inversion Hi; subst i. rewrite E. apply rhash_range. exact Hp.
Qed.

Lemma find_in_range_witness :
  Find (mkChd [1; 0; 0; 0; 0; 5; 0; 0] 5) 3 = Ok 3 /\ 0 <= 3 < Len (mkChd [1; 0; 0; 0; 0; 5; 0; 0] 5).
Proof.
  assert (Hf : Freeze (mkBuilder [1; 2; 3]) (1#2) = Ok (mkChd [1; 0; 0; 0; 0; 5; 0; 0] 5))
    by (vm_compute; reflexivity).
  assert (Hi : Find (mkChd [1; 0; 0; 0; 0; 5; 0; 0] 5) 3 = Ok 3) by (vm_compute; reflexivity).
  split; [exact Hi | exact (find_in_range _ _ _ 3 3 Hf Hi)].
Defined.

(** ** bitvector.go *)

Lemma isset_bit_test w r : 0 <= r -> (Z.land 1 (Z.shiftr w r) =? 1) = Z.testbit w r.
Proof.
  intros Hr. rewrite Z.land_comm.
  change 1 with (Z.ones 1) at 1. rewrite Z.land_ones by lia. change (2 ^ 1) with 2.
  rewrite Zmod_odd, <- Z.bit0_odd, Z.shiftr_spec, Z.add_0_l by lia.
  destruct (Z.testbit w r); reflexivity.
Qed.

Lemma nth_set_nth {A} (l : list A) n m v d :
  nth m (set_nth l n v) d = if (Nat.eqb m n && Nat.ltb n (length l))%bool then v else nth m l d.
Proof.
  revert n m; induction l as [| x t IH]; intros n m.
  - cbn [set_nth length]. replace (Nat.ltb n 0) with false by (destruct n; reflexivity).
    rewrite andb_false_r. destruct m; reflexivity.
  - destruct n as [| n], m as [| m]; cbn [set_nth nth length]; try reflexivity.
    rewrite IH. reflexivity.
Qed.

Lemma word_index_range (b : bitVector) i :
  0 <= i < bv_Size b -> (0 <=? i / 64) && (i / 64 <? Z.of_nat (length (bv b))) = true.
Proof.
  unfold bv_Size. intros Hi. apply andb_true_intro; split; [apply Z.leb_le | apply Z.ltb_lt].
  - apply Z.div_pos; lia.
  - apply Z.div_lt_upper_bound; lia.
Qed.

Lemma go_index_in {A} (l : list A) i d :
  (0 <=? i) && (i <? Z.of_nat (length l)) = true -> go_index l i = Ok (nth (Z.to_nat i) l d).
Proof.
  unfold go_index. intros H. rewrite H.
  apply andb_prop in H as [H1 H2]. apply Z.leb_le in H1. apply Z.ltb_lt in H2.
  rewrite (nth_error_nth' l d) by lia. reflexivity.
Qed.

Lemma bv_IsSet_bit b j : 0 <= j < bv_Size b -> bv_IsSet b j = Ok (bv_bit b j).
Proof.
  intros Hj. unfold bv_IsSet. rewrite (go_index_in _ _ 0) by (apply word_index_range; exact Hj).
  cbn [bind]. unfold bv_bit. rewrite isset_bit_test by (apply Z.mod_pos_bound; lia).
  reflexivity.
Qed.

(** Updating word [i / 64]: bit [j] of the result. *)
Lemma bit_update (b : bitVector) i f j :
  0 <= i < bv_Size b -> 0 <= j ->
  bv_bit (mkBV (set_nth (bv b) (Z.to_nat (i / 64)) (f (nth (Z.to_nat (i / 64)) (bv b) 0)))) j =
  if j / 64 =? i / 64 then Z.testbit (f (nth (Z.to_nat (i / 64)) (bv b) 0)) (j mod 64)
  else bv_bit b j.
Proof.
  intros Hi Hj. unfold bv_bit. cbn [bv]. rewrite nth_set_nth.
  pose proof (word_index_range b i Hi) as R.
  apply andb_prop in R as [_ R]. apply Z.ltb_lt in R.
  assert (0 <= i / 64) by (apply Z.div_pos; lia).
  replace (Nat.ltb (Z.to_nat (i / 64)) (length (bv b))) with true
    by (symmetry; apply Nat.ltb_lt; lia).
  assert (0 <= j / 64) by (apply Z.div_pos; lia).
  destruct (Z.eqb_spec (j / 64) (i / 64)) as [E | E].
  - rewrite E, Nat.eqb_refl. reflexivity.
  - replace (Nat.eqb (Z.to_nat (j / 64)) (Z.to_nat (i / 64))) with false; [reflexivity | ].
    symmetry. apply Nat.eqb_neq. intros E'. apply E. apply Z2Nat.inj; lia.
Qed.

Lemma eqb_split i j :
  0 <= i -> 0 <= j -> (j =? i) = (j / 64 =? i / 64) && (j mod 64 =? i mod 64).
Proof.
  intros Hi Hj.
  pose proof (Z.div_mod i 64 ltac:(lia)). pose proof (Z.div_mod j 64 ltac:(lia)).
  pose proof (Z.mod_pos_bound i 64 ltac:(lia)). pose proof (Z.mod_pos_bound j 64 ltac:(lia)).
  destruct (Z.eqb_spec j i), (Z.eqb_spec (j / 64) (i / 64)), (Z.eqb_spec (j mod 64) (i mod 64));
    cbn; lia.
Qed.

(** [Set(i)] for [i] below [Size()] succeeds, keeps the number of words, and
    sets bit [i] and no other bit. *)
Theorem bv_Set_spec b i :
  0 <= i < bv_Size b ->
  exists b', bv_Set b i = Ok b' /\ bv_Words b' = bv_Words b /\
    forall j, 0 <= j -> bv_bit b' j = (j =? i) || bv_bit b j.
Proof.
  intros Hi. unfold bv_Set.
  pose proof (word_index_range b i Hi) as R.
  rewrite (go_index_in _ _ 0) by exact R. cbn [bind].
  unfold go_set. rewrite R. cbn [bind].
  eexists. split; [reflexivity | split].
  - unfold bv_Words. cbn [bv]. rewrite set_nth_length. reflexivity.
  - intros j Hj.
    rewrite (bit_update b i (fun w => Z.lor w (Z.shiftl 1 (i mod 64))) j Hi Hj).
    rewrite (eqb_split i j) by lia.
    pose proof (Z.mod_pos_bound i 64 ltac:(lia)). pose proof (Z.mod_pos_bound j 64 ltac:(lia)).
    destruct (Z.eqb_spec (j / 64) (i / 64)) as [E | E]; [ | reflexivity].
    cbn [andb]. unfold bv_bit. rewrite E.
    rewrite Z.lor_spec, Z.shiftl_1_l, Z.pow2_bits_eqb by lia.
    rewrite (Z.eqb_sym (i mod 64)). apply orb_comm.
Qed.

Lemma bv_Set_spec_witness :
  0 <= 5 < bv_Size (newBitVector 100) /\
  exists b', bv_Set (newBitVector 100) 5 = Ok b' /\ bv_Words b' = bv_Words (newBitVector 100) /\
    forall j, 0 <= j -> bv_bit b' j = (j =? 5) || bv_bit (newBitVector 100) j.
Proof.
  assert (H : 0 <= 5 < bv_Size (newBitVector 100)) by (vm_compute; split; [discriminate | reflexivity]).
  split; [exact H | exact (bv_Set_spec _ _ H)].
Defined.

(** [Clear(i)] for [i] below [Size()] succeeds, keeps the number of words,
    and clears bit [i] and no other bit. *)
Theorem bv_Clear_spec b i :
  0 <= i < bv_Size b ->
  exists b', bv_Clear b i = Ok b' /\ bv_Words b' = bv_Words b /\
    forall j, 0 <= j -> bv_bit b' j = negb (j =? i) && bv_bit b j.
Proof.
  intros Hi. unfold bv_Clear.
  pose proof (word_index_range b i Hi) as R.
  rewrite (go_index_in _ _ 0) by exact R. cbn [bind].
  unfold go_set. rewrite R. cbn [bind].
  eexists. split; [reflexivity | split].
  - unfold bv_Words. cbn [bv]. rewrite set_nth_length. reflexivity.
  - intros j Hj.
    rewrite (bit_update b i (fun w => Z.land w (not64 (Z.shiftl 1 (i mod 64)))) j Hi Hj).
    rewrite (eqb_split i j) by lia.
    pose proof (Z.mod_pos_bound i 64 ltac:(lia)). pose proof (Z.mod_pos_bound j 64 ltac:(lia)).
    destruct (Z.eqb_spec (j / 64) (i / 64)) as [E | E]; [ | reflexivity].
    cbn [andb]. unfold bv_bit. rewrite E.
    unfold not64, W64. change (2 ^ 64 - 1) with (Z.ones 64).
    rewrite Z.land_spec, Z.lxor_spec, Z.shiftl_1_l, Z.pow2_bits_eqb, Z.testbit_ones by lia.
    replace (0 <=? j mod 64) with true by (symmetry; apply Z.leb_le; lia).
    replace (j mod 64 <? 64) with true by (symmetry; apply Z.ltb_lt; lia).
    rewrite (Z.eqb_sym (i mod 64)).
    destruct (j mod 64 =? i mod 64), (Z.testbit _ (j mod 64)); reflexivity.
Qed.

Lemma bv_Clear_spec_witness :
  0 <= 5 < bv_Size (mkBV [32]) /\
  exists b', bv_Clear (mkBV [32]) 5 = Ok b' /\ bv_Words b' = bv_Words (mkBV [32]) /\
    forall j, 0 <= j -> bv_bit b' j = negb (j =? 5) && bv_bit (mkBV [32]) j.
Proof.
  assert (H : 0 <= 5 < bv_Size (mkBV [32])) by (vm_compute; split; [discriminate | reflexivity]).
  split; [exact H | exact (bv_Clear_spec _ _ H)].
Defined.

Lemma merge_words_spec v x :
  (length x <= length v)%nat ->
  exists r, merge_words v x = Ok r /\ length r = length v /\
    forall n, nth n r 0 = Z.lor (nth n v 0) (nth n x 0).
Proof.
  revert v. induction x as [| z x IH]; intros v Hl.
  - exists v. split; [destruct v; reflexivity | split; [reflexivity | ]].
    intros n. destruct n; rewrite Z.lor_0_r; reflexivity.
  - destruct v as [| w v]; cbn [length] in Hl; [lia | ].
    destruct (IH v ltac:(lia)) as [r [E [Hr Hn]]].
    exists (Z.lor w z :: r). cbn [merge_words]. rewrite E. cbn [bind].
    split; [reflexivity | split; [cbn; lia | ]].
    intros [| n]; [reflexivity | apply Hn].
Qed.

Lemma merge_words_short v x :
  (length v < length x)%nat -> merge_words v x = Panic PanicIndex.
Proof.
  revert v. induction x as [| z x IH]; intros v Hl; cbn [length] in Hl; [lia | ].
  destruct v as [| w v]; [reflexivity | ].
  cbn [merge_words]. cbn [length] in Hl. rewrite IH by lia. reflexivity.
Qed.

(** [Merge(x)] ORs [x] into [b] word by word when [x] has no more words
    than [b], keeping [b]'s size; when [x] is longer it panics with an index
    out of range. *)
Theorem bv_Merge_spec b x :
  (bv_Words x <= bv_Words b ->
   exists b', bv_Merge b x = Ok b' /\ bv_Words b' = bv_Words b /\
     forall j, 0 <= j -> bv_bit b' j = bv_bit b j || bv_bit x j) /\
  (bv_Words b < bv_Words x -> bv_Merge b x = Panic PanicIndex).
Proof.
  unfold bv_Words. split.
  - intros Hl. destruct (merge_words_spec (bv b) (bv x) ltac:(lia)) as [r [E [Hr Hn]]].
    exists (mkBV r). unfold bv_Merge. rewrite E.
    split; [reflexivity | split; [cbn [bv]; lia | ]].
    intros j Hj. unfold bv_bit. cbn [bv]. rewrite Hn, Z.lor_spec. reflexivity.
  - intros Hl. unfold bv_Merge. rewrite merge_words_short by lia. reflexivity.
Qed.

(** [x & ^(2^p - 1)] rounds [x] down to a multiple of [2^p]. *)
Lemma land_not64_mask x p :
  0 <= p <= 64 -> 0 <= x < W64 -> Z.land x (not64 (2 ^ p - 1)) = x / 2 ^ p * 2 ^ p.
Proof.
  intros Hp Hx. unfold not64, W64 in *.
  change (2 ^ 64 - 1) with (Z.ones 64).
  replace (2 ^ p - 1) with (Z.ones p) by (rewrite Z.ones_equiv; lia).
  rewrite <- Z.shiftr_div_pow2, <- Z.shiftl_mul_pow2 by lia.
  apply Z.bits_inj'. intros i Hi.
  rewrite Z.land_spec, Z.lxor_spec, !Z.testbit_ones by lia.
  destruct (Z.ltb_spec i p).
  - rewrite Z.shiftl_spec_low by lia.
    replace (i <? 64) with true by (symmetry; apply Z.ltb_lt; lia).
    rewrite (proj2 (Z.leb_le 0 i) Hi). cbn. apply andb_false_r.
  - rewrite Z.shiftl_spec, Z.shiftr_spec by lia. replace (i - p + p) with i by lia.
    rewrite (proj2 (Z.leb_le 0 i) Hi). cbn [andb xorb].
    destruct (Z.ltb_spec i 64).
    + apply andb_true_r.
    + rewrite andb_false_r. symmetry. apply Z.bits_above_log2; [lia | ].
      destruct (Z.eq_dec x 0) as [-> | ]; [cbn; lia | ].
      assert (Z.log2 x < 64) by (apply Z.log2_lt_pow2; lia). lia.
Qed.




(** [IsSet], [Set] and [Clear] at an index at or past [Size()] all panic
    with an index out of range. *)
Theorem bv_out_of_range b i :
  bv_Size b <= i ->
  bv_IsSet b i = Panic PanicIndex /\ bv_Set b i = Panic PanicIndex /\
  bv_Clear b i = Panic PanicIndex.
Proof.
  intros Hi. unfold bv_Size in Hi.
  assert (H : go_index (bv b) (i / 64) = Panic PanicIndex).
  { unfold go_index.
    replace (i / 64 <? Z.of_nat (length (bv b))) with false; [rewrite andb_false_r; reflexivity | ].
    symmetry. apply Z.ltb_ge. apply Z.div_le_lower_bound; lia. }
  unfold bv_IsSet, bv_Set, bv_Clear. rewrite H. repeat split.
Qed.

Lemma bv_out_of_range_witness :
  bv_IsSet (newBitVector 64) 64 = Panic PanicIndex /\ bv_Set (newBitVector 64) 64 = Panic PanicIndex /\
  bv_Clear (newBitVector 64) 64 = Panic PanicIndex.
Proof. apply bv_out_of_range. vm_compute. discriminate. Defined.


(** ** mmap.go: the byte-slice reinterpretations *)

Lemma firstn_skipn_add {A} (l : list A) n m :
  firstn (n + m) l = firstn n l ++ firstn m (skipn n l).
Proof.
  revert l; induction n as [| n IH]; intros l; [reflexivity | ].
  destruct l as [| x l]; [destruct m; reflexivity | ]. cbn. f_equal. apply IH.
Qed.

Lemma Forall_firstn {A} (P : A -> Prop) l n : Forall P l -> Forall P (firstn n l).
Proof.
  revert n; induction l as [| x l IH]; intros [| n] H; cbn; try constructor.
  - inversion H; subst. assumption.
  - inversion H; subst. apply IH. assumption.
Qed.

Lemma Forall_skipn {A} (P : A -> Prop) l n : Forall P l -> Forall P (skipn n l).
Proof.
  revert n; induction l as [| x l IH]; intros [| n] H; cbn; try exact H.
  inversion H; subst. apply IH. assumption.
Qed.

Lemma le_value_range bs :
  Forall is_byte bs -> 0 <= le_value bs < 256 ^ Z.of_nat (length bs).
Proof.
  induction 1 as [| b t Hb Ht IH]; [cbn; lia | ].
  unfold is_byte in Hb. cbn [le_value length]. rewrite Nat2Z.inj_succ, Z.pow_succ_r by lia.
  nia.
Qed.

Lemma le_bytes_value bs : Forall is_byte bs -> le_bytes (length bs) (le_value bs) = bs.
Proof.
  induction 1 as [| b t Hb Ht IH]; [reflexivity | ].
  unfold is_byte in Hb. cbn [length le_bytes le_value].
  assert (Hm : (b + 256 * le_value t) mod 256 = b).
  { rewrite Z.mul_comm, Z.mod_add by lia. apply Z.mod_small. lia. }
  assert (Hd : (b + 256 * le_value t) / 256 = le_value t).
  { rewrite Z.mul_comm, Z.div_add by lia. rewrite Z.div_small by lia. lia. }
  rewrite Hm, Hd, IH. reflexivity.
Qed.

Lemma chunks_words n s fuel :
  (0 < n)%nat -> (length s <= fuel)%nat ->
  chunks n fuel (concat (map (le_bytes n) s)) = map (le_bytes n) s.
Proof.
  intros Hn. revert fuel; induction s as [| x s IH]; intros [| f] Hf; cbn [length] in Hf;
    try lia.
  - reflexivity.
  - cbn. destruct n; [lia | reflexivity].
  - cbn [map concat chunks].
    assert (Hl : length (le_bytes n x) = n) by apply le_bytes_length.
    rewrite length_app, Hl.
    replace (Nat.ltb (n + length (concat (map (le_bytes n) s))) n) with false
      by (symmetry; apply Nat.ltb_ge; lia).
    rewrite firstn_app, skipn_app, Hl, Nat.sub_diag.
    rewrite firstn_all2, skipn_all2 by lia.
    cbn [firstn skipn app]. rewrite app_nil_r, IH by lia. reflexivity.
Qed.

Lemma concat_words_length n s : length (concat (map (le_bytes n) s)) = (n * length s)%nat.
Proof.
  induction s as [| x s IH]; [cbn; lia | ].
  cbn [map concat]. rewrite length_app, le_bytes_length, IH. cbn [length]. lia.
Qed.

Lemma words_roundtrip n s :
  (0 < n)%nat -> Forall (fun x => 0 <= x < 2 ^ (8 * Z.of_nat n)) s ->
  map le_value (chunks n (length (concat (map (le_bytes n) s))) (concat (map (le_bytes n) s))) = s.
Proof.
  intros Hn Hs. rewrite chunks_words by (try rewrite concat_words_length; nia).
  rewrite map_map. induction Hs as [| x s Hx Hs IH]; [reflexivity | ].
  cbn [map]. rewrite IH, le_value_bytes. f_equal. apply Z.mod_small.
  rewrite Z.pow_mul_r in Hx by lia. exact Hx.
Qed.

Lemma bytes_roundtrip n b fuel :
  (0 < n)%nat -> Forall is_byte b -> (length b / n <= fuel)%nat ->
  concat (map (le_bytes n) (map le_value (chunks n fuel b))) = firstn (n * (length b / n)) b.
Proof.
  intros Hn. revert b; induction fuel as [| f IH]; intros b Hb Hf.
  - cbn. replace (length b / n)%nat with 0%nat by lia. rewrite Nat.mul_0_r. reflexivity.
  - cbn [chunks]. destruct (Nat.ltb_spec (length b) n) as [Hlt | Hge].
    + rewrite Nat.div_small by exact Hlt. rewrite Nat.mul_0_r. reflexivity.
    + cbn [map concat].
      assert (E : (length b / n = (length b - n) / n + 1)%nat).
      { rewrite <- Nat.div_add by lia. f_equal. lia. }
      assert (Hc : length (firstn n b) = n) by (rewrite length_firstn; lia).
      rewrite <- Hc at 1. rewrite le_bytes_value by (apply Forall_firstn; exact Hb).
      rewrite IH by (try apply Forall_skipn; try rewrite length_skipn; auto; lia).
      rewrite length_skipn, E, Nat.mul_add_distr_l, Nat.mul_1_r, Nat.add_comm.
      rewrite firstn_skipn_add. reflexivity.
Qed.

(** Writing a slice of uint64 (uint32, uint16) words as bytes and reading
    them back gives the same words, and the byte slice has 8 (4, 2) bytes per
    word. *)
Theorem word_slices_roundtrip s :
  (Forall (fun x => 0 <= x < 2 ^ 64) s -> bsToUint64Slice (u64sToByteSlice s) = s /\
     length (u64sToByteSlice s) = (8 * length s)%nat) /\
  (Forall (fun x => 0 <= x < 2 ^ 32) s -> bsToUint32Slice (u32sToByteSlice s) = s /\
     length (u32sToByteSlice s) = (4 * length s)%nat) /\
  (Forall (fun x => 0 <= x < 2 ^ 16) s -> bsToUint16Slice (u16sToByteSlice s) = s /\
     length (u16sToByteSlice s) = (2 * length s)%nat).
Proof.
  split; [ | split]; intros Hs; (split; [ | apply concat_words_length]);
    (apply words_roundtrip; [lia | exact Hs]).
Qed.

(** Reading a byte slice as uint64 (uint32, uint16) words and writing them
    back gives the bytes up to the last whole word: a trailing partial word
    is dropped. *)
Theorem byte_slices_roundtrip b :
  Forall is_byte b ->
  u64sToByteSlice (bsToUint64Slice b) = firstn (8 * (length b / 8)) b /\
  u32sToByteSlice (bsToUint32Slice b) = firstn (4 * (length b / 4)) b /\
  u16sToByteSlice (bsToUint16Slice b) = firstn (2 * (length b / 2)) b.
Proof.
  intros Hb. split; [ | split]; (apply bytes_roundtrip; [lia | exact Hb | apply Nat.Div0.div_le_upper_bound; lia]).
Qed.

Lemma byte_slices_roundtrip_witness :
  u64sToByteSlice (bsToUint64Slice [1; 2; 3; 4; 5; 6; 7; 8; 9; 10; 11]) =
    firstn (8 * (11 / 8)) [1; 2; 3; 4; 5; 6; 7; 8; 9; 10; 11] /\
  u32sToByteSlice (bsToUint32Slice [1; 2; 3; 4; 5; 6; 7; 8; 9; 10; 11]) =
    firstn (4 * (11 / 4)) [1; 2; 3; 4; 5; 6; 7; 8; 9; 10; 11] /\
  u16sToByteSlice (bsToUint16Slice [1; 2; 3; 4; 5; 6; 7; 8; 9; 10; 11]) =
    firstn (2 * (11 / 2)) [1; 2; 3; 4; 5; 6; 7; 8; 9; 10; 11].
Proof.
  apply (byte_slices_roundtrip [1; 2; 3; 4; 5; 6; 7; 8; 9; 10; 11]).
  repeat (constructor; [unfold is_byte; lia | ]). constructor.
Defined.


(** ** marshal.go and chd.go: a frozen table round-trips *)

Lemma Forall_set_nth {A} (P : A -> Prop) l n v :
  Forall P l -> P v -> Forall P (set_nth l n v).
Proof.
  intros Hl Hv. revert n; induction Hl as [| x l Hx Hl IH]; intros [| n]; cbn [set_nth];
    constructor; auto.
Qed.

Lemma go_set_Forall {A} (P : A -> Prop) l i v l' :
  go_set l i v = Ok l' -> Forall P l -> P v -> Forall P l'.
Proof.
  unfold go_set. destruct (_ && _); intros H; inversion H; subst.
  apply Forall_set_nth.
Qed.

Lemma try_seeds_bound fuel s m b occ bOcc sds tr occ' bOcc' sds' tr' :
  1 <= s -> s + Z.of_nat fuel <= _MaxSeed ->
  Forall (fun x => 0 <= x < _MaxSeed) sds ->
  try_seeds fuel s m b occ bOcc sds tr = Ok (occ', bOcc', sds', tr') ->
  Forall (fun x => 0 <= x < _MaxSeed) sds'.
Proof.
  revert s occ bOcc tr.
  induction fuel as [| f IH]; intros s occ bOcc tr H1 H2 Hs H; cbn [try_seeds] in H;
    [discriminate | ].
  destruct (place_keys s m occ (bv_Reset bOcc) (keys b)) as [[ok bo] | | ];
    cbn [bind] in H; try discriminate.
  destruct ok.
  - destruct (bv_Merge occ bo) as [o | | ]; cbn [bind] in H; try discriminate.
    destruct (go_set sds (slot b) s) as [l | | ] eqn:E; cbn [bind] in H; try discriminate.
    inversion H; subst. eapply go_set_Forall; [eassumption | exact Hs | ].
    cbn beta. lia.
  - eapply (IH (s + 1)); [lia | lia | exact Hs | eassumption].
Qed.

Lemma place_buckets_bound bs m occ bOcc sds tr sds' tr' :
  Forall (fun x => 0 <= x < _MaxSeed) sds ->
  place_buckets bs m occ bOcc sds tr = Ok (sds', tr') ->
  Forall (fun x => 0 <= x < _MaxSeed) sds'.
Proof.
  revert occ bOcc sds tr.
  induction bs as [| b bs IH]; intros occ bOcc sds tr Hs H; cbn [place_buckets] in H.
  - inversion H; subst; exact Hs.
  - destruct (try_seeds _ 1 m b occ bOcc sds tr) as [[[[o bo] l] t] | | ] eqn:E;
      cbn [bind] in H; try discriminate.
    eapply IH; [ | exact H]. eapply try_seeds_bound; [ | | exact Hs | exact E].
    + lia.
    + rewrite Z2Nat.id by (unfold _MaxSeed; lia). lia.
Qed.

Lemma freeze_seeds c load ch :
  Freeze c load = Ok ch -> Forall (fun x => 0 <= x < _MaxSeed) (seeds ch).
Proof.
  unfold Freeze. cbv zeta.
  destruct (_ || _); [discriminate | ].
  set (m := nextpow2 _).
  destruct (go_make 32 m _) as [bs | | ]; cbn [bind]; try discriminate.
  destruct (go_make 8 m 0) as [sds | | ] eqn:E2; cbn [bind]; try discriminate.
  destruct (fold_left _ _ _) as [bs' | | ]; cbn [bind]; try discriminate.
  destruct (place_buckets _ _ _ _ _ _) as [[sds' tr'] | | ] eqn:E3;
    cbn [bind]; try discriminate.
  intros H; inversion H; subst; clear H. cbn [seeds].
  eapply place_buckets_bound; [ | exact E3].
  apply go_make_ok in E2. subst sds. apply Forall_forall.
  intros x Hx. apply repeat_spec in Hx. subst x. unfold _MaxSeed. lia.
Qed.

Lemma unmarshal32_marshal c :
  Forall (fun s => 0 <= s < 2 ^ 32) (seeds c) ->
  Marshal32.UnmarshalBinaryMmap (fst (Marshal32.MarshalBinary c)) = Ok (mkChd (seeds c) 0).
Proof.
  intros Hs. unfold Marshal32.MarshalBinary, Marshal32.UnmarshalBinaryMmap. cbn [fst].
  unfold go_slice, _ChdHeaderSize.
  rewrite (proj2 (Z.leb_le 8 _)) by (rewrite length_app; cbn [length]; lia).
  change (Z.to_nat (8 - 0)) with 8%nat. change (Z.to_nat 0) with 0%nat. simpl.
  unfold bsToUint32Slice, u32sToByteSlice, le32. rewrite chunks_words by
    (try rewrite concat_words_length; nia).
  rewrite map_map. f_equal. f_equal.
  induction Hs as [| x s Hx Hs IH]; [reflexivity | ].
  cbn [map]. rewrite IH, le_value_bytes. f_equal. apply Z.mod_small. exact Hx.
Qed.

(** Every seed of a table [Freeze] builds is below [_MaxSeed]; both
    serializations of the table (8-byte and 4-byte seeds) read back into a
    table with the same seeds, which answers [Find] exactly as the original. *)
Theorem freeze_marshal_roundtrip c load ch :
  Freeze c load = Ok ch ->
  Forall (fun s => 0 <= s < _MaxSeed) (seeds ch) /\
  UnmarshalBinaryMmap (fst (MarshalBinary ch)) = Ok (mkChd (seeds ch) 0) /\
  Marshal32.UnmarshalBinaryMmap (fst (Marshal32.MarshalBinary ch)) = Ok (mkChd (seeds ch) 0) /\
  (forall k, Find (mkChd (seeds ch) 0) k = Find ch k).
Proof.
  intros H. pose proof (freeze_seeds _ _ _ H) as Hs.
  split; [exact Hs | split; [ | split]].
  - apply unmarshal_marshal. eapply Forall_impl; [ | exact Hs].
    cbv beta. unfold _MaxSeed, W64. lia.
  - apply unmarshal32_marshal. eapply Forall_impl; [ | exact Hs].
    cbv beta. unfold _MaxSeed. lia.
  - intros k. reflexivity.
Qed.

Lemma freeze_marshal_roundtrip_witness :
  Forall (fun s => 0 <= s < _MaxSeed) [1; 0; 0; 0; 0; 5; 0; 0] /\
  UnmarshalBinaryMmap (fst (MarshalBinary (mkChd [1; 0; 0; 0; 0; 5; 0; 0] 5))) =
    Ok (mkChd [1; 0; 0; 0; 0; 5; 0; 0] 0) /\
  Marshal32.UnmarshalBinaryMmap (fst (Marshal32.MarshalBinary (mkChd [1; 0; 0; 0; 0; 5; 0; 0] 5))) =
    Ok (mkChd [1; 0; 0; 0; 0; 5; 0; 0] 0) /\
  (forall k, Find (mkChd [1; 0; 0; 0; 0; 5; 0; 0] 0) k = Find (mkChd [1; 0; 0; 0; 0; 5; 0; 0] 5) k).
Proof.
  apply (freeze_marshal_roundtrip (mkBuilder [1; 2; 3]) (1#2) (mkChd [1; 0; 0; 0; 0; 5; 0; 0] 5)).
  vm_compute. reflexivity.
Defined.


(** ** chd.go and dbwriter.go: building and adding *)

Lemma existsb_eqb_In k l : existsb (Z.eqb k) l = true <-> In k l.
Proof.
  rewrite existsb_exists. split.
  - intros [x [Hx E]]. apply Z.eqb_eq in E. subst. exact Hx.
  - intros H. exists k. split; [exact H | apply Z.eqb_refl].
Qed.

Lemma NoDup_snoc {A} (l : list A) x : NoDup l -> ~ In x l -> NoDup (l ++ [x]).
Proof.
  induction 1 as [| y l Hy Hl IH]; intros Hx; cbn; constructor.
  - intros [].
  - constructor.
  - rewrite in_app_iff. intros [H | [H | []]]; [contradiction | ]. subst. apply Hx. left; reflexivity.
  - apply IH. intros H. apply Hx. right; exact H.
Qed.

Lemma build_fold_err ks e :
  fold_left (fun c k => c <- c;; Add c k) ks (Err e) = Err e.
Proof. induction ks as [| k ks IH]; [reflexivity | exact IH]. Qed.

Lemma build_fold ks acc :
  NoDup acc ->
  (NoDup (acc ++ ks) -> fold_left (fun c k => c <- c;; Add c k) ks (Ok (mkBuilder acc))
                        = Ok (mkBuilder (acc ++ ks))) /\
  (~ NoDup (acc ++ ks) -> fold_left (fun c k => c <- c;; Add c k) ks (Ok (mkBuilder acc))
                          = Err ErrDupKey).
Proof.
  revert acc; induction ks as [| k ks IH]; intros acc Hacc; cbn [fold_left].
  - rewrite app_nil_r. split; [reflexivity | contradiction].
  - cbn [bind].
    assert (HA : Add (mkBuilder acc) k =
      if existsb (Z.eqb k) acc then Err ErrDupKey else Ok (mkBuilder (acc ++ [k])))
      by reflexivity.
    rewrite HA.
    destruct (existsb (Z.eqb k) acc) eqn:E.
    + apply existsb_eqb_In in E. rewrite build_fold_err. split; [ | reflexivity].
      intros Hn. apply NoDup_remove_2 in Hn. exfalso. apply Hn. apply in_or_app. left; exact E.
    + assert (Hk : ~ In k acc) by (rewrite <- existsb_eqb_In, E; discriminate).
      replace (acc ++ k :: ks) with ((acc ++ [k]) ++ ks) by (rewrite <- app_assoc; reflexivity).
      apply IH. apply NoDup_snoc; assumption.
Qed.

(** [New] then [Add] of each key in turn succeeds, keeping the keys in
    order, exactly when the keys are distinct; otherwise it fails with
    [ErrDupKey]. *)
Theorem build_nodup ks :
  (NoDup ks -> build ks = Ok (mkBuilder ks)) /\
  (~ NoDup ks -> build ks = Err ErrDupKey).
Proof. apply (build_fold ks [] (NoDup_nil _)). Qed.

(** [nextpow2(n)] is 0 for [n = 0] and for [n > 2^63] (the result wraps);
    otherwise it is the least power of two at or above [n]. *)
Theorem nextpow2_spec n :
  0 <= n < W64 ->
  (n = 0 \/ 2 ^ 63 < n -> nextpow2 n = 0) /\
  (1 <= n <= 2 ^ 63 -> exists k, 0 <= k <= 63 /\ nextpow2 n = 2 ^ k /\ n <= 2 ^ k < 2 * n).
Proof.
  intros Hn. split; [ | apply nextpow2_pow2].
  intros [-> | Hbig]; [reflexivity | ].
  unfold W64 in Hn. rewrite nextpow2_smear.
  assert (Hs : sub64 n 1 = n - 1) by (unfold sub64, u64, W64; apply Z.mod_small; lia).
  rewrite Hs, smear_ones by lia.
  assert (Hl : Z.log2 (n - 1) = 63).
  { apply Z.log2_unique; lia. }
  rewrite Hl. reflexivity.
Qed.

Lemma nextpow2_spec_witness :
  (5 = 0 \/ 2 ^ 63 < 5 -> nextpow2 5 = 0) /\
  (1 <= 5 <= 2 ^ 63 -> exists k, 0 <= k <= 63 /\ nextpow2 5 = 2 ^ k /\ 5 <= 2 ^ k < 2 * 5).
Proof. apply nextpow2_spec. unfold W64. lia. Defined.

Lemma existsb_fst_In {B} k (l : list (Z * B)) :
  existsb (fun p => fst p =? k) l = true <-> In k (map fst l).
Proof.
  rewrite existsb_exists, in_map_iff. split.
  - intros [x [Hx E]]. apply Z.eqb_eq in E. exists x. split; assumption.
  - intros [x [E Hx]]. exists x. split; [exact Hx | apply Z.eqb_eq; exact E].
Qed.

Lemma be64_length x : length (be64 x) = 8%nat.
Proof. unfold be64, be_bytes. rewrite length_rev. apply le_bytes_length. Qed.

Lemma addRecord_spec w k v :
  writer_inv w ->
  (2 ^ 32 - 1 < Z.of_nat (length v) -> Writer.addRecord w k v = Err ErrValueTooLarge) /\
  (Z.of_nat (length v) <= 2 ^ 32 - 1 -> In k (map fst (Writer.keymap w)) ->
     Writer.addRecord w k v = Err ErrExists) /\
  (Z.of_nat (length v) <= 2 ^ 32 - 1 -> ~ In k (map fst (Writer.keymap w)) ->
     exists w', Writer.addRecord w k v = Ok (true, w') /\ writer_inv w' /\
       Writer.keymap w' = Writer.keymap w ++ [(k, Value.mk (Writer.off w) (Z.of_nat (length v)))] /\
       Writer.fd w' = Writer.fd w ++
         (if Z.of_nat (length v) =? 0 then []
          else be64 (SipHash.sum64 (Writer.salt w) (be64 (Writer.off w) ++ v)) ++ v) /\
       Writer.salt w' = Writer.salt w /\ Writer.frozen w' = Writer.frozen w).
Proof.
  intros [Hk Ho]. unfold Writer.addRecord. split; [ | split].
  - intros H. rewrite (proj2 (Z.ltb_lt _ _) H). reflexivity.
  - intros H Hin. rewrite (proj2 (Z.ltb_ge _ _) H).
    rewrite (proj2 (existsb_fst_In _ _) Hin). reflexivity.
  - intros H Hin. rewrite (proj2 (Z.ltb_ge _ _) H).
    destruct (existsb (fun p => fst p =? k) (Writer.keymap w)) eqn:E.
    { apply existsb_fst_In in E. contradiction. }
    assert (HA : Add (Writer.bb w) k = Ok (mkBuilder (data (Writer.bb w) ++ [k]))).
    { unfold Add. rewrite <- Hk.
      destruct (existsb (Z.eqb k) (map fst (Writer.keymap w))) eqn:E2; [ | reflexivity].
      apply existsb_eqb_In in E2. contradiction. }
    rewrite HA. cbn [bind].
    rewrite (Z.mod_small (Z.of_nat (length v)) (2 ^ 32)) by lia.
    assert (Hinv : map fst (Writer.keymap w ++ [(k, Value.mk (Writer.off w) (Z.of_nat (length v)))])
                   = data (mkBuilder (data (Writer.bb w) ++ [k]))).
    { rewrite map_app, Hk. reflexivity. }
    destruct (Z.ltb_spec 0 (Z.of_nat (length v))) as [Hp | Hz].
    + eexists. split; [reflexivity | ].
      rewrite (proj2 (Z.eqb_neq _ 0)) by lia.
      unfold Writer.writeRecord, Writer.with_fd; cbn [Writer.fd Writer.bb Writer.keymap
        Writer.salt Writer.off Writer.frozen Value.off].
      split; [split | repeat split].
      * exact Hinv.
      * cbn [Writer.off Writer.fd]. rewrite Ho. unfold add64, u64. rewrite !length_app, be64_length.
        rewrite Z.add_mod_idemp_l by (unfold W64; lia). f_equal. lia.
    + eexists. split; [reflexivity | ].
      replace (Z.of_nat (length v) =? 0) with true by (symmetry; apply Z.eqb_eq; lia).
      cbn [Writer.fd Writer.bb Writer.keymap Writer.salt Writer.off Writer.frozen].
      rewrite app_nil_r. split; [split; [exact Hinv | exact Ho] | repeat split].
Qed.

(** [Add(k, v)] fails with [ErrFrozen] on a frozen writer, then with
    [ErrValueTooLarge] for a value longer than [2^32 - 1], then with
    [ErrExists] for a key already added; otherwise it appends the record
    (the big-endian SipHash of the offset and the value, then the value;
    nothing for an empty value) to the file, records the key at the old
    offset with the value's length, and keeps the writer invariant. *)
Theorem writer_Add_spec w k v :
  writer_inv w ->
  (Writer.frozen w = true -> Writer.Add w k v = Err ErrFrozen) /\
  (Writer.frozen w = false -> 2 ^ 32 - 1 < Z.of_nat (length v) ->
     Writer.Add w k v = Err ErrValueTooLarge) /\
  (Writer.frozen w = false -> Z.of_nat (length v) <= 2 ^ 32 - 1 ->
     In k (map fst (Writer.keymap w)) -> Writer.Add w k v = Err ErrExists) /\
  (Writer.frozen w = false -> Z.of_nat (length v) <= 2 ^ 32 - 1 ->
     ~ In k (map fst (Writer.keymap w)) ->
     exists w', Writer.Add w k v = Ok (true, w') /\ writer_inv w' /\
       Writer.keymap w' = Writer.keymap w ++ [(k, Value.mk (Writer.off w) (Z.of_nat (length v)))] /\
       Writer.fd w' = Writer.fd w ++
         (if Z.of_nat (length v) =? 0 then []
          else be64 (SipHash.sum64 (Writer.salt w) (be64 (Writer.off w) ++ v)) ++ v) /\
       Writer.salt w' = Writer.salt w /\ Writer.frozen w' = false).
Proof.
  intros Hw. destruct (addRecord_spec w k v Hw) as [H1 [H2 H3]].
  unfold Writer.Add. split; [intros -> ; reflexivity | ].
  split; [intros -> H; exact (H1 H) | split; [intros -> H H'; exact (H2 H H') | ]].
  intros Hf H H'. rewrite Hf. destruct (H3 H H') as [w' [E [I [K [F [S Fr]]]]]].
  exists w'. rewrite Fr, Hf.
  split; [exact E | split; [exact I | split; [exact K | split; [exact F | split; [exact S | reflexivity]]]]].
Qed.

Lemma writer_Add_spec_witness :
  writer_inv (Writer.mk (repeat 0 64) New [] salt0 64 false) /\
  exists w', Writer.Add (Writer.mk (repeat 0 64) New [] salt0 64 false) 7 hello = Ok (true, w') /\
    writer_inv w' /\ Writer.keymap w' = [(7, Value.mk 64 5)].
Proof.
  assert (Hi : writer_inv (Writer.mk (repeat 0 64) New [] salt0 64 false))
    by (split; [reflexivity | vm_compute; reflexivity]).
  split; [exact Hi | ].
  destruct (writer_Add_spec _ 7 hello Hi) as (_ & _ & _ & H).
  destruct (H eq_refl ltac:(vm_compute; discriminate) ltac:(cbn; tauto))
    as (w' & Hw & Hw' & Hk & _).
  exists w'. split; [exact Hw | split; [exact Hw' | exact Hk]].
Defined.

Lemma NewDBWriter_inv salt w : Writer.NewDBWriter salt = Ok w -> writer_inv w /\ Writer.keymap w = [].
Proof. unfold Writer.NewDBWriter. intros H; inversion H; subst. split; [split | ]; reflexivity. Qed.

Lemma add_pairs_spec kvs w z z' eo w' :
  writer_inv w -> Writer.add_pairs w kvs z = Ok (z', eo, w') ->
  writer_inv w' /\ Writer.frozen w' = Writer.frozen w /\
  exists n, z' = z + Z.of_nat n /\ (n <= length kvs)%nat /\
    map fst (Writer.keymap w') = map fst (Writer.keymap w) ++ firstn n (map fst kvs) /\
    (eo = None -> n = length kvs) /\
    (forall e, eo = Some e -> (n < length kvs)%nat /\
       ((e = ErrValueTooLarge /\ 2 ^ 32 - 1 < Z.of_nat (length (snd (nth n kvs (0, [])))))
        \/ (e = ErrExists /\ In (fst (nth n kvs (0, []))) (map fst (Writer.keymap w'))))).
Proof.
  revert w z. induction kvs as [| [k v] kvs IH]; intros w z Hw H; cbn [Writer.add_pairs] in H.
  - inversion H; subst. split; [exact Hw | split; [reflexivity | ]]. exists 0%nat.
    rewrite app_nil_r. split; [lia | split; [cbn; lia | split; [reflexivity | ]]].
    split; [reflexivity | intros e He; discriminate].
  - destruct (addRecord_spec w k v Hw) as [H1 [H2 H3]].
    destruct (Z.ltb_spec (2 ^ 32 - 1) (Z.of_nat (length v))) as [Hl | Hl].
    + rewrite (H1 Hl) in H. inversion H; subst.
      split; [exact Hw | split; [reflexivity | ]]. exists 0%nat.
      rewrite app_nil_r. split; [lia | split; [lia | split; [reflexivity | ]]].
      split; [discriminate | ]. intros e He; inversion He; subst.
      split; [cbn; lia | left; split; [reflexivity | exact Hl]].
    + destruct (in_dec Z.eq_dec k (map fst (Writer.keymap w))) as [Hin | Hin].
      * rewrite (H2 Hl Hin) in H. inversion H; subst.
        split; [exact Hw | split; [reflexivity | ]]. exists 0%nat.
        rewrite app_nil_r. split; [lia | split; [lia | split; [reflexivity | ]]].
        split; [discriminate | ]. intros e He; inversion He; subst.
        split; [cbn; lia | right; split; [reflexivity | exact Hin]].
      * destruct (H3 Hl Hin) as [w1 [E [I [K [F [Hs Fr]]]]]].
        rewrite E in H.
        destruct (IH w1 (z + 1) I H) as [I' [Fr' [n [Hz [Hn [Hk [Hnone Hsome]]]]]]].
        split; [exact I' | split; [congruence | ]]. exists (S n).
        split; [lia | split; [cbn [length]; lia | split; [ | split]]].
        -- rewrite Hk, K, map_app, <- app_assoc. reflexivity.
        -- intros He. rewrite (Hnone He). reflexivity.
        -- intros e He. destruct (Hsome e He) as [Hlt Hc].
           split; [cbn [length]; lia | exact Hc].
Qed.

Lemma map_fst_combine {A B} (l : list A) (l' : list B) :
  map fst (combine l l') = firstn (length l') l.
Proof.
  revert l'; induction l as [| x l IH]; intros [| y l']; cbn; try reflexivity.
  f_equal. apply IH.
Qed.

Lemma nth_combine {A B} (l : list A) (l' : list B) n d d' :
  (n < length (combine l l'))%nat -> nth n (combine l l') (d, d') = (nth n l d, nth n l' d').
Proof.
  revert l' n; induction l as [| x l IH]; intros [| y l'] n Hn; cbn in Hn; try lia.
  destruct n; cbn; [reflexivity | ]. apply IH. lia.
Qed.

(** [AddKeyVals(keys, vals)] adds a prefix of the pairs [keys[i], vals[i]]
    and returns its length: all [min(len(keys), len(vals))] of them when no
    error is returned, otherwise up to the first pair that fails, whose key is
    already present ([ErrExists]) or whose value is too long
    ([ErrValueTooLarge]); on a frozen writer nothing is added. *)
Theorem AddKeyVals_spec w keys vals z eo w' :
  writer_inv w -> Writer.AddKeyVals w keys vals = Ok (z, eo, w') ->
  writer_inv w' /\
  0 <= z <= Z.of_nat (Nat.min (length keys) (length vals)) /\
  map fst (Writer.keymap w') = map fst (Writer.keymap w) ++ firstn (Z.to_nat z) keys /\
  (eo = None -> z = Z.of_nat (Nat.min (length keys) (length vals))) /\
  (eo = Some ErrFrozen -> Writer.frozen w = true /\ z = 0 /\ w' = w) /\
  (eo = Some ErrExists -> In (nth (Z.to_nat z) keys 0) (map fst (Writer.keymap w'))) /\
  (eo = Some ErrValueTooLarge -> 2 ^ 32 - 1 < Z.of_nat (length (nth (Z.to_nat z) vals []))) /\
  (forall e, eo = Some e -> e = ErrFrozen \/ e = ErrExists \/ e = ErrValueTooLarge).
Proof.
  intros Hw. unfold Writer.AddKeyVals. destruct (Writer.frozen w) eqn:Ef.
  - intros H; inversion H; subst. rewrite app_nil_r.
    split; [exact Hw | split; [lia | split; [reflexivity | ]]].
    split; [discriminate | split; [split; [reflexivity | split; reflexivity] | ]].
    split; [discriminate | split; [discriminate | ]].
    intros e He; inversion He; left; reflexivity.
  - intros H. destruct (add_pairs_spec _ _ _ _ _ _ Hw H) as [I [Fr [n [Hz [Hn [Hk [Hnone Hsome]]]]]]].
    rewrite length_combine in Hn. rewrite Z.add_0_l in Hz. subst z. rewrite Nat2Z.id.
    rewrite map_fst_combine, firstn_firstn, Nat.min_l in Hk by lia.
    split; [exact I | split; [lia | split; [exact Hk | ]]].
    split; [intros He; rewrite (Hnone He), length_combine; lia | ].
    split; [intros He; destruct (Hsome _ He) as [_ [[C _] | [C _]]]; discriminate | ].
    split; [ | split; [ | intros e He; destruct (Hsome _ He) as [_ [[C _] | [C _]]]; subst; auto]].
    + intros He. destruct (Hsome _ He) as [Hlt [[C _] | [_ Hin]]]; [discriminate | ].
      rewrite nth_combine in Hin by exact Hlt. exact Hin.
    + intros He. destruct (Hsome _ He) as [Hlt [[_ Hv] | [C _]]]; [ | discriminate].
      rewrite nth_combine in Hv by exact Hlt. exact Hv.
Qed.

Lemma AddKeyVals_spec_witness :
  exists z eo w', Writer.AddKeyVals (Writer.mk (repeat 0 64) New [] salt0 64 false)
                    [1; 2; 1; 3] [hello; world; hello; world] = Ok (z, eo, w') /\
    z = 2 /\ eo = Some ErrExists /\
    map fst (Writer.keymap w') = [1; 2] /\ In (nth 2 [1; 2; 1; 3] 0) (map fst (Writer.keymap w')).
Proof.
  assert (Hi : writer_inv (Writer.mk (repeat 0 64) New [] salt0 64 false))
    by (split; [reflexivity | vm_compute; reflexivity]).
  destruct (ok_intro (Writer.AddKeyVals (Writer.mk (repeat 0 64) New [] salt0 64 false)
                        [1; 2; 1; 3] [hello; world; hello; world])
              (fun r => fst (fst r) = 2 /\ snd (fst r) = Some ErrExists))
    as ([[z eo] w'] & H & Hz & Heo); [vm_compute; split; reflexivity | ].
  cbn [fst snd] in Hz, Heo. subst z eo.
  destruct (AddKeyVals_spec _ _ _ _ _ _ Hi H) as (_ & _ & Hk & _ & _ & Hex & _).
  exists 2, (Some ErrExists), w'. split; [exact H | split; [reflexivity | split; [reflexivity | ]]].
  split; [rewrite Hk; reflexivity | exact (Hex eq_refl)].
Defined.


(** ** dbwriter.go and dbreader.go: one record *)

Lemma in64_u64 x : in64 (u64 x).
Proof. unfold in64, u64, W64. apply Z.mod_pos_bound. lia. Qed.

Lemma bits_lt_pow2 a n : 0 <= n -> 0 <= a -> (forall i, n <= i -> Z.testbit a i = false) -> a < 2 ^ n.
Proof.
  intros Hn Ha H. destruct (Z.eq_dec a 0) as [-> | Ha0]; [apply Z.pow_pos_nonneg; lia | ].
  apply Z.log2_lt_pow2; [lia | ].
  destruct (Z.ltb_spec (Z.log2 a) n) as [Hl | Hl]; [exact Hl | ].
  pose proof (Z.bit_log2 a ltac:(lia)) as Hb. rewrite H in Hb by exact Hl. discriminate.
Qed.

Lemma lxor_in64 a b : in64 a -> in64 b -> in64 (Z.lxor a b).
Proof.
  unfold in64, W64. intros Ha Hb. split; [apply Z.lxor_nonneg; lia | ].
  apply bits_lt_pow2; [lia | apply Z.lxor_nonneg; lia | ].
  intros i Hi. rewrite Z.lxor_spec, !Z.bits_above_log2; try reflexivity; try lia.
  - destruct (Z.eq_dec b 0) as [-> | ]; [cbn; lia | ].
    assert (Z.log2 b < 64) by (apply Z.log2_lt_pow2; lia). lia.
  - destruct (Z.eq_dec a 0) as [-> | ]; [cbn; lia | ].
    assert (Z.log2 a < 64) by (apply Z.log2_lt_pow2; lia). lia.
Qed.

Lemma lor_in64 a b : in64 a -> in64 b -> in64 (Z.lor a b).
Proof.
  unfold in64, W64. intros Ha Hb. split; [apply Z.lor_nonneg; lia | ].
  apply bits_lt_pow2; [lia | apply Z.lor_nonneg; lia | ].
  intros i Hi. rewrite Z.lor_spec, !Z.bits_above_log2; try reflexivity; try lia.
  - destruct (Z.eq_dec b 0) as [-> | ]; [cbn; lia | ].
    assert (Z.log2 b < 64) by (apply Z.log2_lt_pow2; lia). lia.
  - destruct (Z.eq_dec a 0) as [-> | ]; [cbn; lia | ].
    assert (Z.log2 a < 64) by (apply Z.log2_lt_pow2; lia). lia.
Qed.

Lemma rotl64_in64 x n : in64 x -> 0 <= n <= 64 -> in64 (rotl64 x n).
Proof.
  intros Hx Hn. unfold rotl64. apply lor_in64; [apply in64_u64 | ].
  unfold in64 in *. rewrite Z.shiftr_div_pow2 by lia. split.
  - apply Z.div_pos; [lia | apply Z.pow_pos_nonneg; lia].
  - apply (Z.le_lt_trans _ x); [apply Z.div_le_upper_bound | lia].
    + apply Z.pow_pos_nonneg; lia.
    + assert (1 <= 2 ^ (64 - n)) by (apply Z.pow_le_mono_r with (a := 2) (b := 0); lia). nia.
Qed.

Lemma add64_in64 a b : in64 (add64 a b).
Proof. apply in64_u64. Qed.

Lemma round_in64 v : in64_4 v -> in64_4 (SipHash.round v).
Proof.
  destruct v as [[[a b] c] d]. intros (Ha & Hb & Hc & Hd). cbn.
  repeat split;
  repeat first [ apply lxor_in64 | apply add64_in64 | apply rotl64_in64; [ | lia] | assumption ].
Qed.

Lemma compress_in64 v m : in64_4 v -> in64 m -> in64_4 (SipHash.compress v m).
Proof.
  destruct v as [[[a b] c] d]. intros (Ha & Hb & Hc & Hd) Hm. unfold SipHash.compress.
  assert (H := round_in64 _ (round_in64 (a, b, c, Z.lxor d m)
                 ltac:(split4; try apply lxor_in64; assumption))).
  destruct (SipHash.round (SipHash.round (a, b, c, Z.lxor d m))) as [[[a' b'] c'] d'].
  destruct H as (H1 & H2 & H3 & H4). split4; try apply lxor_in64; assumption.
Qed.

Lemma absorb_in64 fuel v msg len :
  in64_4 v -> Forall is_byte msg -> in64_4 (SipHash.absorb fuel v msg len).
Proof.
  revert v msg; induction fuel as [| f IH]; intros v msg Hv Hm; cbn [SipHash.absorb];
    [exact Hv | ].
  destruct (Nat.leb_spec 8 (length msg)) as [Hl | Hl].
  - apply IH; [ | apply Forall_skipn; exact Hm].
    apply compress_in64; [exact Hv | ].
    pose proof (le_value_range _ (Forall_firstn _ _ 8 Hm)) as Hr.
    rewrite length_firstn, Nat.min_l in Hr by lia. unfold in64, W64. exact Hr.
  - apply compress_in64; [exact Hv | ].
    pose proof (le_value_range _ Hm) as Hr.
    assert (Hp : 256 ^ Z.of_nat (length msg) <= 2 ^ 56).
    { change (2 ^ 56) with (256 ^ 7). apply Z.pow_le_mono_r; lia. }
    assert (Hb : 0 <= len mod 256 < 256) by (apply Z.mod_pos_bound; lia).
    rewrite Z.shiftl_mul_pow2 by lia. unfold in64, W64. change (2 ^ 64) with (256 * 2 ^ 56).
    nia.
Qed.

Lemma le_value_in64 bs : Forall is_byte bs -> in64 (le_value (firstn 8 bs)).
Proof.
  intros H. pose proof (le_value_range _ (Forall_firstn _ _ 8 H)) as Hr.
  rewrite length_firstn in Hr.
  assert (256 ^ Z.of_nat (Nat.min 8 (length bs)) <= 2 ^ 64).
  { change (2 ^ 64) with (256 ^ Z.of_nat 8). apply Z.pow_le_mono_r; lia. }
  unfold in64, W64. lia.
Qed.

Lemma sum64_in64 key msg :
  Forall is_byte key -> Forall is_byte msg -> in64 (SipHash.sum64 key msg).
Proof.
  intros Hk Hm. unfold SipHash.sum64.
  assert (H0 := le_value_in64 _ Hk).
  assert (H1 := le_value_in64 _ (Forall_skipn _ _ 8 Hk)).
  assert (Hc : forall c, 0 <= c < 2 ^ 64 -> in64 c) by (intros; unfold in64, W64; lia).
  assert (Ha := absorb_in64 (S (length msg))
    (Z.lxor (le_value (firstn 8 key)) (Z.of_N 0x736f6d6570736575),
     Z.lxor (le_value (firstn 8 (skipn 8 key))) (Z.of_N 0x646f72616e646f6d),
     Z.lxor (le_value (firstn 8 key)) (Z.of_N 0x6c7967656e657261),
     Z.lxor (le_value (firstn 8 (skipn 8 key))) (Z.of_N 0x7465646279746573))
    msg (Z.of_nat (length msg))
    ltac:(split4; apply lxor_in64; try assumption; apply Hc; cbn; lia) Hm).
  destruct (SipHash.absorb _ _ _ _) as [[[a b] c] d].
  destruct Ha as (Ha & Hb & Hc' & Hd).
  assert (Hr := round_in64 _ (round_in64 _ (round_in64 _ (round_in64 (a, b, Z.lxor c 255, d)
    ltac:(split4; try apply lxor_in64; try assumption; apply Hc; lia))))).
  destruct (SipHash.round (SipHash.round (SipHash.round (SipHash.round _))))
    as [[[a' b'] c'] d'].
  destruct Hr as (H1' & H2' & H3' & H4'). repeat apply lxor_in64; assumption.
Qed.

Lemma Forall_le_bytes n x : Forall is_byte (le_bytes n x).
Proof.
  revert x; induction n as [| n IH]; intros x; cbn [le_bytes]; constructor; [ | apply IH].
  unfold is_byte. apply Z.mod_pos_bound. lia.
Qed.

Lemma Forall_be64 x : Forall is_byte (be64 x).
Proof. unfold be64, be_bytes. apply Forall_rev, Forall_le_bytes. Qed.

Lemma be_value_be64 x : be_value (be64 x) = x mod 2 ^ 64.
Proof. unfold be_value, be64, be_bytes. rewrite rev_involutive, le_value_bytes. reflexivity. Qed.

Lemma decodeRecord_at rd o val G :
  skipn (Z.to_nat o) (Reader.fd rd) =
    be64 (SipHash.sum64 (Reader.salt rd) (be64 o ++ val)) ++ val ++ G ->
  Forall is_byte (Reader.salt rd) -> Forall is_byte val ->
  0 <= o < 2 ^ 63 -> Z.of_nat (length val) + 8 < 2 ^ 32 ->
  Reader.decodeRecord rd o (Z.of_nat (length val)) = Ok val.
Proof.
  intros Hs Hsalt Hval Ho Hl. unfold Reader.decodeRecord.
  rewrite (proj2 (Z.leb_gt _ _)) by lia.
  rewrite (Z.mod_small _ (2 ^ 32)) by lia.
  set (c := be64 _) in Hs.
  assert (Hc : length c = 8%nat) by apply be64_length.
  assert (Hsz : o + (Z.of_nat (length val) + 8) <= Z.of_nat (length (Reader.fd rd))).
  { assert (E := f_equal (@length Z) Hs). rewrite length_skipn, !length_app, Hc in E. lia. }
  rewrite (proj2 (Z.ltb_ge _ _) Hsz), andb_false_r.
  rewrite Hs.
  replace (Z.to_nat (Z.of_nat (length val) + 8)) with (length (c ++ val)) by
    (rewrite length_app, Hc; lia).
  rewrite app_assoc, firstn_app, firstn_all, Nat.sub_diag. cbn [firstn]. rewrite app_nil_r.
  assert (Hf8 : firstn 8 (c ++ val) = c).
  { rewrite <- Hc, firstn_app, firstn_all, Nat.sub_diag. cbn [firstn]. apply app_nil_r. }
  assert (Hs8 : skipn 8 (c ++ val) = val).
  { rewrite <- Hc, skipn_app, skipn_all, Nat.sub_diag. reflexivity. }
  assert (Hg : go_slice (c ++ val) 0 8 = Ok c).
  { unfold go_slice. rewrite length_app, Hc.
    rewrite (proj2 (Z.leb_le 8 _)) by lia.
    change (Z.to_nat (8 - 0)) with 8%nat. change (Z.to_nat 0) with 0%nat.
    cbn [skipn]. rewrite Hf8. reflexivity. }
  rewrite Hg. cbn [bind]. rewrite Hs8.
  subst c. rewrite be_value_be64, Z.mod_small.
  - rewrite Z.eqb_refl. reflexivity.
  - apply sum64_in64; [exact Hsalt | apply Forall_app; split; [apply Forall_be64 | exact Hval]].
Qed.

(** A record written by [Add] for a non-empty value reads back, with
    [decodeRecord] at the offset and length recorded in [keymap], as the
    value, from any file that starts with the bytes written so far and has
    the writer's salt. *)
Theorem writer_record_roundtrip w k v ok w' :
  writer_inv w -> Forall is_byte (Writer.salt w) -> Forall is_byte v ->
  0 < Z.of_nat (length v) -> Z.of_nat (length v) + 8 < 2 ^ 32 ->
  Z.of_nat (length (Writer.fd w)) < 2 ^ 63 ->
  Writer.Add w k v = Ok (ok, w') ->
  exists r, Writer.keymap w' = Writer.keymap w ++ [(k, r)] /\
    forall rd G, Reader.salt rd = Writer.salt w' ->
      skipn (Z.to_nat (Value.off r)) (Reader.fd rd) =
        skipn (Z.to_nat (Value.off r)) (Writer.fd w') ++ G ->
      Reader.decodeRecord rd (Value.off r) (Value.vlen r) = Ok v.
Proof.
  intros Hw Hsalt Hv Hp Hl Hfd HA.
  destruct (addRecord_spec w k v Hw) as [H1 [H2 H3]].
  unfold Writer.Add in HA. destruct (Writer.frozen w); [discriminate | ].
  destruct (in_dec Z.eq_dec k (map fst (Writer.keymap w))) as [Hin | Hin].
  { rewrite (H2 ltac:(lia) Hin) in HA. discriminate. }
  destruct (H3 ltac:(lia) Hin) as [w1 [E [I [K [F [S Fr]]]]]].
  rewrite E in HA. inversion HA; subst w1 ok. clear HA.
  eexists. split; [exact K | ]. intros rd G Hs Hfd'. cbn [Value.off Value.vlen] in *.
  destruct Hw as [_ Ho].
  assert (Hoff : Writer.off w = Z.of_nat (length (Writer.fd w)))
    by (rewrite Ho; apply Z.mod_small; unfold W64; lia).
  apply decodeRecord_at with (G := G).
  - rewrite Hfd', F, (proj2 (Z.eqb_neq _ 0)) by lia.
    rewrite Hoff, Nat2Z.id, skipn_app, skipn_all, Nat.sub_diag. cbn [skipn app].
    rewrite Hs, S, <- Hoff, <- app_assoc. reflexivity.
  - rewrite Hs, S. exact Hsalt.
  - exact Hv.
  - lia.
  - exact Hl.
Qed.

Lemma writer_record_roundtrip_witness :
  exists w', Writer.Add (Writer.mk (repeat 0 64) New [] salt0 64 false) 7 hello = Ok (true, w') /\
  exists r, Writer.keymap w' = [(7, r)] /\
    forall rd G, Reader.salt rd = Writer.salt w' ->
      skipn (Z.to_nat (Value.off r)) (Reader.fd rd) =
        skipn (Z.to_nat (Value.off r)) (Writer.fd w') ++ G ->
      Reader.decodeRecord rd (Value.off r) (Value.vlen r) = Ok hello.
Proof.
  assert (Hi : writer_inv (Writer.mk (repeat 0 64) New [] salt0 64 false))
    by (split; [reflexivity | vm_compute; reflexivity]).
  destruct (ok_intro (Writer.Add (Writer.mk (repeat 0 64) New [] salt0 64 false) 7 hello)
              (fun r => fst r = true)) as ([ok w'] & H & Hok); [vm_compute; reflexivity | ].
  cbn [fst] in Hok. subst ok. exists w'. split; [exact H | ].
  apply (writer_record_roundtrip _ 7 hello true w' Hi).
  - repeat (constructor; [unfold is_byte; lia | ]). constructor.
  - repeat (constructor; [unfold is_byte; lia | ]). constructor.
  - vm_compute. reflexivity.
  - vm_compute. reflexivity.
  - vm_compute. reflexivity.
  - exact H.
Defined.


(** ** dbreader.go: Find, the cache and NewDBReader *)

(** [Find(key)] changes the reader only by caching a value it returns; the
    cache never grows beyond its capacity; and once a value is returned, the
    next [Find] of the same key returns it again from the cache. *)
Theorem reader_find_cache rd k rd' r :
  Reader.Find rd k = (rd', r) ->
  (rd' = rd \/ exists v, r = Ok v /\ rd' = Reader.cache_add rd k v) /\
  ((length (Reader.cache rd) <= Z.to_nat (Reader.cache_size rd))%nat ->
     (length (Reader.cache rd') <= Z.to_nat (Reader.cache_size rd'))%nat) /\
  (forall v, r = Ok v -> 1 <= Reader.cache_size rd -> Reader.Find rd' k = (rd', Ok v)).
Proof.
  unfold Reader.Find. destruct (Reader.cache_get rd k) as [v | ] eqn:Ec.
  - intros H; inversion H; subst. split; [left; reflexivity | split; [auto | ]].
    intros v' Hv _. inversion Hv; subst. rewrite Ec. reflexivity.
  - destruct (Reader.find_value rd k) as [v | e | p] eqn:Ef; intros H; inversion H; subst.
    + split; [right; exists v; split; reflexivity | split].
      * intros _. unfold Reader.cache_add; cbn [Reader.cache Reader.cache_size].
        rewrite length_firstn. lia.
      * intros v' Hv Hs. inversion Hv; subst v'.
        unfold Reader.cache_get, Reader.cache_add; cbn [Reader.cache Reader.cache_size].
        destruct (Z.to_nat (Reader.cache_size rd)) as [| n] eqn:En; [lia | ].
        cbn [firstn find fst snd]. rewrite Z.eqb_refl. reflexivity.
    + split; [left; reflexivity | split; [auto | intros v Hv; discriminate]].
    + split; [left; reflexivity | split; [auto | intros v Hv; discriminate]].
Qed.

Lemma reader_find_cache_witness :
  exists rd, open_db db_ab 4096 = Ok rd /\
    Reader.Find rd 64 = (Reader.cache_add rd 64 [98], Ok [98]) /\
    Reader.Find (Reader.cache_add rd 64 [98]) 64 = (Reader.cache_add rd 64 [98], Ok [98]).
Proof.
  destruct (ok_intro (open_db db_ab 4096)
              (fun rd => Reader.Find rd 64 = (Reader.cache_add rd 64 [98], Ok [98]) /\
                         1 <= Reader.cache_size rd))
    as (rd & Hrd & Hf & Hc); [vm_compute; split; [reflexivity | discriminate] | ].
  exists rd. split; [exact Hrd | split; [exact Hf | ]].
  destruct (reader_find_cache _ _ _ _ Hf) as (_ & _ & H).
  exact (H [98] eq_refl Hc).
Defined.

Lemma step_length st kw : length (Sha512_256.step st kw) = length st.
Proof.
  unfold Sha512_256.step. do 8 (destruct st as [| ? st]; [reflexivity | ]).
  destruct st; reflexivity.
Qed.

Lemma fold_step_length l st : length (fold_left Sha512_256.step l st) = length st.
Proof.
  revert st; induction l as [| kw l IH]; intros st; [reflexivity | ].
  cbn [fold_left]. rewrite IH. apply step_length.
Qed.

Lemma block_length st blk : length (Sha512_256.block st blk) = length st.
Proof.
  unfold Sha512_256.block. rewrite length_map, length_combine, fold_step_length.
  apply Nat.min_id.
Qed.

Lemma fold_block_length l st : length (fold_left Sha512_256.block l st) = length st.
Proof.
  revert st; induction l as [| b l IH]; intros st; [reflexivity | ].
  cbn [fold_left]. rewrite IH. apply block_length.
Qed.

Lemma digest_length msg : length (Sha512_256.digest msg) = 32%nat.
Proof.
  unfold Sha512_256.digest. cbv zeta.
  assert (H := fold_block_length (chunks 128 (length (Sha512_256.pad msg)) (Sha512_256.pad msg))
                 Sha512_256.IV).
  destruct (fold_left _ _ _) as [| a [| b [| c [| d l]]]]; cbn in H; try discriminate.
  cbn [firstn map concat]. rewrite !length_app. unfold be_bytes. rewrite !length_rev, !le_bytes_length.
  reflexivity.
Qed.

Lemma forallb_combine_eq (d e : list Z) :
  length d = length e -> forallb (fun p => fst p =? snd p) (combine d e) = true -> d = e.
Proof.
  revert e; induction d as [| x d IH]; intros [| y e] Hl H; cbn in Hl; try discriminate;
    [reflexivity | ].
  cbn in H. apply andb_true_iff in H as [H1 H2]. apply Z.eqb_eq in H1. subst.
  f_equal. apply IH; [lia | exact H2].
Qed.

Lemma bind_ok {A B} (m : outcome A) (k : A -> outcome B) r :
  bind m k = Ok r -> exists a, m = Ok a /\ k a = Ok r.
Proof. destruct m as [a | e | p]; cbn; intros H; [eauto | discriminate | discriminate]. Qed.

Lemma ok_tuple4_inj {A B C D} (a a' : A) (b b' : B) (c c' : C) (d d' : D) :
  @Ok (A * B * C * D) (a, b, c, d) = Ok (a', b', c', d') -> a = a' /\ b = b' /\ c = c' /\ d = d'.
Proof. intros H. inversion H. auto. Qed.

(** A file [NewDBReader] opens is at least 96 bytes long, starts with the
    magic "CHDB", has the salt, key count and offset-table position at bytes
    8, 24 and 32 of the header, an offset table that is page-aligned and lies
    between the header and the trailer, and ends with the SHA-512/256 of the
    header and of the bytes from the offset table to the trailer. *)
Theorem NewDBReader_accepts fd cache pgsz rd :
  Reader.NewDBReader fd cache pgsz = Ok rd ->
  let sz := Z.of_nat (length fd) in
  96 <= sz /\
  firstn 4 fd = magic /\
  Reader.salt rd = firstn 16 (skipn 8 fd) /\
  Reader.nkeys rd = be_value (firstn 8 (skipn 24 fd)) /\
  Reader.offtbl rd = be_value (firstn 8 (skipn 32 fd)) /\
  64 <= Reader.offtbl rd < sz - 32 /\
  Reader.offtbl rd mod pgsz = 0 /\
  skipn (Z.to_nat (sz - 32)) fd =
    Sha512_256.digest (firstn 64 fd ++
      firstn (Z.to_nat (sz - Reader.offtbl rd - 32)) (skipn (Z.to_nat (Reader.offtbl rd)) fd)) /\
  Reader.fd rd = fd /\ Reader.cache rd = [] /\
  Reader.cache_size rd = (if cache <=? 0 then 128 else cache).
Proof.
  unfold Reader.NewDBReader. cbv zeta.
  destruct (Z.ltb_spec (Z.of_nat (length fd)) (64 + 32)) as [Hs | Hs]; [discriminate | ].
  destruct (Reader.decodeHeader (firstn 64 fd) (Z.of_nat (length fd)))
    as [[[[fl sa] nk] ot] | e | p] eqn:Eh; cbn [bind]; try discriminate.
  destruct (Reader.verifyChecksum fd (firstn 64 fd) ot (Z.of_nat (length fd)))
    as [[] | e | p] eqn:Ev; cbn [bind]; try discriminate.
  destruct (_ <? _); [discriminate | ].
  destruct (ot mod pgsz =? 0) eqn:Ep; cbn [negb]; [ | discriminate].
  intros H.
  apply bind_ok in H as [o [_ H]]. apply bind_ok in H as [vl [_ H]].
  apply bind_ok in H as [rest [_ H]]. apply bind_ok in H as [c [_ H]].
  injection H as <-. cbv beta iota delta [Reader.salt Reader.nkeys Reader.offtbl Reader.fd
    Reader.cache Reader.cache_size].
  set (hb := firstn 64 fd) in *.
  unfold Reader.decodeHeader in Eh.
  destruct (negb _) eqn:Em; [discriminate | ]. apply negb_false_iff in Em.
  destruct (_ || _) eqn:Eo; [discriminate | ].
  apply ok_tuple4_inj in Eh as (<- & <- & <- & <-).
  apply orb_false_iff in Eo as [Eo1 Eo2]. apply Z.ltb_ge in Eo1. apply Z.leb_gt in Eo2.
  subst hb.
  assert (Hu : u64 (Z.of_nat (length fd) - 32) <= Z.of_nat (length fd) - 32)
    by (unfold u64, W64; apply Z.mod_le; lia).
  unfold Reader.verifyChecksum in Ev.
  destruct (forallb _ _) eqn:Ec in Ev; [clear Ev | discriminate].
  apply forallb_combine_eq in Ec;
    [ | rewrite digest_length, length_skipn, Z2Nat.inj_sub, Nat2Z.id by lia;
        change (Z.to_nat 32) with 32%nat; lia].
  rewrite firstn_firstn in Em. change (Nat.min 4 64) with 4%nat in Em.
  apply forallb_combine_eq in Em; [ | rewrite length_firstn; change (length magic) with 4%nat; lia].
  assert (Hot : firstn 8 (skipn 32 (firstn 64 fd)) = firstn 8 (skipn 32 fd))
    by (rewrite skipn_firstn_comm, firstn_firstn; reflexivity).
  rewrite Hot in Eo1, Eo2, Ep, Ec.
  rewrite !skipn_firstn_comm, !firstn_firstn.
  change (Nat.min 16 (64 - 8)) with 16%nat. change (Nat.min 8 (64 - 24)) with 8%nat.
  change (Nat.min 8 (64 - 32)) with 8%nat.
  split; [lia | split; [exact Em | split; [reflexivity | split; [reflexivity | ]]]].
  split; [reflexivity | split; [lia | split; [apply Z.eqb_eq; exact Ep | ]]].
  split; [symmetry; exact Ec | split; [reflexivity | split; reflexivity]].
Qed.

Lemma NewDBReader_accepts_witness :
  exists fd rd, db_hello = Ok fd /\ Reader.NewDBReader fd 128 4096 = Ok rd /\
    Reader.offtbl rd = be_value (firstn 8 (skipn 32 fd)) /\ Reader.offtbl rd mod 4096 = 0 /\
    Reader.salt rd = firstn 16 (skipn 8 fd).
Proof.
  destruct (ok_intro db_hello
              (fun fd => match Reader.NewDBReader fd 128 4096 with Ok _ => True | _ => False end))
    as (fd & Hfd & Hm); [vm_compute; exact I | ].
  destruct (Reader.NewDBReader fd 128 4096) as [rd | e | p] eqn:E; try contradiction.
  destruct (NewDBReader_accepts _ _ _ _ E) as (_ & _ & Hs & _ & Ho & _ & Hal & _).
  exists fd, rd. split; [exact Hfd | split; [exact E | split; [exact Ho | split; [exact Hal | exact Hs]]]].
Defined.


(** ** endian_be.go: the byte swaps of big-endian hosts *)

Lemma testbit_mask k j : 0 <= k -> Z.testbit (Z.shiftl 255 k) j = (k <=? j) && (j <? k + 8).
Proof.
  intros Hk. destruct (Z.leb_spec 0 j) as [Hj | Hj].
  - rewrite Z.shiftl_spec by exact Hj. change 255 with (Z.ones 8).
    rewrite Z.testbit_ones by lia.
    destruct (Z.leb_spec 0 (j - k)), (Z.leb_spec k j), (Z.ltb_spec (j - k) 8), (Z.ltb_spec j (k + 8));
      try reflexivity; lia.
  - rewrite Z.testbit_neg_r by lia. symmetry. apply andb_false_iff. left. apply Z.leb_gt. lia.
Qed.

Lemma toLittleEndianUint64_bits v i :
  0 <= i ->
  Z.testbit (toLittleEndianUint64 v) i = (i <? 64) && Z.testbit v (8 * (7 - i / 8) + i mod 8).
Proof.
  intros Hi. unfold toLittleEndianUint64.
  change 0x00000000000000ff with (Z.shiftl 255 0).
  change 0x000000000000ff00 with (Z.shiftl 255 8).
  change 0x0000000000ff0000 with (Z.shiftl 255 16).
  change 0x00000000ff000000 with (Z.shiftl 255 24).
  change 0x000000ff00000000 with (Z.shiftl 255 32).
  change 0x0000ff0000000000 with (Z.shiftl 255 40).
  change 0x00ff000000000000 with (Z.shiftl 255 48).
  change 0xff00000000000000 with (Z.shiftl 255 56).
  rewrite !Z.lor_spec.
  rewrite (Z.shiftl_spec _ 56), (Z.shiftl_spec _ 40), (Z.shiftl_spec _ 24), (Z.shiftl_spec _ 8),
    !Z.shiftr_spec by lia.
  rewrite !Z.land_spec, !testbit_mask by lia.
  assert (Hd := Z.div_mod i 8 ltac:(lia)). assert (Hm := Z.mod_pos_bound i 8 ltac:(lia)).
  set (q := i / 8) in *. set (r := i mod 8) in *.
  assert (Hq : q = 0 \/ q = 1 \/ q = 2 \/ q = 3 \/ q = 4 \/ q = 5 \/ q = 6 \/ q = 7 \/ 8 <= q) by lia.
  destruct Hq as [Hq | [Hq | [Hq | [Hq | [Hq | [Hq | [Hq | [Hq | Hq]]]]]]]]; evalb;
    try reflexivity; f_equal; lia.
Qed.

Lemma toLittleEndianUint32_bits v i :
  0 <= i ->
  Z.testbit (toLittleEndianUint32 v) i = (i <? 32) && Z.testbit v (8 * (3 - i / 8) + i mod 8).
Proof.
  intros Hi. unfold toLittleEndianUint32.
  change 0x000000ff with (Z.shiftl 255 0).
  change 0x0000ff00 with (Z.shiftl 255 8).
  change 0x00ff0000 with (Z.shiftl 255 16).
  change 0xff000000 with (Z.shiftl 255 24).
  rewrite !Z.lor_spec.
  rewrite (Z.shiftl_spec _ 24), (Z.shiftl_spec _ 8), !Z.shiftr_spec by lia.
  rewrite !Z.land_spec, !testbit_mask by lia.
  assert (Hd := Z.div_mod i 8 ltac:(lia)). assert (Hm := Z.mod_pos_bound i 8 ltac:(lia)).
  set (q := i / 8) in *. set (r := i mod 8) in *.
  assert (Hq : q = 0 \/ q = 1 \/ q = 2 \/ q = 3 \/ 4 <= q) by lia.
  destruct Hq as [Hq | [Hq | [Hq | [Hq | Hq]]]]; evalb; try reflexivity; f_equal; lia.
Qed.

Lemma toLittleEndianUint16_bits v i :
  0 <= i ->
  Z.testbit (toLittleEndianUint16 v) i = (i <? 16) && Z.testbit v (8 * (1 - i / 8) + i mod 8).
Proof.
  intros Hi. unfold toLittleEndianUint16.
  change 0x00ff with (Z.shiftl 255 0).
  change 0xff00 with (Z.shiftl 255 8).
  rewrite !Z.lor_spec.
  rewrite (Z.shiftl_spec _ 8), !Z.shiftr_spec by lia.
  rewrite !Z.land_spec, !testbit_mask by lia.
  assert (Hd := Z.div_mod i 8 ltac:(lia)). assert (Hm := Z.mod_pos_bound i 8 ltac:(lia)).
  set (q := i / 8) in *. set (r := i mod 8) in *.
  assert (Hq : q = 0 \/ q = 1 \/ 2 <= q) by lia.
  destruct Hq as [Hq | [Hq | Hq]]; evalb; try reflexivity; f_equal; lia.
Qed.

Lemma testbit_byte_step b x j :
  0 <= b < 256 -> 0 <= x -> 0 <= j ->
  Z.testbit (b + 256 * x) j = if j <? 8 then Z.testbit b j else Z.testbit x (j - 8).
Proof.
  intros Hb Hx Hj. destruct (Z.ltb_spec j 8) as [Hl | Hl].
  - rewrite <- (Z.mod_pow2_bits_low _ 8 j) by lia.
    change (2 ^ 8) with 256. rewrite Z.mul_comm, Z.mod_add, Z.mod_small by lia. reflexivity.
  - replace j with ((j - 8) + 8) at 1 by lia. rewrite <- Z.shiftr_spec by lia.
    rewrite Z.shiftr_div_pow2 by lia. change (2 ^ 8) with 256.
    rewrite Z.mul_comm, Z.div_add, Z.div_small by lia. reflexivity.
Qed.

Lemma testbit_le_value bs j :
  Forall is_byte bs -> 0 <= j ->
  Z.testbit (le_value bs) j = Z.testbit (nth (Z.to_nat (j / 8)) bs 0) (j mod 8).
Proof.
  intros Hb. revert j. induction Hb as [| b t Hb Ht IH]; intros j Hj.
  - cbn [le_value]. rewrite Z.bits_0. destruct (Z.to_nat (j / 8)); cbn [nth]; rewrite Z.bits_0; reflexivity.
  - cbn [le_value]. unfold is_byte in Hb.
    rewrite testbit_byte_step by (try apply le_value_range; auto; lia).
    destruct (Z.ltb_spec j 8) as [Hl | Hl].
    + rewrite Z.div_small, Z.mod_small by lia. reflexivity.
    + rewrite IH by lia.
      replace (Z.to_nat (j / 8)) with (S (Z.to_nat ((j - 8) / 8))).
      * cbn [nth]. f_equal. replace j with ((j - 8) + 1 * 8) at 2 by lia.
        rewrite Z.mod_add by lia. reflexivity.
      * replace j with ((j - 8) + 1 * 8) at 2 by lia. rewrite Z.div_add by lia.
        assert (0 <= (j - 8) / 8) by (apply Z.div_pos; lia). lia.
Qed.

Lemma byte_swap_gen (f : Z -> Z) (n : Z) bs :
  (forall v i, 0 <= i -> Z.testbit (f v) i = (i <? 8 * n) && Z.testbit v (8 * (n - 1 - i / 8) + i mod 8)) ->
  Forall is_byte bs -> Z.of_nat (length bs) = n -> f (be_value bs) = le_value bs.
Proof.
  intros Hf Hb Hl. apply Z.bits_inj'. intros i Hi.
  rewrite Hf, (testbit_le_value bs) by assumption.
  destruct (Z.ltb_spec i (8 * n)) as [Hlt | Hge]; cbn [andb].
  - unfold be_value. rewrite testbit_le_value; [ | apply Forall_rev; exact Hb | ].
    2: { Z.div_mod_to_equations; lia. }
    assert (Hq : (8 * (n - 1 - i / 8) + i mod 8) / 8 = n - 1 - i / 8)
      by (Z.div_mod_to_equations; lia).
    assert (Hr : (8 * (n - 1 - i / 8) + i mod 8) mod 8 = i mod 8)
      by (Z.div_mod_to_equations; lia).
    rewrite Hq, Hr. rewrite rev_nth.
    + f_equal. f_equal. assert (0 <= i / 8 < n) by (Z.div_mod_to_equations; lia). lia.
    + assert (0 <= i / 8 < n) by (Z.div_mod_to_equations; lia). lia.
  - rewrite nth_overflow.
    + rewrite Z.bits_0. reflexivity.
    + assert (n <= i / 8) by (Z.div_mod_to_equations; lia). lia.
Qed.

(** On the big-endian hosts endian_be.go is built for, 8 (4, 2) bytes load
    as their big-endian value; [toLittleEndianUint64/32/16] of it is their
    little-endian value, the one the file stores: the functions swap the byte
    order. *)
Theorem toLittleEndian_bytes bs :
  Forall is_byte bs ->
  (length bs = 8%nat -> toLittleEndianUint64 (be_value bs) = le_value bs) /\
  (length bs = 4%nat -> toLittleEndianUint32 (be_value bs) = le_value bs) /\
  (length bs = 2%nat -> toLittleEndianUint16 (be_value bs) = le_value bs).
Proof.
  intros Hb. split; [ | split]; intros Hl; (eapply byte_swap_gen; [ | exact Hb | rewrite Hl; reflexivity]).
  - exact toLittleEndianUint64_bits.
  - exact toLittleEndianUint32_bits.
  - exact toLittleEndianUint16_bits.
Qed.

Lemma toLittleEndian_bytes_witness :
  (length [1; 2; 3; 4; 5; 6; 7; 8] = 8%nat ->
     toLittleEndianUint64 (be_value [1; 2; 3; 4; 5; 6; 7; 8]) = le_value [1; 2; 3; 4; 5; 6; 7; 8]) /\
  (length [1; 2; 3; 4; 5; 6; 7; 8] = 4%nat ->
     toLittleEndianUint32 (be_value [1; 2; 3; 4; 5; 6; 7; 8]) = le_value [1; 2; 3; 4; 5; 6; 7; 8]) /\
  (length [1; 2; 3; 4; 5; 6; 7; 8] = 2%nat ->
     toLittleEndianUint16 (be_value [1; 2; 3; 4; 5; 6; 7; 8]) = le_value [1; 2; 3; 4; 5; 6; 7; 8]).
Proof.
  apply toLittleEndian_bytes. repeat (constructor; [unfold is_byte; lia | ]). constructor.
Defined.

Lemma byte_swap_involutive_gen (f : Z -> Z) (n : Z) v :
  0 < n ->
  (forall v i, 0 <= i -> Z.testbit (f v) i = (i <? 8 * n) && Z.testbit v (8 * (n - 1 - i / 8) + i mod 8)) ->
  0 <= v < 2 ^ (8 * n) -> f (f v) = v.
Proof.
  intros Hn Hf Hv. apply Z.bits_inj'. intros i Hi.
  rewrite Hf by exact Hi.
  destruct (Z.ltb_spec i (8 * n)) as [Hlt | Hge]; cbn [andb].
  - rewrite Hf by (Z.div_mod_to_equations; lia).
    rewrite (proj2 (Z.ltb_lt _ _)) by (Z.div_mod_to_equations; lia). cbn [andb].
    f_equal. Z.div_mod_to_equations. lia.
  - symmetry. destruct (Z.eq_dec v 0) as [-> | Hv0]; [apply Z.bits_0 | ].
    apply Z.bits_above_log2; [lia | ].
    assert (Z.log2 v < 8 * n) by (apply Z.log2_lt_pow2; lia). lia.
Qed.

(** [toLittleEndianUint64/32/16] applied twice gives back the value. *)
Theorem toLittleEndian_involutive v :
  (0 <= v < 2 ^ 64 -> toLittleEndianUint64 (toLittleEndianUint64 v) = v) /\
  (0 <= v < 2 ^ 32 -> toLittleEndianUint32 (toLittleEndianUint32 v) = v) /\
  (0 <= v < 2 ^ 16 -> toLittleEndianUint16 (toLittleEndianUint16 v) = v).
Proof.
  split; [ | split]; intros Hv.
  - apply (byte_swap_involutive_gen _ 8); [lia | exact toLittleEndianUint64_bits | exact Hv].
  - apply (byte_swap_involutive_gen _ 4); [lia | exact toLittleEndianUint32_bits | exact Hv].
  - apply (byte_swap_involutive_gen _ 2); [lia | exact toLittleEndianUint16_bits | exact Hv].
Qed.


(** ** dbwriter.go and dbreader.go: the file Freeze writes *)

Lemma firstn_app_exact {A} (a b : list A) n : length a = n -> firstn n (a ++ b) = a.
Proof. intros <-. rewrite firstn_app, Nat.sub_diag, firstn_O, app_nil_r. apply firstn_all. Qed.

Lemma skipn_app_exact {A} (a b : list A) n : length a = n -> skipn n (a ++ b) = b.
Proof. intros <-. rewrite skipn_app, Nat.sub_diag, skipn_all. reflexivity. Qed.

Lemma header_length w n o :
  length (Writer.salt w) = 16%nat -> length (Writer.header w n o) = 64%nat.
Proof.
  intros Hs. unfold Writer.header. rewrite Hs. unfold be64, be_bytes.
  rewrite !length_app, !length_rev, !le_bytes_length, repeat_length, Hs. reflexivity.
Qed.

Lemma decodeHeader_header w n o sz :
  length (Writer.salt w) = 16%nat -> 0 <= n < W64 -> 0 <= o < W64 ->
  64 <= o -> o < u64 (sz - 32) ->
  Reader.decodeHeader (Writer.header w n o) sz = Ok (0, Writer.salt w, n, o).
Proof.
  intros Hs Hn Ho H64 Hsz. unfold Writer.header. rewrite Hs.
  change (64 - 24 - 16)%nat with 24%nat.
  set (rest := be64 o ++ repeat 0 24).
  set (s := Writer.salt w) in *.
  assert (E4 : firstn 4 (magic ++ [0; 0; 0; 0] ++ s ++ be64 n ++ rest) = magic)
    by (apply firstn_app_exact; reflexivity).
  assert (F4 : firstn 4 (skipn 4 (magic ++ [0; 0; 0; 0] ++ s ++ be64 n ++ rest)) = [0; 0; 0; 0])
    by (rewrite (skipn_app_exact _ _ 4%nat) by reflexivity; apply firstn_app_exact; reflexivity).
  assert (S8 : skipn 8 (magic ++ [0; 0; 0; 0] ++ s ++ be64 n ++ rest) = s ++ be64 n ++ rest)
    by (rewrite app_assoc; apply skipn_app_exact; reflexivity).
  assert (S24 : skipn 24 (magic ++ [0; 0; 0; 0] ++ s ++ be64 n ++ rest) = be64 n ++ rest)
    by (rewrite !app_assoc, <- (app_assoc _ _ rest); apply skipn_app_exact;
        rewrite !length_app, Hs; reflexivity).
  assert (S32 : skipn 32 (magic ++ [0; 0; 0; 0] ++ s ++ be64 n ++ rest) = rest)
    by (rewrite !app_assoc; apply skipn_app_exact;
        rewrite !length_app, Hs, be64_length; reflexivity).
  unfold Reader.decodeHeader. rewrite E4, F4, S8, S24, S32.
  rewrite (firstn_app_exact _ _ _ Hs), (firstn_app_exact _ _ 8%nat) by apply be64_length.
  subst rest. rewrite (firstn_app_exact _ _ 8%nat) by apply be64_length.
  rewrite !be_value_be64. change (2 ^ 64) with W64.
  rewrite !Z.mod_small by lia.
  rewrite (proj2 (Z.ltb_ge o 64)) by lia. rewrite (proj2 (Z.leb_gt _ o)) by lia.
  reflexivity.
Qed.

Lemma forallb_combine_refl (d : list Z) : forallb (fun p => fst p =? snd p) (combine d d) = true.
Proof. induction d as [| x d IH]; [reflexivity | cbn; rewrite Z.eqb_refl, IH; reflexivity]. Qed.

Lemma verify_layout H pre M o :
  0 <= o -> length pre = Z.to_nat o ->
  Reader.verifyChecksum (pre ++ M ++ Sha512_256.digest (H ++ M)) H o
    (Z.of_nat (length (pre ++ M ++ Sha512_256.digest (H ++ M)))) = Ok tt.
Proof.
  intros Ho Hp. unfold Reader.verifyChecksum.
  rewrite !length_app, digest_length, Hp.
  replace (Z.to_nat (Z.of_nat (Z.to_nat o + (length M + 32)) - o - 32)) with (length M) by lia.
  replace (Z.to_nat (Z.of_nat (Z.to_nat o + (length M + 32)) - 32)) with (length (pre ++ M))
    by (rewrite length_app; lia).
  rewrite (skipn_app_exact _ _ _ Hp), (firstn_app_exact _ _ (length M)) by reflexivity.
  rewrite app_assoc, (skipn_app_exact _ _ _ eq_refl), forallb_combine_refl. reflexivity.
Qed.

Lemma go_slice_ok {A} (b : list A) lo hi :
  0 <= lo <= hi -> hi <= Z.of_nat (length b) ->
  go_slice b lo hi = Ok (firstn (Z.to_nat (hi - lo)) (skipn (Z.to_nat lo) b)).
Proof.
  intros Hl Hh. unfold go_slice.
  rewrite (proj2 (Z.leb_le 0 lo)), (proj2 (Z.leb_le lo hi)), (proj2 (Z.leb_le hi _)) by lia.
  reflexivity.
Qed.

Lemma reader_on_layout w n o mid tb rest cache pgsz :
  length (Writer.salt w) = 16%nat -> 0 <= n -> 64 <= o ->
  length mid = Z.to_nat (o - 64) -> 0 < pgsz -> o mod pgsz = 0 ->
  length tb = Z.to_nat (20 * n) -> (8 <= length rest)%nat ->
  Z.of_nat (length (Writer.header w n o ++ mid ++ (tb ++ rest) ++
      Sha512_256.digest (Writer.header w n o ++ tb ++ rest))) < 2 ^ 63 ->
  Reader.NewDBReader (Writer.header w n o ++ mid ++ (tb ++ rest) ++
      Sha512_256.digest (Writer.header w n o ++ tb ++ rest)) cache pgsz =
  match UnmarshalBinaryMmap rest with
  | Ok c => Ok (Reader.mk c [] (if cache <=? 0 then 128 else cache) 0
                 (bsToUint64Slice (firstn (Z.to_nat (16 * n)) tb))
                 (if 0 <? 4 * n then bsToUint32Slice (skipn (Z.to_nat (16 * n)) tb) else [])
                 n (Writer.salt w) o
                 (Writer.header w n o ++ mid ++ (tb ++ rest) ++
                    Sha512_256.digest (Writer.header w n o ++ tb ++ rest)))
  | Err e => Err (ErrUnmarshal e)
  | Panic p => Panic p
  end.
Proof.
  intros Hs Hn Ho Hmid Hpg Hal Htb Hr Hlen.
  pose proof (header_length w n o Hs) as Hhl.
  set (hd := Writer.header w n o) in *. set (M := tb ++ rest) in *.
  set (file := hd ++ mid ++ M ++ Sha512_256.digest (hd ++ M)) in *.
  assert (HM : length M = (Z.to_nat (20 * n) + length rest)%nat) by (subst M; rewrite length_app; lia).
  assert (Hf : length file = (Z.to_nat o + length M + 32)%nat)
    by (subst file; rewrite !length_app, digest_length; lia).
  assert (Hsz : Z.of_nat (length file) = o + Z.of_nat (length M) + 32) by (rewrite Hf; lia).
  assert (HMz : Z.of_nat (length M) = 20 * n + Z.of_nat (length rest)) by (rewrite HM; lia).
  unfold Reader.NewDBReader. cbv zeta.
  assert (Hh : firstn 64 file = hd) by (subst file; apply firstn_app_exact; exact Hhl).
  rewrite Hh.
  rewrite (proj2 (Z.ltb_ge _ _)) by lia.
  assert (Hd : Reader.decodeHeader hd (Z.of_nat (length file)) = Ok (0, Writer.salt w, n, o))
    by (apply decodeHeader_header; unfold u64 in *; try rewrite Z.mod_small; unfold W64 in *; lia).
  rewrite Hd.
  cbn [bind].
  assert (Hv : Reader.verifyChecksum file hd o (Z.of_nat (length file)) = Ok tt)
    by (subst file; rewrite app_assoc; apply verify_layout; [lia | rewrite length_app; lia]).
  rewrite Hv. cbn [bind].
  change (Reader.keys_only 0) with false. cbv beta iota.
  assert (E20 : mul64 n (8 + 8 + 4) = 20 * n) by (unfold mul64, u64, W64; rewrite Z.mod_small; lia).
  assert (E16 : mul64 n (8 + 8) = 16 * n) by (unfold mul64, u64, W64; rewrite Z.mod_small; lia).
  assert (E4 : mul64 n 4 = 4 * n) by (unfold mul64, u64, W64; rewrite Z.mod_small; lia).
  assert (E96 : add64 (64 + 32) (20 * n) = 96 + 20 * n) by (unfold add64, u64, W64; rewrite Z.mod_small; lia).
  assert (E164 : add64 (16 * n) (4 * n) = 20 * n) by (unfold add64, u64, W64; rewrite Z.mod_small; lia).
  rewrite E20, E16, E4, E96, E164.
  rewrite (proj2 (Z.ltb_ge _ _)) by lia.
  rewrite Hal. change (negb (0 =? 0)) with false. cbv beta iota.
  assert (Hbs : firstn (Z.to_nat (Z.of_nat (length file) - o - 32)) (skipn (Z.to_nat o) file) = M).
  { rewrite Hsz. replace (Z.to_nat (o + Z.of_nat (length M) + 32 - o - 32)) with (length M) by lia.
    subst file. rewrite app_assoc, (skipn_app_exact _ _ (Z.to_nat o)) by (rewrite length_app; lia).
    apply firstn_app_exact. reflexivity. }
  rewrite Hbs.
  rewrite (go_slice_ok M 0 (16 * n)) by lia. cbn [bind].
  rewrite Z.sub_0_r. change (Z.to_nat 0) with 0%nat. rewrite skipn_O.
  assert (Ho0 : firstn (Z.to_nat (16 * n)) M = firstn (Z.to_nat (16 * n)) tb)
    by (subst M; rewrite firstn_app, (proj2 (Nat.sub_0_le _ _)) by lia; apply app_nil_r).
  rewrite Ho0.
  rewrite (go_slice_ok M (20 * n) (Z.of_nat (length M))) by lia.
  assert (Hrest : firstn (Z.to_nat (Z.of_nat (length M) - 20 * n)) (skipn (Z.to_nat (20 * n)) M) = rest).
  { subst M. rewrite (skipn_app_exact _ _ _ Htb). apply firstn_all2. lia. }
  rewrite Hrest.
  destruct (0 <? 4 * n) eqn:E0.
  - rewrite (go_slice_ok M (16 * n) (20 * n)) by lia. cbn [bind].
    assert (Hvl : firstn (Z.to_nat (20 * n - 16 * n)) (skipn (Z.to_nat (16 * n)) M) =
                  skipn (Z.to_nat (16 * n)) tb).
    { subst M. rewrite skipn_app, (proj2 (Nat.sub_0_le _ _)) by lia. rewrite skipn_O.
      apply firstn_app_exact. rewrite length_skipn. lia. }
    rewrite Hvl. destruct (UnmarshalBinaryMmap rest); reflexivity.
  - cbn [bind]. destruct (UnmarshalBinaryMmap rest); reflexivity.
Qed.

Lemma ok_pair_inj {A B} (a a' : A) (b b' : B) : @Ok (A * B) (a, b) = Ok (a', b') -> a = a' /\ b = b'.
Proof. intros H. inversion H. auto. Qed.

Lemma place_length c t kv a b :
  Writer.place c t kv = Ok (a, b) ->
  exists a0 b0, t = Ok (a0, b0) /\ length a = length a0 /\ length b = length b0.
Proof.
  unfold Writer.place. destruct t as [[a0 b0] | e | p]; cbn [bind]; intros H; try discriminate.
  exists a0, b0. split; [reflexivity | ]. destruct kv as [k r].
  apply bind_ok in H as (i & _ & H).
  apply bind_ok in H as (b1 & Hb1 & H).
  apply bind_ok in H as (a1 & Ha1 & H).
  apply bind_ok in H as (a2 & Ha2 & H).
  injection H as <- <-.
  apply go_set_length in Hb1, Ha1, Ha2. split; congruence.
Qed.

Lemma fold_place_length c l t a b :
  fold_left (Writer.place c) l t = Ok (a, b) ->
  exists a0 b0, t = Ok (a0, b0) /\ length a = length a0 /\ length b = length b0.
Proof.
  revert t; induction l as [| kv l IH]; intros t H; cbn [fold_left] in H.
  - subst t. exists a, b. auto.
  - apply IH in H as (a1 & b1 & Ht & Ha & Hb).
    apply place_length in Ht as (a0 & b0 & -> & Ha' & Hb').
    exists a0, b0. split; [reflexivity | split; congruence].
Qed.

Lemma marshalOffsets_layout w c tb off2 :
  Writer.marshalOffsets w c = Ok (tb, off2) ->
  length tb = (20 * Z.to_nat (Len c))%nat /\ off2 = add64 (Writer.off w) (Len c * 20).
Proof.
  unfold Writer.marshalOffsets. intros H.
  apply bind_ok in H as ([a b] & Ht & H). injection H as <- <-.
  split; [ | reflexivity].
  unfold Writer.offset_tables in Ht. apply fold_place_length in Ht as (a0 & b0 & Ht & Ha & Hb).
  apply ok_pair_inj in Ht as [<- <-]. rewrite repeat_length in Ha, Hb.
  cbn [fst snd]. unfold u64sToByteSlice, u32sToByteSlice, le64, le32.
  rewrite !length_app, !concat_words_length, Ha, Hb.
  unfold Len. lia.
Qed.

Lemma pad_if (fd : list Z) o a :
  o <= a ->
  (if o <? a then (fd ++ repeat 0 (Z.to_nat (a - o)), a) else (fd, o)) =
  (fd ++ repeat 0 (Z.to_nat (a - o)), a).
Proof.
  intros H. destruct (Z.ltb_spec o a); [reflexivity | ].
  replace a with o by lia. rewrite Z.sub_diag, app_nil_r. reflexivity.
Qed.

Lemma pad_if3 (fd h : list Z) o a :
  o <= a ->
  (if o <? a then (fd ++ repeat 0 (Z.to_nat (a - o)), h ++ repeat 0 (Z.to_nat (a - o)), a)
   else (fd, h, o)) =
  (fd ++ repeat 0 (Z.to_nat (a - o)), h ++ repeat 0 (Z.to_nat (a - o)), a).
Proof.
  intros H. destruct (Z.ltb_spec o a); [reflexivity | ].
  replace a with o by lia. rewrite Z.sub_diag, !app_nil_r. reflexivity.
Qed.

Lemma align_up x p :
  0 <= p <= 62 -> 0 <= x < 2 ^ 63 ->
  Z.land (add64 x (2 ^ p - 1)) (not64 (2 ^ p - 1)) = (x + 2 ^ p - 1) / 2 ^ p * 2 ^ p.
Proof.
  intros Hp Hx. assert (H2 : 2 ^ p <= 2 ^ 62) by (apply Z.pow_le_mono_r; lia).
  assert (H1 : 0 < 2 ^ p) by (apply Z.pow_pos_nonneg; lia).
  assert (Hadd : add64 x (2 ^ p - 1) = x + 2 ^ p - 1)
    by (unfold add64, u64, W64; rewrite Z.mod_small; lia).
  rewrite Hadd, land_not64_mask by (unfold W64; lia). reflexivity.
Qed.

Lemma pad_if_gen (fd : list Z) o a :
  (if o <? a then (fd ++ repeat 0 (Z.to_nat (a - o)), a) else (fd, o)) =
  (fd ++ repeat 0 (Z.to_nat (a - o)), if o <? a then a else o).
Proof.
  destruct (Z.ltb_spec o a); [reflexivity | ].
  replace (Z.to_nat (a - o)) with 0%nat by lia. rewrite app_nil_r. reflexivity.
Qed.

Lemma pad_if3_gen (fd h : list Z) o a :
  (if o <? a then (fd ++ repeat 0 (Z.to_nat (a - o)), h ++ repeat 0 (Z.to_nat (a - o)), a)
   else (fd, h, o)) =
  (fd ++ repeat 0 (Z.to_nat (a - o)), h ++ repeat 0 (Z.to_nat (a - o)), if o <? a then a else o).
Proof.
  destruct (Z.ltb_spec o a); [reflexivity | ].
  replace (Z.to_nat (a - o)) with 0%nat by lia. rewrite !app_nil_r. reflexivity.
Qed.

Lemma ok_inj {A} (a b : A) : Ok a = Ok b -> a = b.
Proof. intros H. inversion H. reflexivity. Qed.

Lemma skipn_app_le {A} n (a b : list A) : (n <= length a)%nat -> skipn n (a ++ b) = skipn n a ++ b.
Proof. intros H. rewrite skipn_app, (proj2 (Nat.sub_0_le _ _)) by exact H. reflexivity. Qed.

(** The file [Freeze] writes (a writer with a 16-byte salt and a power-of-two
    page size of at least 8) opens with [NewDBReader] at that page size, with
    the seeds of the table built, its size as the key count, the writer's salt
    and no flags, unless the table has exactly one slot: then 4 bytes of
    alignment padding stand where the reader expects the table's version byte,
    and [NewDBReader] fails with [ErrVersion]. *)
Theorem writer_freeze_opens w load pgsz p file cache :
  writer_inv w -> (64 <= length (Writer.fd w))%nat -> length (Writer.salt w) = 16%nat ->
  3 <= p <= 62 -> pgsz = 2 ^ p ->
  Writer.Freeze w load pgsz = Ok file -> Z.of_nat (length file) < 2 ^ 63 ->
  exists c, Freeze (Writer.bb w) load = Ok c /\
    (Len c <> 1 -> exists rd, Reader.NewDBReader file cache pgsz = Ok rd /\
       Reader.chd rd = mkChd (seeds c) 0 /\ Reader.nkeys rd = Len c /\
       Reader.salt rd = Writer.salt w /\ Reader.flags rd = 0 /\ Reader.fd rd = file) /\
    (Len c = 1 -> Reader.NewDBReader file cache pgsz = Err (ErrUnmarshal ErrVersion)).
Proof.
  intros [_ Hoff] H64 Hs Hp -> HF Hlen.
  unfold Writer.Freeze in HF.
  destruct (Writer.frozen w); [discriminate | ].
  destruct (Freeze (Writer.bb w) load) as [c | e | pp] eqn:Ec; cbn [bind] in HF; try discriminate.
  exists c. split; [reflexivity | ].
  cbv zeta in HF.
  set (ot := Z.land (add64 (Writer.off w) (2 ^ p - 1)) (not64 (2 ^ p - 1))) in HF.
  rewrite pad_if_gen in HF. cbv beta iota in HF.
  set (pad1 := repeat 0 (Z.to_nat (ot - Writer.off w))) in HF.
  set (off1 := if Writer.off w <? ot then ot else Writer.off w) in HF.
  destruct (Writer.marshalOffsets (Writer.with_fd w (Writer.fd w ++ pad1) off1) c)
    as [[tb off2] | e | pp] eqn:Em; cbn [bind] in HF; try discriminate.
  cbv beta iota in HF.
  rewrite pad_if3_gen in HF. cbv beta iota in HF.
  destruct (MarshalBinary c) as [cb nw] eqn:Emb. cbv beta iota in HF.
  apply ok_inj in HF.
  set (z := repeat 0 (Z.to_nat (Z.land (add64 off2 7) (not64 7) - off2))) in HF.
  rewrite <- !app_assoc in HF. rewrite skipn_app_le in HF by exact H64.
  set (L := length (Writer.fd w)) in *.
  pose proof (header_length w (Len c) ot Hs) as Hhl.
  assert (Hlf : length file = (64 + (L - 64) + length pad1 + length tb + length z + length cb + 32)%nat)
    by (rewrite <- HF; rewrite !length_app, Hhl, length_skipn, digest_length; lia).
  assert (HP : 0 < 2 ^ p) by (apply Z.pow_pos_nonneg; lia).
  assert (HP62 : 2 ^ p <= 2 ^ 62) by (apply Z.pow_le_mono_r; lia).
  assert (HL : Z.of_nat L < 2 ^ 63) by lia.
  assert (Ho : Writer.off w = Z.of_nat L) by (rewrite Hoff; apply Z.mod_small; unfold W64; lia).
  assert (Hot : ot = (Z.of_nat L + 2 ^ p - 1) / 2 ^ p * 2 ^ p)
    by (subst ot; rewrite Ho; apply align_up; lia).
  pose proof (Z.div_mod (Z.of_nat L + 2 ^ p - 1) (2 ^ p) ltac:(lia)) as Hdm.
  pose proof (Z.mod_pos_bound (Z.of_nat L + 2 ^ p - 1) (2 ^ p) HP) as Hmb.
  assert (Hot1 : Z.of_nat L <= ot <= Z.of_nat L + 2 ^ p - 1) by lia.
  assert (Hal : ot mod 2 ^ p = 0) by (rewrite Hot; apply Z.mod_mul; lia).
  assert (Hal8 : exists t, ot = 8 * t).
  { exists ((Z.of_nat L + 2 ^ p - 1) / 2 ^ p * 2 ^ (p - 3)). rewrite Hot.
    replace (2 ^ p) with (2 ^ 3 * 2 ^ (p - 3)) at 3 by (rewrite <- Z.pow_add_r by lia; f_equal; lia).
    change (2 ^ 3) with 8. ring. }
  assert (Hoff1 : off1 = ot) by (subst off1; destruct (Z.ltb_spec (Writer.off w) ot); lia).
  assert (Hpad : length pad1 = Z.to_nat (ot - Z.of_nat L)) by (subst pad1; rewrite repeat_length, Ho; reflexivity).
  apply marshalOffsets_layout in Em as [Htb Hoff2]. cbn [Writer.off Writer.with_fd] in Hoff2.
  rewrite Hoff1 in Hoff2.
  assert (Hn := float_quot_u64_range (Z.of_nat (length (data (Writer.bb w)))) load).
  apply nextpow2_zero_or_pow2 in Hn. rewrite <- (freeze_len _ _ _ Ec) in Hn.
  assert (Hn0 : 0 <= Len c) by (unfold Len; lia).
  assert (Hoff2' : off2 = ot + 20 * Len c)
    by (rewrite Hoff2; unfold add64, u64, W64; rewrite Z.mod_small; lia).
  assert (H7 : Z.land (add64 off2 7) (not64 7) = (off2 + 2 ^ 3 - 1) / 2 ^ 3 * 2 ^ 3)
    by (exact (align_up off2 3 ltac:(lia) ltac:(lia))).
  destruct Hal8 as [t Ht].
  assert (Hpar : Len c = 1 \/ exists m, Len c = 2 * m).
  { destruct Hn as [H0 | (k & Hk & Hk2)]; [right; exists 0; lia | ].
    destruct (Z.eq_dec k 0) as [-> | Hk0]; [left; exact Hk2 | right].
    exists (2 ^ (k - 1)). rewrite Hk2, <- Z.pow_succ_r by lia. f_equal. lia. }
  assert (Hcb : cb = fst (MarshalBinary c)) by (rewrite Emb; reflexivity).
  assert (Hcbl : (8 <= length cb)%nat)
    by (rewrite Hcb; unfold MarshalBinary; cbn [fst]; rewrite length_app; cbn [length]; lia).
  assert (Hfile : file = Writer.header w (Len c) ot ++ (skipn 64 (Writer.fd w) ++ pad1) ++
                         (tb ++ (z ++ cb)) ++
                         Sha512_256.digest (Writer.header w (Len c) ot ++ tb ++ (z ++ cb)))
    by (rewrite <- HF; rewrite <- !app_assoc; reflexivity).
  rewrite Hfile in Hlen |- *.
  rewrite reader_on_layout;
    [ | exact Hs | exact Hn0 | lia | rewrite length_app, length_skipn, Hpad; lia | exact HP
    | exact Hal | rewrite Htb; lia | rewrite length_app; lia | exact Hlen].
  assert (Hseeds : Forall (fun s => 0 <= s < W64) (seeds c)).
  { eapply Forall_impl; [ | exact (freeze_seeds _ _ _ Ec)]. intros x Hx. unfold _MaxSeed in Hx. unfold W64. lia. }
  destruct Hpar as [H1 | (m & Hm)].
  - assert (Hz : z = [0; 0; 0; 0]).
    { subst z. rewrite H7, Hoff2', Ht, H1.
      replace (Z.to_nat ((8 * t + 20 * 1 + 2 ^ 3 - 1) / 2 ^ 3 * 2 ^ 3 - (8 * t + 20 * 1))) with 4%nat
        by (change (2 ^ 3) with 8; Z.div_mod_to_equations; lia).
      reflexivity. }
    split; [intros Hne; contradiction | intros _].
    rewrite Hz, unmarshal_header by (cbn [length app]; lia).
    reflexivity.
  - assert (Hz : z = []).
    { subst z. rewrite H7, Hoff2', Ht, Hm.
      replace (Z.to_nat ((8 * t + 20 * (2 * m) + 2 ^ 3 - 1) / 2 ^ 3 * 2 ^ 3 - (8 * t + 20 * (2 * m))))
        with 0%nat by (change (2 ^ 3) with 8; Z.div_mod_to_equations; lia).
      reflexivity. }
    split; [intros _ | intros H1; lia].
    rewrite Hz, app_nil_l, Hcb, unmarshal_marshal by exact Hseeds.
    eexists. split; [reflexivity | ].
    repeat split.
Qed.

Lemma writer_freeze_opens_witness :
  exists w file c, Writer.add_all salt0 [(0xdead, hello); (0xbeef, world)] = Ok w /\
    Writer.Freeze w (1#2) 4096 = Ok file /\ Freeze (Writer.bb w) (1#2) = Ok c /\
    Len c = 4 /\
    exists rd, Reader.NewDBReader file 128 4096 = Ok rd /\ Reader.chd rd = mkChd (seeds c) 0.
Proof.
  destruct (ok_intro (Writer.add_all salt0 [(0xdead, hello); (0xbeef, world)])
              (fun w => writer_inv w /\ (64 <= length (Writer.fd w))%nat /\
                        length (Writer.salt w) = 16%nat /\
                        match Writer.Freeze w (1#2) 4096 with
                        | Ok f => Z.of_nat (length f) < 2 ^ 63 | _ => False end /\
                        Freeze (Writer.bb w) (1#2) = Ok (mkChd [1; 0; 1; 0] 0)))
    as (w & Hw & Hi & H64 & Hs & Hf & Hc).
  { vm_compute. split; [split; reflexivity | ].
    split; [repeat constructor | split; [reflexivity | split; reflexivity]]. }
  destruct (Writer.Freeze w (1#2) 4096) as [file | e | pp] eqn:E; try contradiction.
  destruct (writer_freeze_opens w (1#2) 4096 12 file 128 Hi H64 Hs ltac:(lia) eq_refl E Hf)
    as (c & Hc' & Hne & _).
  rewrite Hc in Hc'. apply ok_inj in Hc'. subst c.
  exists w, file, (mkChd [1; 0; 1; 0] 0).
  split; [exact Hw | split; [exact E | split; [exact Hc | split; [reflexivity | ]]]].
  destruct (Hne ltac:(discriminate)) as (rd & Hrd & Hch & _).
  exists rd. split; [exact Hrd | exact Hch].
Defined.

(** ** chd.go, current revision: unmarshalling *)

Lemma salted_unmarshal_eq buf :
  (16 <= length buf)%nat ->
  Salted.UnmarshalBinaryMmap buf =
  if negb (nth 0 buf 0 =? 1) then Err ErrVersion else
  let size := nth 1 buf 0 in
  let salt := le_value (firstn 8 (skipn 8 buf)) in
  let vals := skipn 16 buf in
  if size =? 1 then Ok (Salted.mkChd (Salted.u8Seeder vals) salt 0)
  else if size =? 2 then
    if negb (Z.of_nat (length vals) mod 2 =? 0) then Err ErrPartialSeeds
    else Ok (Salted.mkChd (Salted.u16Seeder (bsToUint16Slice vals)) salt 0)
  else if size =? 4 then
    if negb (Z.of_nat (length vals) mod 4 =? 0) then Err ErrPartialSeeds
    else Ok (Salted.mkChd (Salted.u32Seeder (bsToUint32Slice vals)) salt 0)
  else Err ErrSeedSize.
Proof.
  intros Hl. unfold Salted.UnmarshalBinaryMmap, Salted._ChdHeaderSize.
  rewrite go_slice_ok by lia. change (Z.to_nat (16 - 0)) with 16%nat.
  change (Z.to_nat 0) with 0%nat. change (Z.to_nat 16) with 16%nat. rewrite skipn_O.
  cbn [bind].
  assert (Hf : length (firstn 16 buf) = 16%nat) by (rewrite length_firstn; lia).
  rewrite (go_index_in _ 0 0) by (rewrite Hf; reflexivity). cbn [bind].
  rewrite nth_firstn. change (Nat.ltb (Z.to_nat 0) 16) with true. cbn [Z.to_nat].
  destruct (nth 0 buf 0 =? 1); [ | reflexivity]. cbn [negb].
  rewrite (go_index_in _ 1 0) by (rewrite Hf; reflexivity). cbn [bind].
  rewrite nth_firstn. change (Nat.ltb (Z.to_nat 1) 16) with true. cbn [Z.to_nat Pos.to_nat].
  rewrite skipn_firstn_comm. reflexivity.
Qed.

(** C8: for a buffer of at least 16 bytes, [UnmarshalBinaryMmap] fails
    with [ErrVersion] (the spec's UnsupportedVersion) when byte 0 is not the
    version 1.  With version 1 and a seed width [w] (byte 1) of 1, 2 or 4, a
    body whose length is not a multiple of [w] fails with [ErrPartialSeeds]
    (the spec's CorruptIndex), and a body that is a multiple unmarshals to a
    table of [body / w] seeds of width [w] carrying the salt of bytes 8 to
    15.  Any other width fails with [ErrSeedSize]. *)
Theorem unmarshal_checks buf :
  (16 <= length buf)%nat ->
  let v := nth 0 buf 0 in
  let w := nth 1 buf 0 in
  let body := Z.of_nat (length buf - 16) in
  (v <> 1 -> Salted.UnmarshalBinaryMmap buf = Err ErrVersion) /\
  (v = 1 -> (w = 1 \/ w = 2 \/ w = 4) -> body mod w <> 0 ->
     Salted.UnmarshalBinaryMmap buf = Err ErrPartialSeeds) /\
  (v = 1 -> (w = 1 \/ w = 2 \/ w = 4) -> body mod w = 0 ->
     exists c, Salted.UnmarshalBinaryMmap buf = Ok c /\
       Salted.SeedSize c = w /\ Salted.Len c * w = body /\
       Salted.salt c = le_value (firstn 8 (skipn 8 buf))) /\
  (v = 1 -> ~ (w = 1 \/ w = 2 \/ w = 4) -> Salted.UnmarshalBinaryMmap buf = Err ErrSeedSize).
Proof.
  intros Hl v w body. rewrite (salted_unmarshal_eq buf Hl). cbv zeta.
  rewrite length_skipn. subst v w body.
  set (v := nth 0 buf 0). set (w := nth 1 buf 0).
  assert (Hb : 0 <= Z.of_nat (length buf - 16)) by lia.
  set (body := Z.of_nat (length buf - 16)) in *.
  split; [intros Hv; apply Z.eqb_neq in Hv; rewrite Hv; reflexivity | ].
  split; [ | split].
  - intros Hv Hw Hm. rewrite (proj2 (Z.eqb_eq v 1) Hv). cbn [negb].
    destruct Hw as [-> | [-> | ->]]; cbn [Z.eqb Pos.eqb].
    + rewrite Z.mod_1_r in Hm. contradiction.
    + rewrite (proj2 (Z.eqb_neq _ 0) Hm). reflexivity.
    + rewrite (proj2 (Z.eqb_neq _ 0) Hm). reflexivity.
  - intros Hv Hw Hm. rewrite (proj2 (Z.eqb_eq v 1) Hv). cbn [negb].
    unfold Salted.SeedSize, Salted.Len, Salted.seed_length.
    destruct Hw as [-> | [-> | ->]]; cbn [Z.eqb Pos.eqb].
    + eexists; split; [reflexivity | ].
      cbn [Salted.seed Salted.seedsize Salted.seeds_of Salted.salt].
      rewrite length_skipn. split; [reflexivity | split; [subst body; lia | reflexivity]].
    + rewrite Hm. cbn [Z.eqb negb]. eexists; split; [reflexivity | ].
      cbn [Salted.seed Salted.seedsize Salted.seeds_of Salted.salt].
      unfold bsToUint16Slice. rewrite length_map, chunks_length; [ | lia | ].
      * rewrite length_skipn. split; [reflexivity | split; [ | reflexivity]].
        rewrite Nat2Z.inj_div. fold body. change (Z.of_nat 2) with 2.
        pose proof (Z.div_mod body 2 ltac:(lia)). lia.
      * apply Nat.Div0.div_le_upper_bound. lia.
    + rewrite Hm. cbn [Z.eqb negb]. eexists; split; [reflexivity | ].
      cbn [Salted.seed Salted.seedsize Salted.seeds_of Salted.salt].
      unfold bsToUint32Slice. rewrite length_map, chunks_length; [ | lia | ].
      * rewrite length_skipn. split; [reflexivity | split; [ | reflexivity]].
        rewrite Nat2Z.inj_div. fold body. change (Z.of_nat 4) with 4.
        pose proof (Z.div_mod body 4 ltac:(lia)). lia.
      * apply Nat.Div0.div_le_upper_bound. lia.
  - intros Hv Hw. rewrite (proj2 (Z.eqb_eq v 1) Hv). cbn [negb].
    destruct (Z.eqb_spec w 1); [tauto | ].
    destruct (Z.eqb_spec w 2); [tauto | ].
    destruct (Z.eqb_spec w 4); [tauto | reflexivity].
Qed.

(** ** chd.go, current revision: the salted hash *)

Lemma salted_build_salt r ks c : Salted.build r ks = Ok c -> Salted.bsalt c = r.
Proof.
  unfold Salted.build, Salted.New.
  assert (G : forall acc, (forall c', acc = Ok c' -> Salted.bsalt c' = r) ->
    fold_left (fun c k => c <- c;; Salted.Add c k) ks acc = Ok c -> Salted.bsalt c = r).
  { induction ks as [| k ks IH]; intros acc Hacc H; cbn [fold_left] in H; [now apply Hacc | ].
    refine (IH _ _ H).
    intros c' E. destruct acc as [a | | ]; cbn [bind] in E; try discriminate.
    unfold Salted.Add in E. destruct (existsb _ _); [discriminate | ].
    inversion E; subst. cbn. now apply Hacc. }
  apply G. intros c' E. inversion E. reflexivity.
Qed.

Lemma salted_freeze_salt c load ch :
  Salted.Freeze c load = Ok ch -> Salted.salt ch = Salted.bsalt c.
Proof.
  unfold Salted.Freeze. destruct (_ || _); [discriminate | ]. cbv zeta.
  destruct (go_make 32 _ _); cbn [bind]; try discriminate.
  destruct (go_make 4 _ _); cbn [bind]; try discriminate.
  destruct (fold_left _ _ _); cbn [bind]; try discriminate.
  destruct (Salted.place_buckets _ _ _ _ _ _ _ _) as [[[? ?] ?] | | ]; cbn [bind];
    try discriminate.
  intros H. inversion H. reflexivity.
Qed.

Lemma salted_rhash_range seed key salt k :
  0 <= k <= 64 -> 0 <= Salted.rhash seed key (2 ^ k) salt < 2 ^ k.
Proof.
  intros Hk. unfold Salted.rhash. cbv zeta.
  assert (Hs : sub64 (2 ^ k) 1 = Z.ones k).
  { rewrite Z.ones_equiv. unfold sub64, u64, W64.
    assert (2 ^ k <= 2 ^ 64) by (apply Z.pow_le_mono_r; lia).
    assert (0 < 2 ^ k) by (apply Z.pow_pos_nonneg; lia).
    apply Z.mod_small. lia. }
  rewrite Hs, Z.land_ones by lia. apply Z.mod_pos_bound. apply Z.pow_pos_nonneg; lia.
Qed.

(** C4: [rhash seed key m salt] XORs [mix(salt)] into [h] between the
    wrapping multiplications by 0x880355f21e6d1965, the spec's realization
    [rhash_spec], and for [m = 2^k] it lands in [[0, m)].  [Freeze] keeps the
    builder's salt in the table and [Find] hashes with it, so [Find] depends
    on the salt: builders of the keys 1, 2, 3 with salts 0 and 1 freeze to
    the same seeds, yet [Find] of key 1 differs. *)
Theorem rhash_salted seed key salt k :
  0 <= k <= 64 ->
  Salted.rhash seed key (2 ^ k) salt = rhash_spec seed key (2 ^ k) salt /\
  0 <= Salted.rhash seed key (2 ^ k) salt < 2 ^ k /\
  (forall r ks c load ch, Salted.build r ks = Ok c -> Salted.Freeze c load = Ok ch ->
     Salted.salt ch = r /\
     forall key', Salted.Find ch key' =
       (s <- Salted.seed_at (Salted.seed ch) (Salted.rhash 0 key' (Salted.Len ch) r);;
        Ok (Salted.rhash s key' (Salted.Len ch) r))) /\
  (exists c0 c1 ch0 ch1,
     Salted.build 0 [1; 2; 3] = Ok c0 /\ Salted.Freeze c0 (1#2) = Ok ch0 /\
     Salted.build 1 [1; 2; 3] = Ok c1 /\ Salted.Freeze c1 (1#2) = Ok ch1 /\
     Salted.seed ch0 = Salted.seed ch1 /\ Salted.Find ch0 1 <> Salted.Find ch1 1).
Proof.
  intros Hk. split; [reflexivity | ]. split; [apply salted_rhash_range; exact Hk | ].
  split.
  - intros r ks c load ch Hb Hf.
    assert (Hs : Salted.salt ch = r)
      by (rewrite (salted_freeze_salt c load ch Hf); exact (salted_build_salt r ks c Hb)).
    split; [exact Hs | ]. intros key'. unfold Salted.Find. rewrite Hs. reflexivity.
  - do 4 eexists. split; [vm_compute; reflexivity | ]. split; [vm_compute; reflexivity | ].
    split; [vm_compute; reflexivity | ]. split; [vm_compute; reflexivity | ].
    split; [reflexivity | ]. vm_compute. discriminate.
Qed.

Lemma rhash_salted_witness :
  0 <= Salted.rhash 5 7 (2 ^ 3) 9 < 2 ^ 3.
Proof.
  exact (proj1 (proj2 (rhash_salted 5 7 9 3 ltac:(lia)))).
Defined.

(** ** chd.go, current revision: Freeze, the seed width and marshalling *)


Lemma go_index_ok {A} (l : list A) i x :
  go_index l i = Ok x -> 0 <= i < Z.of_nat (length l) /\ nth_error l (Z.to_nat i) = Some x.
Proof.
  unfold go_index. destruct ((0 <=? i) && (i <? Z.of_nat (length l))) eqn:E; [ | discriminate].
  apply andb_prop in E as [E1 E2]. apply Z.leb_le in E1. apply Z.ltb_lt in E2.
  destruct (nth_error l (Z.to_nat i)) eqn:En; intros H; inversion H; subst. auto.
Qed.

Lemma go_set_ok {A} (l l' : list A) i v :
  go_set l i v = Ok l' -> 0 <= i < Z.of_nat (length l) /\ l' = set_nth l (Z.to_nat i) v.
Proof.
  unfold go_set. destruct ((0 <=? i) && (i <? Z.of_nat (length l))) eqn:E; [ | discriminate].
  apply andb_prop in E as [E1 E2]. apply Z.leb_le in E1. apply Z.ltb_lt in E2.
  intros H; inversion H; subst. auto.
Qed.

Lemma map_slot_set_nth l n v :
  (forall b, nth_error l n = Some b -> slot v = slot b) ->
  map slot (set_nth l n v) = map slot l.
Proof.
  revert n; induction l as [| x t IH]; intros [| n] H; cbn [set_nth map]; try reflexivity.
  - rewrite (H x eq_refl). reflexivity.
  - rewrite IH; [reflexivity | exact H].
Qed.

Lemma salted_fold_slots m salt ks acc bs' :
  fold_left (Salted.add_to_bucket m salt) ks acc = Ok bs' ->
  exists bs, acc = Ok bs /\ map slot bs' = map slot bs.
Proof.
  revert acc; induction ks as [| k ks IH]; intros acc H; cbn [fold_left] in H.
  - exists bs'. split; [exact H | reflexivity].
  - destruct (IH _ H) as [bs1 [E1 Hs1]].
    destruct acc as [bs | | ]; cbn [Salted.add_to_bucket bind] in E1; try discriminate.
    exists bs. split; [reflexivity | ]. rewrite Hs1.
    destruct (go_index bs _) as [b | | ] eqn:Ei; cbn [bind] in E1; try discriminate.
    apply go_set_ok in E1 as [_ ->]. apply go_index_ok in Ei as [_ Ei].
    apply map_slot_set_nth. intros b' Eb. rewrite Ei in Eb. inversion Eb. reflexivity.
Qed.

Lemma set_slots_slots i l :
  map slot (Salted.set_slots (Z.of_nat i) l) = map Z.of_nat (seq i (length l)).
Proof.
  revert i; induction l as [| b l IH]; intros i; [reflexivity | ].
  cbn [Salted.set_slots map length seq slot]. f_equal.
  replace (Z.of_nat i + 1) with (Z.of_nat (S i)) by lia. apply IH.
Qed.

Lemma NoDup_zseq i n : NoDup (map Z.of_nat (seq i n)).
Proof.
  revert i; induction n as [| n IH]; intros i; cbn [seq map]; constructor; [ | apply IH].
  rewrite in_map_iff. intros [x [Ex Hx]]. apply in_seq in Hx. lia.
Qed.

Lemma insert_bucket_perm b l : Permutation (insert_bucket b l) (b :: l).
Proof.
  induction l as [| b' l IH]; cbn [insert_bucket]; [reflexivity | ].
  destruct (Nat.ltb _ _); [reflexivity | ].
  rewrite IH. apply perm_swap.
Qed.

Lemma sort_buckets_perm l : Permutation (sort_buckets l) l.
Proof.
  induction l as [| b l IH]; [reflexivity | ].
  cbn [sort_buckets fold_right]. fold (sort_buckets l).
  rewrite insert_bucket_perm, IH. reflexivity.
Qed.

Lemma salted_try_seeds fuel s0 m salt b occ bOcc sds mx tr occ' bOcc' sds' mx' tr' :
  1 <= s0 -> s0 + Z.of_nat fuel <= Salted._MaxSeed ->
  Salted.try_seeds fuel s0 m salt b occ bOcc sds mx tr = Ok (occ', bOcc', sds', mx', tr') ->
  exists s, 1 <= s < Salted._MaxSeed /\ go_set sds (slot b) s = Ok sds' /\ mx' = Z.max mx s.
Proof.
  revert s0 occ bOcc tr.
  induction fuel as [| f IH]; intros s0 occ bOcc tr H1 H2 H; cbn [Salted.try_seeds] in H;
    [discriminate | ].
  destruct (Salted.place_keys s0 m salt occ (bv_Reset bOcc) (keys b)) as [[ok bo] | | ];
    cbn [bind] in H; try discriminate.
  destruct ok.
  - destruct (bv_Merge occ bo) as [o | | ]; cbn [bind] in H; try discriminate.
    destruct (go_set sds (slot b) s0) as [l | | ] eqn:E; cbn [bind] in H; try discriminate.
    inversion H; subst. exists s0. split; [lia | split; [exact E | ]].
    destruct (Z.ltb_spec mx s0); lia.
  - eapply (IH (s0 + 1)); [lia | lia | eassumption].
Qed.

Lemma max_seed_nonneg l : 0 <= max_seed l.
Proof. induction l as [| x l IH]; cbn [max_seed fold_right]; [lia | ]. fold (max_seed l). lia. Qed.

Lemma max_seed_set_nth l n s :
  Forall (fun x => 0 <= x) l -> (n < length l)%nat -> nth n l 0 = 0 -> 0 <= s ->
  max_seed (set_nth l n s) = Z.max (max_seed l) s.
Proof.
  intros Hl. revert n; induction Hl as [| x t Hx Ht IH]; intros [| n] Hn H0 Hs;
    cbn [length] in Hn; try lia; cbn [set_nth max_seed fold_right nth] in *.
  - fold (max_seed t). subst x. pose proof (max_seed_nonneg t). lia.
  - fold (max_seed t) (max_seed (set_nth t n s)). rewrite IH by lia. lia.
Qed.

Lemma max_seed_ge l x : In x l -> x <= max_seed l.
Proof.
  induction l as [| y l IH]; cbn [In]; [contradiction | ].
  cbn [max_seed fold_right]. fold (max_seed l). intros [-> | H]; [lia | ].
  specialize (IH H). lia.
Qed.

Lemma salted_place_buckets bs m salt occ bOcc sds mx tr sds' mx' tr' :
  NoDup (map slot bs) ->
  Forall (fun b => 0 <= slot b < Z.of_nat (length sds) /\ nth (Z.to_nat (slot b)) sds 0 = 0) bs ->
  Forall (fun x => 0 <= x < Salted._MaxSeed) sds ->
  mx = max_seed sds ->
  Salted.place_buckets bs m salt occ bOcc sds mx tr = Ok (sds', mx', tr') ->
  mx' = max_seed sds' /\ Forall (fun x => 0 <= x < Salted._MaxSeed) sds' /\
  length sds' = length sds.
Proof.
  revert occ bOcc sds mx tr.
  induction bs as [| b bs IH]; intros occ bOcc sds mx tr Hnd Hb Hs Hmx H;
    cbn [Salted.place_buckets] in H.
  - inversion H; subst. auto.
  - destruct (Salted.try_seeds _ 1 m salt b occ bOcc sds mx tr) as [[[[[o bo] l] x] t] | | ] eqn:E;
      cbn [bind] in H; try discriminate.
    apply salted_try_seeds in E as [s [Hs1 [Eg Ex]]];
      [ | lia | rewrite Z2Nat.id by (unfold Salted._MaxSeed; lia); lia].
    apply go_set_ok in Eg as [Hi El]. subst l.
    inversion Hnd as [| ? ? Hnin Hnd']. inversion Hb as [| ? ? [Hr Hz] Hb']. subst.
    assert (Hlen : length (set_nth sds (Z.to_nat (slot b)) s) = length sds)
      by apply set_nth_length.
    apply IH in H as [Hm [Hf Hl]]; [ | exact Hnd' | | | ].
    + split; [exact Hm | split; [exact Hf | rewrite Hl; exact Hlen]].
    + rewrite Forall_forall in Hb' |- *. intros b' Hin. rewrite Hlen.
      destruct (Hb' b' Hin) as [Hr' H0']. split; [exact Hr' | ].
      rewrite nth_set_nth.
      destruct (Nat.eqb_spec (Z.to_nat (slot b')) (Z.to_nat (slot b))) as [Eq | Ne];
        [ | exact H0'].
      exfalso. apply Hnin. apply Z2Nat.inj in Eq; [ | lia | lia].
      rewrite <- Eq. apply in_map. exact Hin.
    + apply Forall_set_nth; [exact Hs | lia].
    + rewrite max_seed_set_nth; [reflexivity | | lia | exact Hz | lia].
      eapply Forall_impl; [ | exact Hs]. cbn beta. lia.
Qed.

Lemma salted_freeze_seeds c load ch :
  Salted.Freeze c load = Ok ch ->
  exists sds, Salted.seed ch = Salted.makeSeeds sds (max_seed sds) /\
    Forall (fun x => 0 <= x < Salted._MaxSeed) sds /\ Salted.salt ch = Salted.bsalt c.
Proof.
  unfold Salted.Freeze. destruct (_ || _); [discriminate | ]. cbv zeta.
  set (m := nextpow2 _).
  destruct (go_make 32 m _) as [bs0 | | ] eqn:E0; cbn [bind]; try discriminate.
  destruct (go_make 4 m 0) as [sds0 | | ] eqn:E1; cbn [bind]; try discriminate.
  destruct (fold_left _ _ _) as [bs | | ] eqn:E2; cbn [bind]; try discriminate.
  destruct (Salted.place_buckets _ _ _ _ _ _ _ _) as [[[sds mx] tr] | | ] eqn:E3; cbn [bind];
    try discriminate.
  intros H. inversion H; subst ch. clear H.
  apply go_make_ok in E0. apply go_make_ok in E1.
  apply salted_fold_slots in E2 as [bs1 [Eb1 Hsl]]. inversion Eb1; subst bs1. clear Eb1.
  change 0 with (Z.of_nat 0) in Hsl at 1. rewrite set_slots_slots in Hsl.
  assert (Hlen : length bs0 = length sds0) by (subst; rewrite !repeat_length; reflexivity).
  assert (Hp := Permutation_map slot (sort_buckets_perm bs)).
  apply salted_place_buckets in E3 as [Hmx [Hf _]].
  - exists sds. cbn [Salted.seed Salted.salt]. rewrite Hmx. auto.
  - eapply Permutation_NoDup; [symmetry; exact Hp | ]. rewrite Hsl. apply NoDup_zseq.
  - rewrite Forall_forall. intros b Hin.
    assert (Hs : In (slot b) (map Z.of_nat (seq 0 (length bs0)))).
    { rewrite <- Hsl. apply (Permutation_in _ Hp). apply in_map. exact Hin. }
    apply in_map_iff in Hs as [n [En Hn]]. apply in_seq in Hn. rewrite <- En, Nat2Z.id.
    split; [lia | ]. subst sds0. apply nth_repeat.
  - subst sds0. apply Forall_forall. intros x Hx. apply repeat_spec in Hx. subst.
    unfold Salted._MaxSeed. lia.
  - subst sds0. clear. induction (Z.to_nat m) as [| n IH]; [reflexivity | ].
    cbn [repeat max_seed fold_right]. fold (max_seed (repeat 0 n)). rewrite <- IH. lia.
Qed.

Lemma land_ones_small x n : 0 <= n -> 0 <= x < 2 ^ n -> Z.land x (Z.ones n) = x.
Proof. intros Hn Hx. rewrite Z.land_ones by exact Hn. apply Z.mod_small. exact Hx. Qed.

Lemma map_land_id l n :
  0 <= n -> Forall (fun x => 0 <= x < 2 ^ n) l -> map (fun a => Z.land a (Z.ones n)) l = l.
Proof.
  intros Hn Hl. induction Hl as [| x l Hx Hl IH]; [reflexivity | ].
  cbn [map]. rewrite IH, land_ones_small by assumption. reflexivity.
Qed.

Lemma max_seed_lt l B : 0 < B -> Forall (fun x => 0 <= x < B) l -> max_seed l < B.
Proof.
  intros HB Hl. induction Hl as [| x l Hx Hl IH]; cbn [max_seed fold_right]; [lia | ].
  fold (max_seed l). lia.
Qed.

Lemma salted_header_split (w salt : Z) body :
  let buf := ([1; w; 0; 0; 0; 0; 0; 0] ++ le64 salt) ++ body in
  (16 <= length buf)%nat /\ nth 0 buf 0 = 1 /\ nth 1 buf 0 = w /\
  firstn 16 buf = [1; w; 0; 0; 0; 0; 0; 0] ++ le64 salt /\
  firstn 8 (skipn 8 buf) = le64 salt /\ skipn 16 buf = body.
Proof.
  intros buf.
  assert (Hl : length ([1; w; 0; 0; 0; 0; 0; 0] ++ le64 salt) = 16%nat)
    by (rewrite length_app; unfold le64; rewrite le_bytes_length; reflexivity).
  split; [subst buf; rewrite length_app, Hl; lia | ].
  split; [reflexivity | split; [reflexivity | ]].
  split; [apply firstn_app_exact; exact Hl | ].
  split; [ | apply skipn_app_exact; exact Hl].
  subst buf. rewrite <- app_assoc. cbn [app skipn].
  apply firstn_app_exact. unfold le64. apply le_bytes_length.
Qed.

Lemma salted_narrow r :
  Forall (fun x => 0 <= x < Salted._MaxSeed) r ->
  Salted.makeSeeds r (max_seed r) =
    if max_seed r <? 256 then Salted.u8Seeder r
    else if max_seed r <? 65536 then Salted.u16Seeder r
    else Salted.u32Seeder r.
Proof.
  intros Hr.
  assert (Hb : forall n, 0 <= n -> max_seed r < 2 ^ n -> Forall (fun x => 0 <= x < 2 ^ n) r).
  { intros n Hn Hm. apply Forall_forall. intros x Hx. split.
    - rewrite Forall_forall in Hr. apply (Hr x Hx).
    - pose proof (max_seed_ge r x Hx). lia. }
  unfold Salted.makeSeeds, Salted.newU8, Salted.newU16, Salted.newU32.
  destruct (Z.ltb_spec (max_seed r) 256) as [H8 | H8].
  - change 0xff with (Z.ones 8). rewrite map_land_id; [reflexivity | lia | apply Hb; cbn; lia].
  - destruct (Z.ltb_spec (max_seed r) 65536) as [H16 | H16]; [ | reflexivity].
    change 0xffff with (Z.ones 16). rewrite map_land_id; [reflexivity | lia | apply Hb; cbn; lia].
Qed.

Lemma salted_seeds_of_narrow r :
  Forall (fun x => 0 <= x < Salted._MaxSeed) r ->
  Salted.seeds_of (Salted.makeSeeds r (max_seed r)) = r.
Proof.
  intros Hr. rewrite salted_narrow by exact Hr.
  destruct (max_seed r <? 256); [reflexivity | ]. destruct (max_seed r <? 65536); reflexivity.
Qed.

(** C5: for a table built by [Freeze], the seeds are narrowed to the
    smallest of 1, 2 or 4 bytes that holds the largest seed (1 below 256, 2
    below 65536, else 4).  [MarshalBinary] writes a 16-byte header (byte 0 is
    the version 1, byte 1 the seed width, bytes 8 to 15 the salt), then
    [Len] seeds of that width, and returns the byte count; unmarshalling
    these bytes gives back the seeds and the salt. *)
Theorem marshal_narrowed c load ch :
  0 <= Salted.bsalt c < W64 ->
  Salted.Freeze c load = Ok ch ->
  let w := Salted.SeedSize ch in
  let sds := Salted.seeds_of (Salted.seed ch) in
  let out := fst (Salted.MarshalBinary ch) in
  Salted.seed ch = Salted.makeSeeds sds (max_seed sds) /\
  Forall (fun s => 0 <= s < Salted._MaxSeed) sds /\
  In w [1; 2; 4] /\ max_seed sds < 256 ^ w /\
  (forall w', In w' [1; 2; 4] -> w' < w -> 256 ^ w' <= max_seed sds) /\
  firstn 16 out = [1; w; 0; 0; 0; 0; 0; 0] ++ le64 (Salted.bsalt c) /\
  Z.of_nat (length out) = 16 + Salted.Len ch * w /\
  snd (Salted.MarshalBinary ch) = Z.of_nat (length out) /\
  Salted.UnmarshalBinaryMmap out = Ok (Salted.mkChd (Salted.seed ch) (Salted.bsalt c) 0).
Proof.
  intros Hsalt Hf. destruct (salted_freeze_seeds c load ch Hf) as [r [Hseed [Hr Hsl]]].
  assert (Hmx : max_seed r < Salted._MaxSeed)
    by (apply max_seed_lt; [unfold Salted._MaxSeed; lia | exact Hr]).
  assert (Hsalt' : le_value (le64 (Salted.bsalt c)) = Salted.bsalt c).
  { unfold le64. rewrite le_value_bytes. apply Z.mod_small. exact Hsalt. }
  assert (Hb : forall n, 0 <= n -> max_seed r < 2 ^ n -> Forall (fun x => 0 <= x < 2 ^ n) r).
  { intros n Hn Hm. apply Forall_forall. intros x Hx. split.
    - rewrite Forall_forall in Hr. apply (Hr x Hx).
    - pose proof (max_seed_ge r x Hx). lia. }
  pose proof (max_seed_nonneg r) as H0.
  cbv zeta. unfold Salted.MarshalBinary, Salted.SeedSize, Salted.Len, Salted.seed_length.
  rewrite Hseed, Hsl, (salted_seeds_of_narrow r Hr).
  split; [reflexivity | split; [exact Hr | ]].
  rewrite (salted_narrow r Hr). unfold Salted._MaxSeed in Hmx.
  destruct (Z.ltb_spec (max_seed r) 256) as [H8 | H8];
    [ | destruct (Z.ltb_spec (max_seed r) 65536) as [H16 | H16]];
    cbn [Salted.seeds_of Salted.seedsize Salted.marshal fst snd].
  - destruct (salted_header_split 1 (Salted.bsalt c) r) as [L [N0 [N1 [F [S8 S16]]]]].
    split; [cbn; auto | ].
    split; [change (256 ^ 2) with 65536; lia | split; [intros w' Hw' Hlt; cbn in Hw'; destruct Hw' as [<- | [<- | [<- | []]]]; cbn; lia | ]].
    split; [exact F | ].
    split; [rewrite !length_app; unfold le64; rewrite le_bytes_length; cbn [length]; lia | ].
    split; [rewrite !length_app; unfold le64; rewrite le_bytes_length; cbn [length]; lia | ].
    rewrite salted_unmarshal_eq by exact L. rewrite N0, N1, S8, S16, Hsalt'. reflexivity.
  - destruct (salted_header_split 2 (Salted.bsalt c) (u16sToByteSlice r))
      as [L [N0 [N1 [F [S8 S16]]]]].
    assert (Hbl : length (u16sToByteSlice r) = (2 * length r)%nat)
      by (unfold u16sToByteSlice, le16; apply concat_words_length).
    split; [cbn; auto | ].
    split; [change (256 ^ 2) with 65536; lia | split; [intros w' Hw' Hlt; cbn in Hw'; destruct Hw' as [<- | [<- | [<- | []]]]; cbn; lia | ]].
    split; [exact F | ].
    split; [rewrite !length_app, Hbl; unfold le64; rewrite le_bytes_length; cbn [length]; lia | ].
    split; [rewrite !length_app, Hbl; unfold le64; rewrite le_bytes_length; cbn [length]; lia | ].
    rewrite salted_unmarshal_eq by exact L. cbv zeta. rewrite N0, N1, S8, S16, Hsalt', Hbl.
    cbn [negb Z.eqb Pos.eqb].
    rewrite Nat2Z.inj_mul, Z.mul_comm, Z.mod_mul by lia. cbn [Z.eqb negb].
    unfold bsToUint16Slice, u16sToByteSlice, le16.
    rewrite words_roundtrip; [reflexivity | lia | ]. apply Hb; cbn; lia.
  - destruct (salted_header_split 4 (Salted.bsalt c) (u32sToByteSlice r))
      as [L [N0 [N1 [F [S8 S16]]]]].
    assert (Hbl : length (u32sToByteSlice r) = (4 * length r)%nat)
      by (unfold u32sToByteSlice, le32; apply concat_words_length).
    split; [cbn; auto | ].
    split; [change (256 ^ 4) with 4294967296; lia | ].
    split; [intros w' Hw' Hlt; cbn in Hw'; destruct Hw' as [<- | [<- | [<- | []]]]; cbn; lia | ].
    split; [exact F | ].
    split; [rewrite !length_app, Hbl; unfold le64; rewrite le_bytes_length; cbn [length]; lia | ].
    split; [rewrite !length_app, Hbl; unfold le64; rewrite le_bytes_length; cbn [length]; lia | ].
    rewrite salted_unmarshal_eq by exact L. cbv zeta. rewrite N0, N1, S8, S16, Hsalt', Hbl.
    cbn [negb Z.eqb Pos.eqb].
    rewrite Nat2Z.inj_mul, Z.mul_comm, Z.mod_mul by lia. cbn [Z.eqb negb].
    unfold bsToUint32Slice, u32sToByteSlice, le32.
    rewrite words_roundtrip; [reflexivity | lia | ]. apply Hb; cbn; lia.
Qed.

Lemma marshal_narrowed_witness :
  Salted.UnmarshalBinaryMmap
    (fst (Salted.MarshalBinary (Salted.mkChd (Salted.u8Seeder [1; 2; 1; 1; 1; 1; 1; 1]) 5 1))) =
  Ok (Salted.mkChd (Salted.u8Seeder [1; 2; 1; 1; 1; 1; 1; 1]) 5 0).
Proof.
  exact (proj2 (proj2 (proj2 (proj2 (proj2 (proj2 (proj2 (proj2
    (marshal_narrowed (Salted.mkBuilder [1; 2; 3] 5) (1#2)
       (Salted.mkChd (Salted.u8Seeder [1; 2; 1; 1; 1; 1; 1; 1]) 5 1)
       ltac:(cbn; unfold W64; lia) ltac:(vm_compute; reflexivity)))))))))).
Defined.

Lemma unmarshal_checks_witness :
  Salted.UnmarshalBinaryMmap [1; 2; 0; 0; 0; 0; 0; 0; 0; 0; 0; 0; 0; 0; 0; 0; 7] =
  Err ErrPartialSeeds.
Proof.
  exact (proj1 (proj2 (unmarshal_checks
    [1; 2; 0; 0; 0; 0; 0; 0; 0; 0; 0; 0; 0; 0; 0; 0; 7] ltac:(cbn; lia)))
    eq_refl ltac:(cbn; auto) ltac:(cbn; discriminate)).
Defined.






